(** * Prepack command-line front-end ([src/prepack-cli.js])

    A shallow embedding of the [run] function of the Prepack CLI and of the
    closures it defines ([errorHandler], [printDiagnostics],
    [processSerializedCode]), followed by the properties established for it.

    Conventions of the embedding
    - a JavaScript string is a [string]; each [ascii] stands for one code
      unit below 256;
    - [undefined] / [null] are [None] of an option type;
    - a Number is an IEEE-754 double; the ones this program makes
      ([parseInt(s, 10)] and its product with 1000) are NaN, an infinity,
      a zero of either sign or a double of integer value, and integers
      are rounded to the nearest double (ties to even) from 2^53 on;
    - the mutable variables captured by the closures ([errors]) and the
      effects on the outside world (console, files, engine calls) are
      threaded through a state-and-completion monad [M];
    - [process.exit] ends the process at once: no [catch] or [finally]
      block runs after it;
    - writes through [fs.writeFileSync] are assumed to succeed. *)

From Stdlib Require Import String Ascii List Bool Arith ZArith Lia.
From Stdlib Require Import DecimalString.
Import ListNotations.
Local Open Scope list_scope.
Local Open Scope string_scope.

Set Implicit Arguments.

(** ** JavaScript primitives used by the CLI *)

Module JS.

(** Truthiness of a possibly-undefined string ([if (s)], [s || ""]). *)
Definition truthy_str (s : option string) : bool :=
  match s with
  | None => false
  | Some EmptyString => false
  | Some _ => true
  end.

(** [s || ""] for a possibly-undefined string. *)
Definition or_empty (s : option string) : string :=
  match s with
  | Some x => x
  | None => ""
  end.

(** [s.startsWith(p)] *)
Definition startsWith (p s : string) : bool := String.prefix p s.

(** [s.slice(n)] for a non-negative [n]. *)
Fixpoint slice (n : nat) (s : string) : string :=
  match n, s with
  | O, _ => s
  | S _, EmptyString => EmptyString
  | S m, String _ r => slice m r
  end.

(** [s.split(",")]: always at least one piece. *)
Fixpoint split_on (sep : ascii) (s : string) : list string :=
  match s with
  | EmptyString => [EmptyString]
  | String c r =>
      if Ascii.eqb c sep then EmptyString :: split_on sep r
      else match split_on sep r with
           | [] => [String c EmptyString]
           | p :: ps => String c p :: ps
           end
  end.

(** [xs.join(sep)] *)
Definition join (sep : string) (xs : list string) : string :=
  String.concat sep xs.

(** [xs.includes(v)] where [v] may be [undefined] and [xs] holds strings. *)
Definition includes (xs : list string) (v : option string) : bool :=
  match v with
  | None => false
  | Some s => existsb (String.eqb s) xs
  end.

(** String conversion of a non-negative integer in a template literal. *)
Definition string_of_nat (n : nat) : string :=
  NilEmpty.string_of_uint (Nat.to_uint n).

(** String conversion of a possibly-undefined string in a template literal. *)
Definition show_opt (s : option string) : string :=
  match s with
  | Some x => x
  | None => "undefined"
  end.

(** *** Numbers *)

(** The doubles that [parseInt] and a product of such values can be:
    [JSInt z] is the finite double of integer value [z], +0 for [z = 0].
    Only integers that are doubles are put under [JSInt]: every value is
    built by [to_double]. *)
Inductive Number : Type :=
| NaN
| Infinity (negative : bool)
| NegZero
| JSInt (z : Z).

(** A positive integer rounded to 53 significant bits, to nearest and
    ties to even; integers below 2^53 are kept. *)
Definition round_to_53_bits (n : Z) : Z :=
  (let e := Z.log2 n - 52 in
   if e <=? 0 then n
   else
     let q := Z.shiftr n e in
     let r := n - Z.shiftl q e in
     let half := Z.shiftl 1 (e - 1) in
     let q' := if r <? half then q
               else if half <? r then q + 1
               else if Z.even q then q else q + 1 in
     Z.shiftl q' e)%Z.

(** The Number value of a mathematical integer: the nearest double, an
    infinity from 2^1024 on. *)
Definition to_double (z : Z) : Number :=
  let m := round_to_53_bits (Z.abs z) in
  if (2 ^ 1024 <=? m)%Z then Infinity (z <? 0)%Z
  else JSInt (Z.sgn z * m).

Definition is_negative (x : Number) : bool :=
  match x with
  | NaN => false
  | Infinity negative => negative
  | NegZero => true
  | JSInt z => (z <? 0)%Z
  end.

Definition is_zero (x : Number) : bool :=
  match x with
  | NegZero => true
  | JSInt z => (z =? 0)%Z
  | _ => false
  end.

(** [x * y] *)
Definition times (x y : Number) : Number :=
  let negative := xorb (is_negative x) (is_negative y) in
  match x, y with
  | NaN, _ | _, NaN => NaN
  | Infinity _, _ | _, Infinity _ =>
      if (is_zero x || is_zero y)%bool then NaN else Infinity negative
  | JSInt a, JSInt b =>
      if (is_zero x || is_zero y)%bool
      then (if negative then NegZero else JSInt 0)
      else to_double (a * b)
  | _, _ => if negative then NegZero else JSInt 0
  end.

(** The [JSInt] values that are doubles. *)
Definition is_double (x : Number) : Prop :=
  match x with
  | JSInt z => to_double z = JSInt z
  | _ => True
  end.

Definition is_digit (c : ascii) : bool :=
  let n := nat_of_ascii c in (48 <=? n)%nat && (n <=? 57)%nat.

Definition digit_val (c : ascii) : Z := Z.of_nat (nat_of_ascii c) - 48.

(** StrWhiteSpaceChar, restricted to code units below 256:
    TAB, LF, VT, FF, CR, SP, NBSP. *)
Definition is_space (c : ascii) : bool :=
  let n := nat_of_ascii c in
  (Nat.eqb n 9 || Nat.eqb n 10 || Nat.eqb n 11 || Nat.eqb n 12
   || Nat.eqb n 13 || Nat.eqb n 32 || Nat.eqb n 160)%bool.

Fixpoint drop_spaces (s : list ascii) : list ascii :=
  match s with
  | c :: r => if is_space c then drop_spaces r else s
  | [] => []
  end.

(** Both ends trimmed, as StringToNumber does. *)
Definition trim (s : list ascii) : list ascii :=
  rev (drop_spaces (rev (drop_spaces s))).

(** Longest prefix of decimal digits, and the rest. *)
Fixpoint span_digits (s : list ascii) : list ascii * list ascii :=
  match s with
  | c :: r =>
      if is_digit c
      then let '(d, t) := span_digits r in (c :: d, t)
      else ([], s)
  | [] => ([], [])
  end.

(** Value of a digit string read from the left with accumulator [acc]. *)
Fixpoint digits_value (acc : Z) (ds : list ascii) : Z :=
  match ds with
  | [] => acc
  | c :: r => digits_value (10 * acc + digit_val c) r
  end.

Definition non_empty (s : list ascii) : bool :=
  match s with [] => false | _ => true end.

Definition strip_sign (s : list ascii) : list ascii :=
  match s with
  | c :: r => if (Ascii.eqb c "+" || Ascii.eqb c "-")%bool then r else s
  | [] => []
  end.

(** ExponentPart_opt followed by the end of the literal. *)
Definition exponent_opt (s : list ascii) : bool :=
  match s with
  | [] => true
  | c :: r =>
      if (Ascii.eqb c "e" || Ascii.eqb c "E")%bool
      then let r' := strip_sign r in non_empty r' && forallb is_digit r'
      else false
  end.

(** StrUnsignedDecimalLiteral. *)
Definition unsigned_decimal (s : list ascii) : bool :=
  if list_eq_dec ascii_dec s (list_ascii_of_string "Infinity") then true
  else
    let '(ip, r1) := span_digits s in
    match r1 with
    | c :: r2 =>
        if Ascii.eqb c "."
        then let '(fp, r3) := span_digits r2 in
             (non_empty ip || non_empty fp) && exponent_opt r3
        else non_empty ip && exponent_opt r1
    | [] => non_empty ip
    end.

Definition is_hex (c : ascii) : bool :=
  let n := nat_of_ascii c in
  (is_digit c || ((65 <=? n)%nat && (n <=? 70)%nat)
   || ((97 <=? n)%nat && (n <=? 102)%nat))%bool.

Definition is_octal (c : ascii) : bool :=
  let n := nat_of_ascii c in (48 <=? n)%nat && (n <=? 55)%nat.

Definition is_binary (c : ascii) : bool :=
  let n := nat_of_ascii c in (48 <=? n)%nat && (n <=? 49)%nat.

(** NonDecimalIntegerLiteral: 0x.., 0o.., 0b.. (either case). *)
Definition non_decimal (s : list ascii) : bool :=
  match s with
  | z :: p :: ds =>
      Ascii.eqb z "0" && non_empty ds &&
      (if (Ascii.eqb p "x" || Ascii.eqb p "X")%bool then forallb is_hex ds
       else if (Ascii.eqb p "o" || Ascii.eqb p "O")%bool then forallb is_octal ds
       else if (Ascii.eqb p "b" || Ascii.eqb p "B")%bool then forallb is_binary ds
       else false)
  | _ => false
  end.

(** Whether the text is a StringNumericLiteral, i.e. whether
    [Number(s)] is not NaN.  Blank text converts to 0. *)
Definition string_is_numeric (s : string) : bool :=
  let t := trim (list_ascii_of_string s) in
  match t with
  | [] => true
  | _ => (unsigned_decimal (strip_sign t) || non_decimal t)%bool
  end.

(** The global [isNaN(v)] for a string or [undefined]:
    [Number(undefined)] is NaN. *)
Definition isNaN (v : option string) : bool :=
  match v with
  | None => true
  | Some s => negb (string_is_numeric s)
  end.

(** [parseInt(s, 10)]: leading white space, an optional sign, then the
    longest run of decimal digits; the rest of the text is ignored.  No
    digit gives NaN, a negative zero gives -0, and the integer read is
    rounded to a double.  (From the 21st significant digit on ECMAScript
    lets an implementation read the digits as 0; V8 rounds the integer
    as written, which is what [to_double] does.) *)
Definition parseInt10 (s : string) : Number :=
  let t := drop_spaces (list_ascii_of_string s) in
  let neg := match t with c :: _ => Ascii.eqb c "-" | [] => false end in
  let '(ds, _) := span_digits (strip_sign t) in
  match ds with
  | [] => NaN
  | _ =>
      let mathInt := digits_value 0 ds in
      if (mathInt =? 0)%Z then (if neg then NegZero else JSInt 0)
      else to_double (if neg then - mathInt else mathInt)
  end.

End JS.

(** ** Data model *)

(** A Babel source location.  Locations are JavaScript objects and the
    [Map] holding the diagnostics compares its keys by object identity:
    [loc_ref] is that identity. *)
Record SourceLocation : Type := {
  loc_ref : nat;
  loc_source : option string;
  loc_line : nat;
  loc_column : nat
}.

Inductive Severity : Type :=
| FatalErrorSeverity
| RecoverableError
| Warning
| Information.

Definition severity_text (s : Severity) : string :=
  match s with
  | FatalErrorSeverity => "FatalError"
  | RecoverableError => "RecoverableError"
  | Warning => "Warning"
  | Information => "Information"
  end.

(** [error.severity === "FatalError"] *)
Definition is_fatal_severity (s : Severity) : bool :=
  match s with
  | FatalErrorSeverity => true
  | _ => false
  end.

Record CompilerDiagnostic : Type := {
  location : option SourceLocation;
  severity : Severity;
  errorCode : string;
  message : string;
  callStack : option string
}.

Inductive ErrorHandlerResult : Type :=
| Recover
| Fail.

(** Values that can be thrown at the CLI or by it. *)
Inductive JSError : Type :=
| FatalError (msg : string)
| InvariantViolation (msg : string)
| TypeError (msg : string)
| OtherError (descr : string).

(** [err instanceof FatalError] *)
Definition instanceof_FatalError (e : JSError) : bool :=
  match e with
  | FatalError _ => true
  | _ => false
  end.

(** The engine's result.  The source map and the two statistics objects
    are opaque to the CLI and stand here for their JSON text. *)
Record Serialized : Type := {
  code : string;
  map : option string;
  statistics : option string;
  timingStats : option string;
  heapGraph : option string
}.

(** *** The [flags] object *)

Inductive FlagVal : Type :=
| FBool (b : bool)
| FStr (s : string).

Definition Flags : Type := list (string * FlagVal).

Definition initial_flags : Flags :=
  [ ("initializeMoreModules", FBool false);
    ("trace", FBool false);
    ("debugNames", FBool false);
    ("omitInvariants", FBool false);
    ("inlineExpressions", FBool false);
    ("simpleClosures", FBool false);
    ("abstractEffectsInAdditionalFunctions", FBool false);
    ("logStatistics", FBool false);
    ("logModules", FBool false);
    ("delayInitializations", FBool false);
    ("delayUnsupportedRequires", FBool false);
    ("accelerateUnsupportedRequires", FBool true);
    ("internalDebug", FBool false);
    ("debugScopes", FBool false);
    ("serialize", FBool false);
    ("residual", FBool false);
    ("check", FBool false);
    ("profile", FBool false);
    ("reactEnabled", FBool false);
    ("reactOutput", FStr "create-element") ].

(** Properties every object literal inherits from [Object.prototype];
    the [in] operator sees them. *)
Definition Object_prototype_properties : list string :=
  [ "constructor"; "__defineGetter__"; "__defineSetter__"; "hasOwnProperty";
    "__lookupGetter__"; "__lookupSetter__"; "isPrototypeOf";
    "propertyIsEnumerable"; "toString"; "valueOf"; "__proto__";
    "toLocaleString" ].

Fixpoint get_flag (k : string) (f : Flags) : option FlagVal :=
  match f with
  | [] => None
  | (k', v) :: r => if String.eqb k k' then Some v else get_flag k r
  end.

(** Assignment to an own property: an existing key keeps its position, a
    new key goes last. *)
Fixpoint put_flag (k : string) (v : FlagVal) (f : Flags) : Flags :=
  match f with
  | [] => [(k, v)]
  | (k', v') :: r =>
      if String.eqb k k' then (k', v) :: r else (k', v') :: put_flag k v r
  end.

(** [k in flags] *)
Definition in_flags (k : string) (f : Flags) : bool :=
  match get_flag k f with
  | Some _ => true
  | None => existsb (String.eqb k) Object_prototype_properties
  end.

(** [flags[k] = true] for a dynamic key: [__proto__] is an accessor whose
    setter ignores a boolean. *)
Definition assign_flag (k : string) (f : Flags) : Flags :=
  if String.eqb k "__proto__" then f else put_flag k (FBool true) f.

(** Truthiness of [flags.k]. *)
Definition flag_on (k : string) (f : Flags) : bool :=
  match get_flag k f with
  | Some (FBool b) => b
  | Some (FStr s) => JS.truthy_str (Some s)
  | None => false
  end.

(** [Object.keys(flags)] *)
Definition flag_keys (f : Flags) : list string := List.map fst f.

(** *** Local variables of [run] filled by the argument loop *)

Record Locals : Type := {
  inputFilenames : list string;
  outputFilename : option string;
  compatibility : option string;
  mathRandomSeed : option string;
  inputSourceMap : option string;
  outputSourceMap : option string;
  statsFileName : option string;
  maxStackDepth : option JS.Number;
  timeout : option JS.Number;
  additionalFunctions : option (list string);
  lazyObjectsRuntime : option string;
  heapGraphFilePath : option string;
  debugInFilePath : option string;
  debugOutFilePath : option string;
  flags : Flags
}.

Definition initial_locals : Locals :=
  {| inputFilenames := []; outputFilename := None; compatibility := None;
     mathRandomSeed := None; inputSourceMap := None; outputSourceMap := None;
     statsFileName := None; maxStackDepth := None; timeout := None;
     additionalFunctions := None; lazyObjectsRuntime := None;
     heapGraphFilePath := None; debugInFilePath := None;
     debugOutFilePath := None; flags := initial_flags |}.

Section LocalsUpdate.
Variable l : Locals.

Definition push_inputFilename (a : string) : Locals :=
  {| inputFilenames := (inputFilenames l ++ [a])%list;
     outputFilename := outputFilename l; compatibility := compatibility l;
     mathRandomSeed := mathRandomSeed l; inputSourceMap := inputSourceMap l;
     outputSourceMap := outputSourceMap l; statsFileName := statsFileName l;
     maxStackDepth := maxStackDepth l; timeout := timeout l;
     additionalFunctions := additionalFunctions l;
     lazyObjectsRuntime := lazyObjectsRuntime l;
     heapGraphFilePath := heapGraphFilePath l;
     debugInFilePath := debugInFilePath l;
     debugOutFilePath := debugOutFilePath l; flags := flags l |}.

Definition set_outputFilename (v : option string) : Locals :=
  {| inputFilenames := inputFilenames l;
     outputFilename := v; compatibility := compatibility l;
     mathRandomSeed := mathRandomSeed l; inputSourceMap := inputSourceMap l;
     outputSourceMap := outputSourceMap l; statsFileName := statsFileName l;
     maxStackDepth := maxStackDepth l; timeout := timeout l;
     additionalFunctions := additionalFunctions l;
     lazyObjectsRuntime := lazyObjectsRuntime l;
     heapGraphFilePath := heapGraphFilePath l;
     debugInFilePath := debugInFilePath l;
     debugOutFilePath := debugOutFilePath l; flags := flags l |}.

Definition set_compatibility (v : option string) : Locals :=
  {| inputFilenames := inputFilenames l;
     outputFilename := outputFilename l; compatibility := v;
     mathRandomSeed := mathRandomSeed l; inputSourceMap := inputSourceMap l;
     outputSourceMap := outputSourceMap l; statsFileName := statsFileName l;
     maxStackDepth := maxStackDepth l; timeout := timeout l;
     additionalFunctions := additionalFunctions l;
     lazyObjectsRuntime := lazyObjectsRuntime l;
     heapGraphFilePath := heapGraphFilePath l;
     debugInFilePath := debugInFilePath l;
     debugOutFilePath := debugOutFilePath l; flags := flags l |}.

Definition set_mathRandomSeed (v : option string) : Locals :=
  {| inputFilenames := inputFilenames l;
     outputFilename := outputFilename l; compatibility := compatibility l;
     mathRandomSeed := v; inputSourceMap := inputSourceMap l;
     outputSourceMap := outputSourceMap l; statsFileName := statsFileName l;
     maxStackDepth := maxStackDepth l; timeout := timeout l;
     additionalFunctions := additionalFunctions l;
     lazyObjectsRuntime := lazyObjectsRuntime l;
     heapGraphFilePath := heapGraphFilePath l;
     debugInFilePath := debugInFilePath l;
     debugOutFilePath := debugOutFilePath l; flags := flags l |}.

Definition set_inputSourceMap (v : option string) : Locals :=
  {| inputFilenames := inputFilenames l;
     outputFilename := outputFilename l; compatibility := compatibility l;
     mathRandomSeed := mathRandomSeed l; inputSourceMap := v;
     outputSourceMap := outputSourceMap l; statsFileName := statsFileName l;
     maxStackDepth := maxStackDepth l; timeout := timeout l;
     additionalFunctions := additionalFunctions l;
     lazyObjectsRuntime := lazyObjectsRuntime l;
     heapGraphFilePath := heapGraphFilePath l;
     debugInFilePath := debugInFilePath l;
     debugOutFilePath := debugOutFilePath l; flags := flags l |}.

Definition set_outputSourceMap (v : option string) : Locals :=
  {| inputFilenames := inputFilenames l;
     outputFilename := outputFilename l; compatibility := compatibility l;
     mathRandomSeed := mathRandomSeed l; inputSourceMap := inputSourceMap l;
     outputSourceMap := v; statsFileName := statsFileName l;
     maxStackDepth := maxStackDepth l; timeout := timeout l;
     additionalFunctions := additionalFunctions l;
     lazyObjectsRuntime := lazyObjectsRuntime l;
     heapGraphFilePath := heapGraphFilePath l;
     debugInFilePath := debugInFilePath l;
     debugOutFilePath := debugOutFilePath l; flags := flags l |}.

Definition set_statsFileName (v : option string) : Locals :=
  {| inputFilenames := inputFilenames l;
     outputFilename := outputFilename l; compatibility := compatibility l;
     mathRandomSeed := mathRandomSeed l; inputSourceMap := inputSourceMap l;
     outputSourceMap := outputSourceMap l; statsFileName := v;
     maxStackDepth := maxStackDepth l; timeout := timeout l;
     additionalFunctions := additionalFunctions l;
     lazyObjectsRuntime := lazyObjectsRuntime l;
     heapGraphFilePath := heapGraphFilePath l;
     debugInFilePath := debugInFilePath l;
     debugOutFilePath := debugOutFilePath l; flags := flags l |}.

Definition set_maxStackDepth (v : option JS.Number) : Locals :=
  {| inputFilenames := inputFilenames l;
     outputFilename := outputFilename l; compatibility := compatibility l;
     mathRandomSeed := mathRandomSeed l; inputSourceMap := inputSourceMap l;
     outputSourceMap := outputSourceMap l; statsFileName := statsFileName l;
     maxStackDepth := v; timeout := timeout l;
     additionalFunctions := additionalFunctions l;
     lazyObjectsRuntime := lazyObjectsRuntime l;
     heapGraphFilePath := heapGraphFilePath l;
     debugInFilePath := debugInFilePath l;
     debugOutFilePath := debugOutFilePath l; flags := flags l |}.

Definition set_timeout (v : option JS.Number) : Locals :=
  {| inputFilenames := inputFilenames l;
     outputFilename := outputFilename l; compatibility := compatibility l;
     mathRandomSeed := mathRandomSeed l; inputSourceMap := inputSourceMap l;
     outputSourceMap := outputSourceMap l; statsFileName := statsFileName l;
     maxStackDepth := maxStackDepth l; timeout := v;
     additionalFunctions := additionalFunctions l;
     lazyObjectsRuntime := lazyObjectsRuntime l;
     heapGraphFilePath := heapGraphFilePath l;
     debugInFilePath := debugInFilePath l;
     debugOutFilePath := debugOutFilePath l; flags := flags l |}.

Definition set_additionalFunctions (v : option (list string)) : Locals :=
  {| inputFilenames := inputFilenames l;
     outputFilename := outputFilename l; compatibility := compatibility l;
     mathRandomSeed := mathRandomSeed l; inputSourceMap := inputSourceMap l;
     outputSourceMap := outputSourceMap l; statsFileName := statsFileName l;
     maxStackDepth := maxStackDepth l; timeout := timeout l;
     additionalFunctions := v;
     lazyObjectsRuntime := lazyObjectsRuntime l;
     heapGraphFilePath := heapGraphFilePath l;
     debugInFilePath := debugInFilePath l;
     debugOutFilePath := debugOutFilePath l; flags := flags l |}.

Definition set_lazyObjectsRuntime (v : option string) : Locals :=
  {| inputFilenames := inputFilenames l;
     outputFilename := outputFilename l; compatibility := compatibility l;
     mathRandomSeed := mathRandomSeed l; inputSourceMap := inputSourceMap l;
     outputSourceMap := outputSourceMap l; statsFileName := statsFileName l;
     maxStackDepth := maxStackDepth l; timeout := timeout l;
     additionalFunctions := additionalFunctions l;
     lazyObjectsRuntime := v;
     heapGraphFilePath := heapGraphFilePath l;
     debugInFilePath := debugInFilePath l;
     debugOutFilePath := debugOutFilePath l; flags := flags l |}.

Definition set_heapGraphFilePath (v : option string) : Locals :=
  {| inputFilenames := inputFilenames l;
     outputFilename := outputFilename l; compatibility := compatibility l;
     mathRandomSeed := mathRandomSeed l; inputSourceMap := inputSourceMap l;
     outputSourceMap := outputSourceMap l; statsFileName := statsFileName l;
     maxStackDepth := maxStackDepth l; timeout := timeout l;
     additionalFunctions := additionalFunctions l;
     lazyObjectsRuntime := lazyObjectsRuntime l;
     heapGraphFilePath := v;
     debugInFilePath := debugInFilePath l;
     debugOutFilePath := debugOutFilePath l; flags := flags l |}.

Definition set_debugInFilePath (v : option string) : Locals :=
  {| inputFilenames := inputFilenames l;
     outputFilename := outputFilename l; compatibility := compatibility l;
     mathRandomSeed := mathRandomSeed l; inputSourceMap := inputSourceMap l;
     outputSourceMap := outputSourceMap l; statsFileName := statsFileName l;
     maxStackDepth := maxStackDepth l; timeout := timeout l;
     additionalFunctions := additionalFunctions l;
     lazyObjectsRuntime := lazyObjectsRuntime l;
     heapGraphFilePath := heapGraphFilePath l;
     debugInFilePath := v;
     debugOutFilePath := debugOutFilePath l; flags := flags l |}.

Definition set_debugOutFilePath (v : option string) : Locals :=
  {| inputFilenames := inputFilenames l;
     outputFilename := outputFilename l; compatibility := compatibility l;
     mathRandomSeed := mathRandomSeed l; inputSourceMap := inputSourceMap l;
     outputSourceMap := outputSourceMap l; statsFileName := statsFileName l;
     maxStackDepth := maxStackDepth l; timeout := timeout l;
     additionalFunctions := additionalFunctions l;
     lazyObjectsRuntime := lazyObjectsRuntime l;
     heapGraphFilePath := heapGraphFilePath l;
     debugInFilePath := debugInFilePath l;
     debugOutFilePath := v; flags := flags l |}.

Definition set_flags (v : Flags) : Locals :=
  {| inputFilenames := inputFilenames l;
     outputFilename := outputFilename l; compatibility := compatibility l;
     mathRandomSeed := mathRandomSeed l; inputSourceMap := inputSourceMap l;
     outputSourceMap := outputSourceMap l; statsFileName := statsFileName l;
     maxStackDepth := maxStackDepth l; timeout := timeout l;
     additionalFunctions := additionalFunctions l;
     lazyObjectsRuntime := lazyObjectsRuntime l;
     heapGraphFilePath := heapGraphFilePath l;
     debugInFilePath := debugInFilePath l;
     debugOutFilePath := debugOutFilePath l; flags := v |}.
End LocalsUpdate.

(** *** The options object handed to the engine

    [Object.assign({}, {...}, flags)]: the named fields, then every own
    property of [flags] (none of which can carry the name of a named
    field, since the argument loop handles those names before it looks at
    [flags]).  The [errorHandler] field is the diagnostic callback
    below. *)
Record Options : Type := {
  opt_compatibility : option string;
  opt_mathRandomSeed : option string;
  opt_inputSourceMapFilename : option string;
  opt_sourceMaps : bool;
  opt_maxStackDepth : option JS.Number;
  opt_timeout : option JS.Number;
  opt_additionalFunctions : option (list string);
  opt_lazyObjectsRuntime : option string;
  opt_heapGraphFormat : string;
  opt_debugInFilePath : option string;
  opt_debugOutFilePath : option string;
  opt_flags : Flags
}.

(** ** The outside world *)

(** Data handed to [fs.writeFileSync]: plain text, or the JSON text of the
    statistics record (the serializer and timing statistics of the result
    together with the host's heap statistics). *)
Inductive FileData : Type :=
| Text (s : string)
| StatsRecord (SerializerStatistics TimingStatistics : string).

(** One run of the file-mode entry point: the diagnostics it hands to the
    callback, in order, and how it ends. *)
Inductive EngineOutcome : Type :=
| Returns (serialized : option Serialized)
| Raises (err : JSError).

Record EngineRun : Type := {
  reported : list CompilerDiagnostic;
  outcome : EngineOutcome
}.

(** One run of the stream-mode entry point: the diagnostics reported
    before [prepackStdin] returns, those reported afterwards, and the two
    arguments of the single call of the completion callback. *)
Record StreamRun : Type := {
  reported_early : list CompilerDiagnostic;
  reported_late : list CompilerDiagnostic;
  completion_err : option JSError;
  completion_result : option Serialized
}.

(** What [run] receives from its environment. *)
Record Host : Type := {
  CompatibilityValues : list string;
  version : string;
  prepackFileSync : list string -> Options -> EngineRun;
  prepackStdin : Options -> StreamRun
}.

Inductive Event : Type :=
| ConsoleLog (s : string)
| ConsoleError (s : string)
| ConsoleErrorStack (e : JSError)
| ConsoleErrorValue (e : JSError)
| WriteFileSync (path : string) (data : FileData)
| CallPrepackStdin (o : Options)
| CallPrepackFileSync (files : list string) (o : Options).

(** The [errors] map: insertion-ordered, keyed by the identity of the
    location object. *)
Definition DiagnosticStore : Type := list (SourceLocation * CompilerDiagnostic).

Fixpoint Map_set (k : SourceLocation) (v : CompilerDiagnostic)
    (m : DiagnosticStore) : DiagnosticStore :=
  match m with
  | [] => [(k, v)]
  | (k', v') :: r =>
      if Nat.eqb (loc_ref k) (loc_ref k') then (k', v) :: r
      else (k', v') :: Map_set k v r
  end.

Fixpoint Map_get (k : SourceLocation) (m : DiagnosticStore)
    : option CompilerDiagnostic :=
  match m with
  | [] => None
  | (k', v') :: r =>
      if Nat.eqb (loc_ref k) (loc_ref k') then Some v' else Map_get k r
  end.

(** The state a run threads: the [errors] map, what was emitted so far,
    and the stream-mode call still outstanding with the event loop, if
    any: the options it was started with and the variables captured by
    its completion callback [processSerializedCode]. *)
Record World : Type := {
  errors : DiagnosticStore;
  trace : list Event;
  pending : option (Locals * Options)
}.

Definition initial_world : World :=
  {| errors := []; trace := []; pending := None |}.

(** ** Completions and the monad of effects *)

Inductive RetVal : Type :=
| RUndefined
| RTrue.

Inductive Completion (A : Type) : Type :=
| Normal (a : A)
| Return (v : RetVal)
| Throw (e : JSError)
| ProcessExit (exit_code : Z).

Arguments Normal {A} a.
Arguments Return {A} v.
Arguments Throw {A} e.
Arguments ProcessExit {A} exit_code.

Definition M (A : Type) : Type := World -> Completion A * World.

Definition ret {A} (a : A) : M A := fun w => (Normal a, w).

Definition bind {A B} (c : M A) (k : A -> M B) : M B :=
  fun w =>
    match c w with
    | (Normal a, w') => k a w'
    | (Return v, w') => (Return v, w')
    | (Throw e, w') => (Throw e, w')
    | (ProcessExit n, w') => (ProcessExit n, w')
    end.

Declare Scope js_scope.
Delimit Scope js_scope with js.
Notation "x <- c ;; k" := (bind c (fun x => k))
  (at level 61, c at next level, right associativity) : js_scope.
Notation "c ;; k" := (bind c (fun _ => k))
  (at level 61, right associativity) : js_scope.
Local Open Scope js_scope.

Definition return_ {A} (v : RetVal) : M A := fun w => (Return v, w).
Definition throw {A} (e : JSError) : M A := fun w => (Throw e, w).
Definition process_exit {A} (n : Z) : M A := fun w => (ProcessExit n, w).

Definition emit (e : Event) : M unit :=
  fun w => (Normal tt,
            {| errors := errors w; trace := (trace w ++ [e])%list;
               pending := pending w |}).

Definition console_log (s : string) : M unit := emit (ConsoleLog s).
Definition console_error (s : string) : M unit := emit (ConsoleError s).

Definition when (b : bool) (c : M unit) : M unit :=
  if b then c else ret tt.

(** A function call: [return] ends the body, falling off its end yields
    [undefined]. *)
Definition call (body : M unit) : M RetVal :=
  fun w =>
    match body w with
    | (Normal _, w') => (Normal RUndefined, w')
    | (Return v, w') => (Normal v, w')
    | (Throw e, w') => (Throw e, w')
    | (ProcessExit n, w') => (ProcessExit n, w')
    end.

(** The [finally] block runs after a normal, returning or throwing
    completion and replaces it only when it is abrupt itself. *)
Definition finally_ {A} (r : Completion A) (fin : M unit) : M A :=
  fun w =>
    match fin w with
    | (Normal _, w') => (r, w')
    | (Return v, w') => (Return v, w')
    | (Throw e, w') => (Throw e, w')
    | (ProcessExit n, w') => (ProcessExit n, w')
    end.

(** [try { body } catch (err) { handler } finally { fin }].  Once the
    process has exited nothing more runs. *)
Definition try_catch_finally {A} (body : M A) (handler : JSError -> M A)
    (fin : M unit) : M A :=
  fun w =>
    match body w with
    | (ProcessExit n, w1) => (ProcessExit n, w1)
    | (Throw e, w1) =>
        match handler e w1 with
        | (ProcessExit n, w2) => (ProcessExit n, w2)
        | (r, w2) => finally_ r fin w2
        end
    | (r, w1) => finally_ r fin w1
    end.

(** Modelled from the spec: the [invariant] helper of [./invariant], which
    is not part of the sources at hand; a violated contract "must halt
    with a loud internal-consistency failure", i.e. an error is thrown. *)
Definition invariant (condition : bool) (format : string) : M unit :=
  if condition then ret tt else throw (InvariantViolation format).

(** ** The closures of [run] *)

Section Run.

Variable host : Host.

Definition newline : string := String (ascii_of_nat 10) EmptyString.
Definition dquote : string := String (ascii_of_nat 34) EmptyString.

Definition HELP_STR : string :=
  "
    input                    The name of the file to run Prepack over (for web please provide the single js bundle file)
    --out                    The name of the output file
    --compatibility          The target environment for Prepack [" ++
  JS.join ", " (List.map (fun v => dquote ++ v ++ dquote)
                         (CompatibilityValues host)) ++
  "]
    --mathRandomSeed         If you want Prepack to evaluate Math.random() calls, please provide a seed.
    --srcmapIn               The input sourcemap filename. If present, Prepack will output a sourcemap that maps from
                             the original file (pre-input sourcemap) to Prepack's output
    --srcmapOut              The output sourcemap filename.
    --maxStackDepth          Specify the maximum call stack depth.
    --timeout                The amount of time in seconds until Prepack should time out.
    --additionalFunctions    Additional functions that should be prepacked (comma separated).
    --abstractEffectsInAdditionalFunctions Experimental flag to allow abstract effectful function calls.
    --lazyObjectsRuntime     Enable lazy objects feature and specify the JS runtime that support this feature.
    --debugNames             Changes the output of Prepack so that for named functions and variables that get emitted into
                             Prepack's output, the original name is appended as a suffix to Prepack's generated identifier.
    --speculate              Enable speculative initialization of modules (for the module system Prepack has builtin
                             knowledge about). Prepack will try to execute all factory functions it is able to.
    --trace                  Traces the order of module initialization.
    --serialize              Serializes the partially evaluated global environment as a program that recreates it.
                             (default = true)
    --check                  Check whole program for diagnostic messages. Do not serialize or produce residual code.
    --residual               Produces the residual program that results after constant folding.
    --profile                Enables console logging of profile information of different phases of prepack.
    --statsFile              The name of the output file where statistics will be written to.
    --heapGraphFilePath      The name of the output file where heap graph will be written to.
    --inlineExpressions      When generating code, tells prepack to avoid naming expressions when they are only used once,
                             and instead inline them where they are used.
    --simpleClosures         When generating code, tells prepack to not defer initializing closures
    --omitInvariants         When generating code, tells prepack to omit writing invariants. (Invariants generated by default.)
    --version                Output the version number.
  ".

Definition usage_line : string :=
  "Usage: prepack.js [ -- | input.js ] [ --out output.js ] [ --compatibility jsc ] [ --mathRandomSeed seedvalue ] [ --srcmapIn inputMap ] [ --srcmapOut outputMap ] [ --maxStackDepth depthValue ] [ --timeout seconds ] [ --additionalFunctions fnc1,fnc2,... ] [ --lazyObjectsRuntime lazyObjectsRuntimeName] [ --heapGraphFilePath heapGraphFilePath]".

(** *** The argument loop (lines 108-191) *)

(** [args.shift()] *)
Definition shift (args : list string) : option string * list string :=
  match args with
  | [] => (None, [])
  | a :: r => (Some a, r)
  end.

(** The [switch (arg)] of the loop body; yields the remaining arguments
    and the updated variables. *)
Definition option_case (arg : string) (args : list string) (l : Locals)
    : M (list string * Locals) :=
  if String.eqb arg "out" then
    let '(v, args) := shift args in
    ret (args, set_outputFilename l v)
  else if String.eqb arg "compatibility" then
    let '(v, args) := shift args in
    when (negb (JS.includes (CompatibilityValues host) v))
      (console_error ("Unsupported compatibility: " ++ JS.show_opt v) ;;
       process_exit 1) ;;
    ret (args, set_compatibility l v)
  else if String.eqb arg "mathRandomSeed" then
    let '(v, args) := shift args in
    ret (args, set_mathRandomSeed l v)
  else if String.eqb arg "srcmapIn" then
    let '(v, args) := shift args in
    ret (args, set_inputSourceMap l v)
  else if String.eqb arg "srcmapOut" then
    let '(v, args) := shift args in
    ret (args, set_outputSourceMap l v)
  else if String.eqb arg "statsFile" then
    let '(v, args) := shift args in
    ret (args, set_statsFileName l v)
  else if String.eqb arg "maxStackDepth" then
    let '(value, args) := shift args in
    when (JS.isNaN value)
      (console_error "Stack depth value must be a number" ;;
       process_exit 1) ;;
    ret (args, set_maxStackDepth l (Some (JS.parseInt10 (JS.show_opt value))))
  else if String.eqb arg "timeout" then
    let '(seconds, args) := shift args in
    when (JS.isNaN seconds)
      (console_error "Timeout must be a number" ;;
       process_exit 1) ;;
    ret (args,
         set_timeout l
           (Some (JS.times (JS.parseInt10 (JS.show_opt seconds))
                    (JS.JSInt 1000))))
  else if String.eqb arg "additionalFunctions" then
    let '(line, args) := shift args in
    match line with
    | None => throw (TypeError "Cannot read property 'split' of undefined")
    | Some s =>
        ret (args, set_additionalFunctions l (Some (JS.split_on "," s)))
    end
  else if String.eqb arg "debugInFilePath" then
    let '(v, args) := shift args in
    ret (args, set_debugInFilePath l v)
  else if String.eqb arg "debugOutFilePath" then
    let '(v, args) := shift args in
    ret (args, set_debugOutFilePath l v)
  else if String.eqb arg "lazyObjectsRuntime" then
    let '(v, args) := shift args in
    ret (args, set_lazyObjectsRuntime l v)
  else if String.eqb arg "heapGraphFilePath" then
    let '(v, args) := shift args in
    ret (args, set_heapGraphFilePath l v)
  else if String.eqb arg "help" then
    console_log
      (usage_line ++
       JS.join " " (List.map (fun s => "[ --" ++ s ++ "]")
                             (flag_keys (flags l))) ++
       newline ++ HELP_STR) ;;
    return_ RUndefined
  else if String.eqb arg "version" then
    console_log (version host) ;;
    return_ RUndefined
  else if in_flags arg (flags l) then
    ret (args, set_flags l (assign_flag arg (flags l)))
  else
    console_error ("Unknown option: " ++ arg) ;;
    process_exit 1.

(** One turn of [while (args.length)]. *)
Definition loop_body (arg : string) (args : list string) (l : Locals)
    : M (list string * Locals) :=
  if negb (JS.startsWith "--" arg) then
    ret (args, push_inputFilename l arg)
  else option_case (JS.slice 2 arg) args l.

(** The loop, with one unit of fuel per turn; every turn removes at
    least one argument, so [length args] units are enough
    (see [arg_loop_fuel_irrelevant] and [arg_loop_unfold]). *)
Fixpoint arg_loop (fuel : nat) (args : list string) (l : Locals)
    : M Locals :=
  match args, fuel with
  | [], _ => ret l
  | _ :: _, O => ret l
  | arg :: rest, S fuel' =>
      r <- loop_body arg rest l ;;
      arg_loop fuel' (fst r) (snd r)
  end.

Definition parse_args (args : list string) : M Locals :=
  arg_loop (length args) args initial_locals.

(** *** Mode defaults and the options object (lines 192-215) *)

Definition normalize_modes (f : Flags) : Flags :=
  let f1 :=
    if negb (flag_on "serialize" f) && negb (flag_on "residual" f)
    then put_flag "serialize" (FBool true) f
    else f in
  if flag_on "check" f1
  then put_flag "residual" (FBool false)
         (put_flag "serialize" (FBool false) f1)
  else f1.

Definition resolvedOptions (l : Locals) : Options :=
  {| opt_compatibility := compatibility l;
     opt_mathRandomSeed := mathRandomSeed l;
     opt_inputSourceMapFilename := inputSourceMap l;
     opt_sourceMaps := JS.truthy_str (outputSourceMap l);
     opt_maxStackDepth := maxStackDepth l;
     opt_timeout := timeout l;
     opt_additionalFunctions := additionalFunctions l;
     opt_lazyObjectsRuntime := lazyObjectsRuntime l;
     opt_heapGraphFormat := "DotLanguage";
     opt_debugInFilePath := debugInFilePath l;
     opt_debugOutFilePath := debugOutFilePath l;
     opt_flags := flags l |}.

(** The condition of the [if] at lines 216-219. *)
Definition lazy_objects_conflict (l : Locals) (o : Options) : bool :=
  JS.truthy_str (lazyObjectsRuntime l) &&
  (match opt_additionalFunctions o with Some _ => true | None => false end
   || flag_on "delayInitializations" (opt_flags o)
   || flag_on "inlineExpressions" (opt_flags o)).

(** *** The diagnostic callback (lines 226-230) *)

Definition errorHandler (diagnostic : CompilerDiagnostic)
    : M ErrorHandlerResult :=
  fun w =>
    (Normal Recover,
     match location diagnostic with
     | Some loc =>
         {| errors := Map_set loc diagnostic (errors w);
            trace := trace w; pending := pending w |}
     | None => w
     end).

(** The engine calling the callback once per diagnostic. *)
Fixpoint report_all (ds : list CompilerDiagnostic) : M unit :=
  match ds with
  | [] => ret tt
  | d :: r => errorHandler d ;; report_all r
  end.

(** *** [printDiagnostics] (lines 232-263) *)

Definition sourceMessage (loc : SourceLocation) : string :=
  match loc_source loc with
  | Some s =>
      if String.eqb s "" then "In an unknown source file"
      else if String.eqb s "no-filename-specified" then "In stdin"
      else "In input file " ++ s
  | None => "In input file "
  end.

Definition diagnostic_line (loc : SourceLocation)
    (error : CompilerDiagnostic) : string :=
  sourceMessage loc ++ "(" ++ JS.string_of_nat (loc_line loc) ++ ":" ++
  JS.string_of_nat (loc_column loc + 1) ++ ") " ++
  severity_text (severity error) ++ " " ++ errorCode error ++ ": " ++
  message error ++
  " (https://github.com/facebook/prepack/wiki/" ++ errorCode error ++ ")".

(** The [for ... of errors] loop, with the running [foundFatal]. *)
Fixpoint print_entries (foundFatal : bool) (es : DiagnosticStore)
    : M bool :=
  match es with
  | [] => ret foundFatal
  | (loc, error) :: r =>
      let foundFatal' :=
        (foundFatal || is_fatal_severity (severity error))%bool in
      console_error (diagnostic_line loc error) ;;
      when foundFatal' (console_error (JS.or_empty (callStack error))) ;;
      print_entries foundFatal' r
  end.

Definition printDiagnostics : M bool :=
  fun w =>
    match errors w with
    | [] => ret false w
    | es => (console_error "Errors found while prepacking" ;;
             print_entries false es) w
    end.

(** *** [processSerializedCode] (lines 287-331) *)

Definition FatalError_contract : string :=
  "FatalError must generate at least one CompilerDiagnostic".

Definition store_nonempty : M bool :=
  fun w => (Normal (negb (Nat.eqb (length (errors w)) 0)), w).

(** The block guarded by [if (serialized)] (lines 301-330). *)
Definition write_result (l : Locals) (serialized : option Serialized)
    : M unit :=
  match serialized with
  | None => ret tt
  | Some s =>
      when (String.eqb (code s) "")
        (console_error "Prepack returned empty code." ;;
         return_ RUndefined) ;;
      match outputFilename l with
      | Some out =>
          if JS.truthy_str (Some out) then
            console_log ("Prepacked source code written to " ++ out ++ ".") ;;
            emit (WriteFileSync out (Text (code s)))
          else console_log (code s)
      | None => console_log (code s)
      end ;;
      match statsFileName l with
      | Some stats_path =>
          when (JS.truthy_str (Some stats_path))
            match statistics s, timingStats s with
            | Some st, Some tm =>
                emit (WriteFileSync stats_path (StatsRecord st tm))
            | _, _ => return_ RUndefined
            end
      | None => ret tt
      end ;;
      match outputSourceMap l with
      | Some map_path =>
          when (JS.truthy_str (Some map_path))
            (emit (WriteFileSync map_path (Text (JS.or_empty (map s)))))
      | None => ret tt
      end ;;
      match heapGraphFilePath l with
      | Some graph_path =>
          when (JS.truthy_str (Some graph_path))
            (invariant (JS.truthy_str (heapGraph s)) "" ;;
             emit (WriteFileSync graph_path
                     (Text (JS.or_empty (heapGraph s)))))
      | None => ret tt
      end
  end.

Definition processSerializedCode (l : Locals) (err : option JSError)
    (serialized : option Serialized) : M unit :=
  match err with
  | Some e =>
      when (instanceof_FatalError e)
        (nonempty <- store_nonempty ;;
         invariant nonempty FatalError_contract) ;;
      when (negb (instanceof_FatalError e))
        (printDiagnostics ;;
         emit (ConsoleErrorValue e) ;;
         process_exit 1)
  | None => ret tt
  end ;;
  foundFatal <- printDiagnostics ;;
  when foundFatal (process_exit 1) ;;
  write_result l serialized.

(** *** The engine's two entry points, seen from the CLI *)

Definition call_prepackFileSync (files : list string) (o : Options)
    : M (option Serialized) :=
  emit (CallPrepackFileSync files o) ;;
  report_all (reported (prepackFileSync host files o)) ;;
  match outcome (prepackFileSync host files o) with
  | Returns s => ret s
  | Raises e => throw e
  end.

Definition call_prepackStdin (l : Locals) (o : Options) : M unit :=
  emit (CallPrepackStdin o) ;;
  report_all (reported_early (prepackStdin host o)) ;;
  fun w =>
    (Normal tt,
     {| errors := errors w; trace := trace w;
        pending := Some (l, o) |}).

(** *** [run] (lines 26-334) *)

Definition run_try (l : Locals) (o : Options) : M unit :=
  if Nat.eqb (length (inputFilenames l)) 0 then
    call_prepackStdin l o ;;
    return_ RUndefined
  else
    serialized <- call_prepackFileSync (inputFilenames l) o ;;
    call (processSerializedCode l None serialized) ;;
    ret tt.

Definition run_catch (err : JSError) : M unit :=
  if instanceof_FatalError err then
    nonempty <- store_nonempty ;;
    invariant nonempty FatalError_contract
  else
    printDiagnostics ;;
    emit (ConsoleErrorStack err) ;;
    process_exit 1.

Definition run_finally : M unit :=
  foundFatal <- printDiagnostics ;;
  when foundFatal (process_exit 1).

(** The variables once lines 192-196 have adjusted [flags]. *)
Definition resolve_modes (l0 : Locals) : Locals :=
  set_flags l0 (normalize_modes (flags l0)).

(** Everything after the argument loop. *)
Definition run_parsed (l0 : Locals) : M unit :=
  let l := resolve_modes l0 in
  let o := resolvedOptions l in
  when (lazy_objects_conflict l o)
    (console_error
       "lazy objects feature is incompatible with additionalFunctions, delayInitializations and inlineExpressions options" ;;
     process_exit 1) ;;
  try_catch_finally (run_try l o) run_catch run_finally ;;
  return_ RTrue.

Definition run_body (argv : list string) : M unit :=
  l0 <- parse_args (skipn 2 argv) ;;
  run_parsed l0.

Definition run (argv : list string) : M RetVal := call (run_body argv).

(** *** The whole process: [run], then the event loop delivering the
    completion of a stream-mode call, if one is outstanding *)

Definition completion_callback (l : Locals) (sr : StreamRun) : M RetVal :=
  report_all (reported_late sr) ;;
  call (processSerializedCode l (completion_err sr) (completion_result sr)).

Definition event_loop (r : Completion RetVal * World)
    : Completion RetVal * World :=
  match r with
  | (Normal v, w) =>
      match pending w with
      | Some (l, o) =>
          completion_callback l (prepackStdin host o)
            {| errors := errors w; trace := trace w; pending := None |}
      | None => (Normal v, w)
      end
  | other => other
  end.

Definition main (argv : list string) : Completion RetVal * World :=
  event_loop (run argv initial_world).

End Run.

(** ** Observations on a trace *)

(** The options of every engine invocation, in order. *)
Fixpoint engine_calls (t : list Event) : list Options :=
  match t with
  | [] => []
  | CallPrepackStdin o :: r => o :: engine_calls r
  | CallPrepackFileSync _ o :: r => o :: engine_calls r
  | _ :: r => engine_calls r
  end.

(** The paths written through [fs.writeFileSync], in order. *)
Fixpoint written_paths (t : list Event) : list string :=
  match t with
  | [] => []
  | WriteFileSync p _ :: r => p :: written_paths r
  | _ :: r => written_paths r
  end.

(** How many times the diagnostic listing was started. *)
Fixpoint listings (t : list Event) : nat :=
  match t with
  | [] => 0
  | ConsoleError s :: r =>
      if String.eqb s "Errors found while prepacking" then S (listings r)
      else listings r
  | _ :: r => listings r
  end.

(** The exit status the operating system sees. *)
Definition exit_status (c : Completion RetVal) : Z :=
  match c with
  | Normal _ => 0
  | Return _ => 0
  | Throw _ => 1
  | ProcessExit n => n
  end.

(** ** Sample hosts and runs *)

Definition sample_result : Serialized :=
  {| code := "var x = 1;"; map := Some "{}"; statistics := None;
     timingStats := None; heapGraph := Some "digraph{}" |}.

Definition sample_location : SourceLocation :=
  {| loc_ref := 1; loc_source := Some "in.js"; loc_line := 3;
     loc_column := 4 |}.

Definition sample_warning : CompilerDiagnostic :=
  {| location := Some sample_location; severity := Warning;
     errorCode := "PP0023"; message := "possible throw";
     callStack := None |}.

(** An engine that reports [ds] and then hands back [r], in either mode. *)
Definition quiet_host (ds : list CompilerDiagnostic) (r : EngineOutcome)
    : Host :=
  {| CompatibilityValues :=
       ["browser"; "jsc-600-1-4-17"; "node-source-maps"; "node-cli"];
     version := "0.2.0";
     prepackFileSync := fun _ _ => {| reported := ds; outcome := r |};
     prepackStdin := fun _ =>
       {| reported_early := []; reported_late := ds;
          completion_err :=
            match r with Raises e => Some e | Returns _ => None end;
          completion_result :=
            match r with Raises _ => None | Returns s => s end |} |}.


Definition sample_error : CompilerDiagnostic :=
  {| location := Some sample_location; severity := RecoverableError;
     errorCode := "PP0004"; message := "might be undefined";
     callStack := Some "at f (in.js:3:4)" |}.

Definition unlocated_fatal : CompilerDiagnostic :=
  {| location := None; severity := FatalErrorSeverity;
     errorCode := "PP1000"; message := "no location";
     callStack := None |}.

Definition empty_result : Serialized :=
  {| code := ""; map := None; statistics := None; timingStats := None;
     heapGraph := None |}.

(** The variables the argument loop leaves for a command line it accepts
    (the initial ones otherwise). *)
Definition parsed (h : Host) (argv : list string) : Locals :=
  match fst (parse_args h (skipn 2 argv) initial_world) with
  | Normal l => l
  | _ => initial_locals
  end.

Definition succeeding_host : Host :=
  quiet_host [] (Returns (Some sample_result)).

Definition warning_host : Host :=
  quiet_host [sample_warning] (Returns (Some sample_result)).

Definition fatal_without_diagnostic_host : Host :=
  quiet_host [] (Raises (FatalError "unrecoverable")).

Definition empty_code_host : Host :=
  quiet_host [sample_warning] (Returns (Some empty_result)).

Definition argv_file : list string := ["node"; "prepack.js"; "in.js"].

Definition argv_stdin : list string := ["node"; "prepack.js"].

Definition argv_both_modes : list string :=
  ["node"; "prepack.js"; "--serialize"; "--residual"; "in.js"].

Definition argv_lazy_conflict : list string :=
  ["node"; "prepack.js"; "--lazyObjectsRuntime"; "LazyObjectsRuntime";
   "--additionalFunctions"; "a,b"; "in.js"].


Definition argv_all_outputs : list string :=
  ["node"; "prepack.js"; "in.js"; "--out"; "out.js";
   "--statsFile"; "stats.json"; "--srcmapOut"; "out.map";
   "--heapGraphFilePath"; "heap.dot"].

Definition argv_outputs_without_stats : list string :=
  ["node"; "prepack.js"; "in.js"; "--out"; "out.js";
   "--srcmapOut"; "out.map"; "--heapGraphFilePath"; "heap.dot"].


(** ** Specification functions *)

(** The [errors] map after the engine has reported [ds] on top of [m]. *)
Fixpoint collect (ds : list CompilerDiagnostic) (m : DiagnosticStore)
    : DiagnosticStore :=
  match ds with
  | [] => m
  | d :: r =>
      collect r
        match location d with
        | Some loc => Map_set loc d m
        | None => m
        end
  end.

(** Whether some stored diagnostic has the fatal severity. *)
Definition has_fatal (m : DiagnosticStore) : bool :=
  existsb (fun e => is_fatal_severity (severity (snd e))) m.

(** What the [for ... of errors] loop prints. *)
Fixpoint listing (foundFatal : bool) (es : DiagnosticStore) : list Event :=
  match es with
  | [] => []
  | (loc, error) :: r =>
      let foundFatal' :=
        (foundFatal || is_fatal_severity (severity error))%bool in
      (ConsoleError (diagnostic_line loc error)
       :: (if foundFatal'
           then [ConsoleError (JS.or_empty (callStack error))]
           else [])
       ++ listing foundFatal' r)%list
  end.

(** What one call of [printDiagnostics] prints. *)
Definition diagnostics_output (m : DiagnosticStore) : list Event :=
  match m with
  | [] => []
  | _ => ConsoleError "Errors found while prepacking" :: listing false m
  end.

Definition add_trace (w : World) (evs : list Event) : World :=
  {| errors := errors w; trace := (trace w ++ evs)%list;
     pending := pending w |}.

Definition set_errors (w : World) (m : DiagnosticStore) : World :=
  {| errors := m; trace := trace w; pending := pending w |}.

(** The entries of the map stored under the identity of [loc]. *)
Definition entries_at (loc : SourceLocation) (m : DiagnosticStore)
    : DiagnosticStore :=
  filter (fun e => Nat.eqb (loc_ref (fst e)) (loc_ref loc)) m.

(** Whether a diagnostic was reported at the location object [loc]. *)
Definition reported_at (loc : SourceLocation) (d : CompilerDiagnostic)
    : bool :=
  match location d with
  | Some loc' => Nat.eqb (loc_ref loc') (loc_ref loc)
  | None => false
  end.

(** Whether a diagnostic carries a location. *)
Definition located (d : CompilerDiagnostic) : bool :=
  match location d with
  | Some _ => true
  | None => false
  end.

(** The host whose engine keeps the diagnostics without a location to
    itself. *)
Definition located_only (h : Host) : Host :=
  {| CompatibilityValues := CompatibilityValues h;
     version := version h;
     prepackFileSync := fun files o =>
       {| reported := filter located (reported (prepackFileSync h files o));
          outcome := outcome (prepackFileSync h files o) |};
     prepackStdin := fun o =>
       {| reported_early :=
            filter located (reported_early (prepackStdin h o));
          reported_late :=
            filter located (reported_late (prepackStdin h o));
          completion_err := completion_err (prepackStdin h o);
          completion_result := completion_result (prepackStdin h o) |} |}.

(** A computation that never calls the engine. *)
Definition quiet {A : Type} (c : M A) : Prop :=
  forall w, engine_calls (trace (snd (c w))) = engine_calls (trace w).

(** A computation that calls the engine exactly once, with [o]. *)
Definition calls_once {A : Type} (o : Options) (c : M A) : Prop :=
  forall w,
    engine_calls (trace (snd (c w))) = (engine_calls (trace w) ++ [o])%list.

(** The plain string value options, each with the variable it fills. *)
Definition plain_value_options : list (string * (Locals -> option string)) :=
  [ ("out", outputFilename);
    ("mathRandomSeed", mathRandomSeed);
    ("srcmapIn", inputSourceMap);
    ("srcmapOut", outputSourceMap);
    ("statsFile", statsFileName);
    ("debugInFilePath", debugInFilePath);
    ("debugOutFilePath", debugOutFilePath);
    ("lazyObjectsRuntime", lazyObjectsRuntime);
    ("heapGraphFilePath", heapGraphFilePath) ].

(** The invariant the specification states for the two output modes. *)
Definition exactly_one_mode_unless_check (o : Options) : bool :=
  if flag_on "check" (opt_flags o)
  then negb (flag_on "serialize" (opt_flags o))
       && negb (flag_on "residual" (opt_flags o))
  else xorb (flag_on "serialize" (opt_flags o))
            (flag_on "residual" (opt_flags o)).

(** ** Further specification functions *)

(** A token the loop takes as an input file name. *)
Definition positional (arg : string) : bool := negb (JS.startsWith "--" arg).

(** The variables after the file names [files] have been pushed. *)
Definition push_all (l : Locals) (files : list string) : Locals :=
  fold_left push_inputFilename files l.

(** The labels of the [switch] in the argument loop. *)
Definition switch_labels : list string :=
  [ "out"; "compatibility"; "mathRandomSeed"; "srcmapIn"; "srcmapOut";
    "statsFile"; "maxStackDepth"; "timeout"; "additionalFunctions";
    "debugInFilePath"; "debugOutFilePath"; "lazyObjectsRuntime";
    "heapGraphFilePath"; "help"; "version" ].

(** The ways a piece of the argument loop can end, seen from the world
    [w] it started in: silently; by [return] after one [console.log]; by
    the TypeError of [split]; or by [process.exit(1)] after one
    [console.error]. *)
Definition loop_stop_shape {A : Type} (w : World)
    (r : Completion A * World) : Prop :=
  match fst r with
  | Normal _ => snd r = w
  | Return v =>
      v = RUndefined /\ exists s, snd r = add_trace w [ConsoleLog s]
  | Throw e =>
      e = TypeError "Cannot read property 'split' of undefined"
      /\ snd r = w
  | ProcessExit n =>
      n = 1%Z /\ exists s, snd r = add_trace w [ConsoleError s]
  end.

(** The text [--help] prints when the flags object has the keys of [f]. *)
Definition help_text (h : Host) (f : Flags) : string :=
  usage_line ++
  JS.join " " (List.map (fun s => "[ --" ++ s ++ "]") (flag_keys f)) ++
  newline ++ HELP_STR h.

(** The identities of the keys of the store, in iteration order. *)
Definition store_refs (m : DiagnosticStore) : list nat :=
  List.map (fun e => loc_ref (fst e)) m.

(** The identities of the locations of a sequence of reports. *)
Definition located_refs (ds : list CompilerDiagnostic) : list nat :=
  flat_map (fun d => match location d with
                     | Some k => [loc_ref k]
                     | None => []
                     end) ds.

(** Appends an identity unless it is already listed. *)
Definition remember_ref (acc : list nat) (r : nat) : list nat :=
  if existsb (Nat.eqb r) acc then acc else (acc ++ [r])%list.

(** The paths the user asked to have written, in the order the code
    writes them: output, statistics, source map, heap graph. *)
Definition requested_paths (l : Locals) : list string :=
  flat_map (fun p => if JS.truthy_str p then [JS.or_empty p] else [])
    [outputFilename l; statsFileName l; outputSourceMap l;
     heapGraphFilePath l].

(** Console output of any kind. *)
Definition console_event (e : Event) : Prop :=
  match e with
  | ConsoleLog _ | ConsoleError _ | ConsoleErrorStack _
  | ConsoleErrorValue _ => True
  | _ => False
  end.

(** What may follow the call of the engine: console output and writes
    to the paths in [paths]. *)
Definition console_or_write (paths : list string) (e : Event) : Prop :=
  match e with
  | WriteFileSync p _ => In p paths
  | CallPrepackStdin _ | CallPrepackFileSync _ _ => False
  | _ => True
  end.

(** A computation that only appends to the trace, and only events
    satisfying [P], and leaves the outstanding callback as it is. *)
Definition emits_only {A : Type} (P : Event -> Prop) (c : M A) : Prop :=
  forall w, exists evs,
    trace (snd (c w)) = (trace w ++ evs)%list
    /\ Forall P evs
    /\ pending (snd (c w)) = pending w.

(** A computation that first emits [e] and then only events satisfying
    [P]. *)
Definition emits_first {A : Type} (e : Event) (P : Event -> Prop)
    (c : M A) : Prop :=
  forall w, exists evs,
    trace (snd (c w)) = (trace w ++ e :: evs)%list
    /\ Forall P evs
    /\ pending (snd (c w)) = pending w.

(** The single call of the engine a run makes: stream mode without file
    names, file mode with them. *)
Definition engine_call (l : Locals) : Event :=
  match inputFilenames l with
  | [] => CallPrepackStdin (resolvedOptions l)
  | files => CallPrepackFileSync files (resolvedOptions l)
  end.

(** ** Further sample data *)



Definition sample_fatal : CompilerDiagnostic :=
  {| location :=
       Some {| loc_ref := 2; loc_source := Some "";
               loc_line := 1; loc_column := 0 |};
     severity := FatalErrorSeverity;
     errorCode := "PP0001"; message := "not supported";
     callStack := Some "at g (in.js:1:0)" |}.


(** The entries of the store from the first fatal one on. *)
Fixpoint from_first_fatal (m : DiagnosticStore) : DiagnosticStore :=
  match m with
  | [] => []
  | (k, d) :: r =>
      if is_fatal_severity (severity d) then m else from_first_fatal r
  end.

(** * Properties *)

(** ** The JavaScript primitives on sample inputs *)

Example isNaN_abc : JS.isNaN (Some "abc") = true. Proof. reflexivity. Qed.
Example isNaN_12 : JS.isNaN (Some "12") = false. Proof. reflexivity. Qed.
Example isNaN_12abc : JS.isNaN (Some "12abc") = true. Proof. reflexivity. Qed.
Example isNaN_hex : JS.isNaN (Some "0x10") = false. Proof. reflexivity. Qed.
Example isNaN_frac : JS.isNaN (Some "1.5e3") = false. Proof. reflexivity. Qed.
Example isNaN_dot : JS.isNaN (Some ".") = true. Proof. reflexivity. Qed.
Example isNaN_blank : JS.isNaN (Some "") = false. Proof. reflexivity. Qed.
Example parseInt_12 : JS.parseInt10 "12" = JS.JSInt 12. Proof. reflexivity. Qed.
Example parseInt_hex : JS.parseInt10 "0x10" = JS.JSInt 0. Proof. reflexivity. Qed.
Example parseInt_neg : JS.parseInt10 " -42px" = JS.JSInt (-42). Proof. reflexivity. Qed.
Example parseInt_inf : JS.parseInt10 "Infinity" = JS.NaN. Proof. reflexivity. Qed.
Example parseInt_neg_zero : JS.parseInt10 "-0" = JS.NegZero.
Proof. reflexivity. Qed.
Example parseInt_rounds :
  JS.parseInt10 "9007199254740993" = JS.JSInt 9007199254740992.
Proof. vm_compute. reflexivity. Qed.
Example times_rounds :
  JS.times (JS.parseInt10 "72057594037929") (JS.JSInt 1000)
  = JS.JSInt 72057594037928992.
Proof. vm_compute. reflexivity. Qed.
Example times_neg_zero :
  JS.times (JS.parseInt10 "-0") (JS.JSInt 1000) = JS.NegZero.
Proof. reflexivity. Qed.
Example to_double_largest :
  JS.to_double (2 ^ 1024 - 2 ^ 970 - 1) = JS.JSInt (2 ^ 1024 - 2 ^ 971)
  /\ JS.to_double (2 ^ 1024 - 2 ^ 970) = JS.Infinity false
  /\ JS.to_double (- 2 ^ 1024) = JS.Infinity true.
Proof. vm_compute. repeat split. Qed.
Example split_ab : JS.split_on "," "a,b" = ["a"; "b"]. Proof. reflexivity. Qed.
Example split_empty : JS.split_on "," "" = [""]. Proof. reflexivity. Qed.


(** ** The argument loop terminates and is silent unless it stops the run *)

Section LoopFacts.

Variable host : Host.

Lemma shift_length (args : list string) :
  (length (snd (shift args)) <= length args)%nat.
Proof. destruct args; simpl; lia. Qed.

(** A turn that completes normally has printed nothing, has left the
    world as it was and has not lengthened the argument list. *)
Lemma option_case_normal arg args l w r w' :
  option_case host arg args l w = (Normal r, w') ->
  w' = w /\ (length (fst r) <= length args)%nat.
Proof.
  unfold option_case.
  repeat match goal with
         | |- context [if String.eqb ?a ?b then _ else _] =>
             destruct (String.eqb a b)
         end;
    try (destruct args as [|v rest]; simpl;
         unfold ret; intros H; inversion H; subst; simpl;
         (split; [reflexivity | lia])).
  - (* compatibility *)
    destruct args as [|v rest]; simpl.
    + unfold bind, when, ret, console_error, emit, process_exit; simpl.
      discriminate.
    + unfold bind, when, ret, console_error, emit, process_exit; simpl.
      destruct (existsb (String.eqb v) (CompatibilityValues host)); simpl;
        intros H; inversion H; subst; simpl; (split; [reflexivity | lia]).
  - (* maxStackDepth *)
    destruct args as [|v rest]; simpl;
      unfold bind, when, ret, console_error, emit, process_exit; simpl.
    + discriminate.
    + destruct (JS.string_is_numeric v); simpl;
        intros H; inversion H; subst; simpl; (split; [reflexivity | lia]).
  - (* timeout *)
    destruct args as [|v rest]; simpl;
      unfold bind, when, ret, console_error, emit, process_exit; simpl.
    + discriminate.
    + destruct (JS.string_is_numeric v); simpl;
        intros H; inversion H; subst; simpl; (split; [reflexivity | lia]).
  - (* a toggle, or an unknown option *)
    destruct (in_flags arg (flags l)).
    + unfold ret. intros H; inversion H; subst; simpl.
      split; [reflexivity | lia].
    + unfold bind, console_error, emit, process_exit; simpl. discriminate.
Qed.

Lemma loop_body_normal arg args l w r w' :
  loop_body host arg args l w = (Normal r, w') ->
  w' = w /\ (length (fst r) <= length args)%nat.
Proof.
  unfold loop_body.
  destruct (negb (JS.startsWith "--" arg)).
  - unfold ret. intros H; inversion H; subst; simpl. split; [reflexivity | lia].
  - apply option_case_normal.
Qed.

(** Any amount of fuel that covers the arguments gives the same run. *)
Lemma arg_loop_fuel_irrelevant (fuel1 : nat) :
  forall fuel2 args l w,
    (length args <= fuel1)%nat -> (length args <= fuel2)%nat ->
    arg_loop host fuel1 args l w = arg_loop host fuel2 args l w.
Proof.
  induction fuel1 as [|f1 IH]; intros fuel2 args l w H1 H2.
  - destruct args as [|a rest]; simpl in *; [|lia].
    destruct fuel2; reflexivity.
  - destruct args as [|a rest]; simpl in *.
    + destruct fuel2; reflexivity.
    + destruct fuel2 as [|f2]; [lia|]. simpl.
      unfold bind.
      destruct (loop_body host a rest l w) as [[r | v | e | n] w'] eqn:E;
        try reflexivity.
      apply loop_body_normal in E. destruct E as [_ Hlen].
      apply IH; lia.
Qed.

(** One turn of the [while] loop, in terms of the loop itself. *)
Lemma arg_loop_unfold arg rest l :
  forall w,
    arg_loop host (length (arg :: rest)) (arg :: rest) l w =
    bind (loop_body host arg rest l)
      (fun r => arg_loop host (length (fst r)) (fst r) (snd r)) w.
Proof.
  intros w. simpl. unfold bind.
  destruct (loop_body host arg rest l w) as [[r | v | e | n] w'] eqn:E;
    try reflexivity.
  apply loop_body_normal in E. destruct E as [_ Hlen].
  apply arg_loop_fuel_irrelevant; lia.
Qed.

Lemma arg_loop_normal (fuel : nat) :
  forall args l w l' w',
    arg_loop host fuel args l w = (Normal l', w') -> w' = w.
Proof.
  induction fuel as [|f IH]; intros args l w l' w' H.
  - destruct args; simpl in H; unfold ret in H; inversion H; reflexivity.
  - destruct args as [|a rest]; simpl in H.
    + unfold ret in H; inversion H; reflexivity.
    + unfold bind in H.
      destruct (loop_body host a rest l w) as [[r | v | e | n] w1] eqn:E;
        try discriminate.
      apply loop_body_normal in E. destruct E as [-> _].
      eapply IH; eassumption.
Qed.

Lemma parse_args_normal args w l w' :
  parse_args host args w = (Normal l, w') -> w' = w.
Proof. apply arg_loop_normal. Qed.

End LoopFacts.

(** ** The diagnostic store and its listing *)

Lemma add_trace_nil w : add_trace w [] = w.
Proof. destruct w; unfold add_trace; simpl. now rewrite app_nil_r. Qed.

Lemma add_trace_app w a b :
  add_trace (add_trace w a) b = add_trace w (a ++ b)%list.
Proof. unfold add_trace; simpl. now rewrite app_assoc. Qed.

Lemma set_errors_same w : set_errors w (errors w) = w.
Proof. now destruct w. Qed.

(** The callback never fails, never prints, and always asks the engine to
    go on. *)
Lemma errorHandler_spec d w :
  errorHandler d w =
  (Normal Recover, set_errors w (collect [d] (errors w))).
Proof.
  unfold errorHandler, set_errors; simpl.
  destruct (location d); [reflexivity | now destruct w].
Qed.

Lemma report_all_spec ds :
  forall w,
    report_all ds w = (Normal tt, set_errors w (collect ds (errors w))).
Proof.
  induction ds as [|d r IH]; intros w; simpl.
  - unfold ret. now rewrite set_errors_same.
  - unfold bind. rewrite errorHandler_spec, IH. reflexivity.
Qed.

Lemma print_entries_spec es :
  forall foundFatal w,
    print_entries foundFatal es w =
    (Normal (foundFatal || has_fatal es)%bool,
     add_trace w (listing foundFatal es)).
Proof.
  induction es as [|[loc error] r IH]; intros ff w; simpl.
  - unfold ret. now rewrite orb_false_r, add_trace_nil.
  - unfold bind, console_error, emit, when; simpl.
    destruct (ff || is_fatal_severity (severity error))%bool eqn:E; simpl.
    + rewrite IH; simpl. unfold add_trace; simpl.
      rewrite <- !app_assoc. simpl.
      destruct ff; simpl in *; [reflexivity | now rewrite E].
    + rewrite IH; simpl. unfold add_trace; simpl.
      rewrite <- !app_assoc. simpl.
      apply orb_false_elim in E. destruct E as [-> ->]. reflexivity.
Qed.

Lemma printDiagnostics_spec w :
  printDiagnostics w =
  (Normal (has_fatal (errors w)),
   add_trace w (diagnostics_output (errors w))).
Proof.
  unfold printDiagnostics, diagnostics_output.
  destruct (errors w) as [|e r] eqn:E.
  - unfold ret. now rewrite add_trace_nil.
  - unfold bind, console_error, emit. cbv beta iota.
    rewrite print_entries_spec.
    unfold add_trace; cbn [errors trace pending].
    rewrite E, <- app_assoc. reflexivity.
Qed.

Lemma listing_app a :
  forall foundFatal b,
    listing foundFatal (a ++ b)%list =
    (listing foundFatal a ++ listing (foundFatal || has_fatal a) b)%list.
Proof.
  induction a as [|[loc error] r IH]; intros ff b; simpl.
  - now rewrite orb_false_r.
  - rewrite IH, orb_assoc.
    destruct (ff || is_fatal_severity (severity error))%bool; simpl;
      now rewrite <- ?app_assoc.
Qed.

Lemma written_paths_app a b :
  written_paths (a ++ b)%list = (written_paths a ++ written_paths b)%list.
Proof.
  induction a as [|e r IH]; simpl; [reflexivity|].
  destruct e; simpl; now rewrite IH.
Qed.

Lemma engine_calls_app a b :
  engine_calls (a ++ b)%list = (engine_calls a ++ engine_calls b)%list.
Proof.
  induction a as [|e r IH]; simpl; [reflexivity|].
  destruct e; simpl; now rewrite IH.
Qed.

Lemma listing_writes_nothing es :
  forall foundFatal, written_paths (listing foundFatal es) = [].
Proof.
  induction es as [|[loc error] r IH]; intros ff; simpl; [reflexivity|].
  destruct (ff || is_fatal_severity (severity error))%bool; simpl; apply IH.
Qed.

Lemma diagnostics_output_writes_nothing m :
  written_paths (diagnostics_output m) = [].
Proof.
  destruct m as [|e r]; [reflexivity|].
  unfold diagnostics_output. cbn [written_paths].
  apply listing_writes_nothing.
Qed.

(** *** Keys are unique *)

Lemma Map_set_entries_other k v loc m :
  loc_ref k <> loc_ref loc ->
  entries_at loc (Map_set k v m) = entries_at loc m.
Proof.
  intros Hne. induction m as [|[k1 v1] r IH]; simpl.
  - apply Nat.eqb_neq in Hne. now rewrite Hne.
  - destruct (Nat.eqb (loc_ref k) (loc_ref k1)) eqn:E; simpl.
    + apply Nat.eqb_eq in E.
      assert (E1 : Nat.eqb (loc_ref k1) (loc_ref loc) = false)
        by (apply Nat.eqb_neq; congruence).
      now rewrite E1.
    + now rewrite IH.
Qed.

Lemma Map_set_entries_same k v loc m :
  loc_ref k = loc_ref loc ->
  (length (entries_at loc m) <= 1)%nat ->
  exists k', entries_at loc (Map_set k v m) = [(k', v)]
             /\ loc_ref k' = loc_ref loc.
Proof.
  intros Heq. induction m as [|[k1 v1] r IH]; simpl; intros Hlen.
  - exists k. rewrite Heq, Nat.eqb_refl. auto.
  - destruct (Nat.eqb (loc_ref k) (loc_ref k1)) eqn:E; simpl.
    + apply Nat.eqb_eq in E.
      assert (E1 : Nat.eqb (loc_ref k1) (loc_ref loc) = true)
        by (apply Nat.eqb_eq; congruence).
      rewrite E1 in *. simpl in Hlen.
      destruct (entries_at loc r) eqn:Er; [|simpl in Hlen; lia].
      exists k1. split; [reflexivity | congruence].
    + assert (E1 : Nat.eqb (loc_ref k1) (loc_ref loc) = false).
      { apply Nat.eqb_neq. apply Nat.eqb_neq in E. congruence. }
      rewrite E1 in *. apply IH, Hlen.
Qed.

Lemma collect_entries_bound ds loc :
  forall m,
    (length (entries_at loc m) <= 1)%nat ->
    (length (entries_at loc (collect ds m)) <= 1)%nat.
Proof.
  induction ds as [|d r IH]; intros m Hm; simpl; [exact Hm|].
  apply IH. destruct (location d) as [k|]; [|exact Hm].
  destruct (Nat.eq_dec (loc_ref k) (loc_ref loc)) as [Heq|Hne].
  - destruct (Map_set_entries_same k d loc m Heq Hm) as [k' [-> _]].
    simpl; lia.
  - now rewrite Map_set_entries_other.
Qed.

Lemma collect_entries_unreported ds loc :
  forall m,
    existsb (reported_at loc) ds = false ->
    entries_at loc (collect ds m) = entries_at loc m.
Proof.
  induction ds as [|d r IH]; intros m H; simpl in *; [reflexivity|].
  apply orb_false_elim in H. destruct H as [Hd Hr].
  rewrite IH by exact Hr.
  unfold reported_at in Hd.
  destruct (location d) as [k|]; [|reflexivity].
  apply Map_set_entries_other. now apply Nat.eqb_neq.
Qed.

Lemma collect_app a b m : collect (a ++ b)%list m = collect b (collect a m).
Proof.
  revert m. induction a as [|d r IH]; intros m; simpl; [reflexivity|].
  apply IH.
Qed.

(** [errors.get(loc)] is the value of the first entry under the key. *)
Lemma Map_get_entries loc m :
  Map_get loc m = option_map snd (hd_error (entries_at loc m)).
Proof.
  induction m as [|[k1 v1] r IH]; simpl; [reflexivity|].
  rewrite (Nat.eqb_sym (loc_ref k1)).
  destruct (Nat.eqb (loc_ref loc) (loc_ref k1)); [reflexivity | exact IH].
Qed.

(** A store with a single entry under a key splits around that entry. *)
Lemma entries_at_single loc k v :
  forall m,
    entries_at loc m = [(k, v)] ->
    exists before after,
      m = (before ++ (k, v) :: after)%list
      /\ entries_at loc before = [] /\ entries_at loc after = [].
Proof.
  induction m as [|[k1 v1] r IH]; simpl; intros H; [discriminate|].
  destruct (Nat.eqb (loc_ref k1) (loc_ref loc)) eqn:E.
  - inversion H; subst. exists [], r. simpl. auto.
  - destruct (IH H) as [b [a [-> [Hb Ha]]]].
    exists ((k1, v1) :: b), a. simpl. rewrite E. auto.
Qed.

(** ** Diagnostics without a location *)

Lemma collect_located ds :
  forall m, collect (filter located ds) m = collect ds m.
Proof.
  induction ds as [|d r IH]; intros m; simpl; [reflexivity|].
  unfold located at 1. destruct (location d) eqn:E; simpl.
  - rewrite E. apply IH.
  - apply IH.
Qed.

Lemma report_all_located ds w :
  report_all (filter located ds) w = report_all ds w.
Proof. now rewrite !report_all_spec, collect_located. Qed.

Section LocatedOnly.

Variable host : Host.

Lemma parse_args_located_only args w :
  parse_args (located_only host) args w = parse_args host args w.
Proof. reflexivity. Qed.

Lemma call_prepackFileSync_located_only files o w :
  call_prepackFileSync (located_only host) files o w =
  call_prepackFileSync host files o w.
Proof.
  unfold call_prepackFileSync, bind.
  destruct (emit (CallPrepackFileSync files o) w) as [[[] | v | e | n] w1];
    try reflexivity.
  cbn [located_only prepackFileSync reported outcome].
  now rewrite report_all_located.
Qed.

Lemma call_prepackStdin_located_only l o w :
  call_prepackStdin (located_only host) l o w =
  call_prepackStdin host l o w.
Proof.
  unfold call_prepackStdin, bind.
  destruct (emit (CallPrepackStdin o) w) as [[[] | v | e | n] w1];
    try reflexivity.
  cbn [located_only prepackStdin reported_early].
  now rewrite report_all_located.
Qed.

Lemma run_try_located_only l o w :
  run_try (located_only host) l o w = run_try host l o w.
Proof.
  unfold run_try.
  destruct (Nat.eqb (length (inputFilenames l)) 0); unfold bind.
  - now rewrite call_prepackStdin_located_only.
  - now rewrite call_prepackFileSync_located_only.
Qed.

Lemma run_located_only argv w :
  run (located_only host) argv w = run host argv w.
Proof.
  unfold run, call, run_body, bind.
  rewrite parse_args_located_only.
  destruct (parse_args host (skipn 2 argv) w) as [[l0 | v | e | n] w1];
    try reflexivity.
  unfold run_parsed, bind.
  destruct (when _ _ w1) as [[[] | v | e | n] w2]; try reflexivity.
  unfold try_catch_finally.
  now rewrite run_try_located_only.
Qed.

Lemma completion_callback_located_only l o w :
  completion_callback l (prepackStdin (located_only host) o) w =
  completion_callback l (prepackStdin host o) w.
Proof.
  unfold completion_callback, bind.
  cbn [located_only prepackStdin reported_late completion_err
       completion_result].
  now rewrite report_all_located.
Qed.

Lemma main_located_only argv :
  main (located_only host) argv = main host argv.
Proof.
  unfold main, event_loop. rewrite run_located_only.
  destruct (run host argv initial_world) as [[v | v | e | n] w];
    try reflexivity.
  destruct (pending w) as [[l o]|]; [|reflexivity].
  apply completion_callback_located_only.
Qed.

End LocatedOnly.

(** Reduction of the projections of worlds built by the steps below. *)
Ltac world_simpl :=
  cbn [event_loop pending snd fst trace errors add_trace set_errors
       initial_world app exit_status].

(** ** The dispatcher, step by step *)

Section Dispatch.

Variable host : Host.

Lemma run_finally_spec w :
  run_finally w =
  (if has_fatal (errors w) then ProcessExit 1 else Normal tt,
   add_trace w (diagnostics_output (errors w))).
Proof.
  unfold run_finally, bind. rewrite printDiagnostics_spec.
  destruct (has_fatal (errors w)); reflexivity.
Qed.

Lemma store_nonempty_spec w :
  store_nonempty w =
  (Normal match errors w with [] => false | _ => true end, w).
Proof. unfold store_nonempty. now destruct (errors w). Qed.

(** The [catch] block on a fatal-class failure is the assertion alone. *)
Lemma run_catch_fatal msg w :
  run_catch (FatalError msg) w =
  match errors w with
  | [] => (Throw (InvariantViolation FatalError_contract), w)
  | _ => (Normal tt, w)
  end.
Proof.
  unfold run_catch, bind, instanceof_FatalError.
  rewrite store_nonempty_spec.
  now destruct (errors w).
Qed.

(** The [catch] block on any other failure lists the diagnostics, prints
    the stack and exits. *)
Lemma run_catch_other e w :
  instanceof_FatalError e = false ->
  run_catch e w =
  (ProcessExit 1,
   add_trace w (diagnostics_output (errors w) ++ [ConsoleErrorStack e])).
Proof.
  intros He. unfold run_catch, bind. rewrite He, printDiagnostics_spec.
  unfold emit, process_exit.
  now rewrite <- add_trace_app.
Qed.

Lemma call_prepackFileSync_spec files o w :
  call_prepackFileSync host files o w =
  (match outcome (prepackFileSync host files o) with
   | Returns s => Normal s
   | Raises e => Throw e
   end,
   set_errors (add_trace w [CallPrepackFileSync files o])
     (collect (reported (prepackFileSync host files o)) (errors w))).
Proof.
  unfold call_prepackFileSync, bind, emit. rewrite report_all_spec.
  now destruct (outcome (prepackFileSync host files o)).
Qed.

Lemma call_prepackStdin_spec l o w :
  call_prepackStdin host l o w =
  (Normal tt,
   {| errors := collect (reported_early (prepackStdin host o)) (errors w);
      trace := (trace w ++ [CallPrepackStdin o])%list;
      pending := Some (l, o) |}).
Proof.
  unfold call_prepackStdin, bind, emit. now rewrite report_all_spec.
Qed.

(** The head of [processSerializedCode]: the two tests on [err] and the
    listing that follows them. *)
Lemma processSerializedCode_no_error l serialized w :
  processSerializedCode l None serialized w =
  if has_fatal (errors w)
  then (ProcessExit 1, add_trace w (diagnostics_output (errors w)))
  else write_result l serialized
         (add_trace w (diagnostics_output (errors w))).
Proof.
  unfold processSerializedCode, bind, ret.
  rewrite printDiagnostics_spec.
  destruct (has_fatal (errors w)); reflexivity.
Qed.

Lemma processSerializedCode_fatal l msg serialized w :
  processSerializedCode l (Some (FatalError msg)) serialized w =
  match errors w with
  | [] => (Throw (InvariantViolation FatalError_contract), w)
  | _ =>
      if has_fatal (errors w)
      then (ProcessExit 1, add_trace w (diagnostics_output (errors w)))
      else write_result l serialized
             (add_trace w (diagnostics_output (errors w)))
  end.
Proof.
  unfold processSerializedCode, bind, instanceof_FatalError, when, negb.
  rewrite store_nonempty_spec.
  destruct (errors w) as [|e r] eqn:E; [reflexivity|].
  unfold invariant, ret.
  rewrite printDiagnostics_spec, E.
  destruct (has_fatal (e :: r)); reflexivity.
Qed.

Lemma processSerializedCode_other l e serialized w :
  instanceof_FatalError e = false ->
  processSerializedCode l (Some e) serialized w =
  (ProcessExit 1,
   add_trace w (diagnostics_output (errors w) ++ [ConsoleErrorValue e])).
Proof.
  intros He. unfold processSerializedCode, bind. rewrite He; simpl.
  rewrite printDiagnostics_spec.
  unfold emit, process_exit.
  now rewrite <- add_trace_app.
Qed.

(** After a successful argument loop the world is still the initial one
    and [main] goes on with [run_parsed]. *)
Lemma main_after_parse argv l0 :
  fst (parse_args host (skipn 2 argv) initial_world) = Normal l0 ->
  main host argv =
  event_loop host (call (run_parsed host l0) initial_world).
Proof.
  intros H. unfold main, run, run_body, call, bind.
  destruct (parse_args host (skipn 2 argv) initial_world) as [c w0] eqn:E.
  simpl in H; subst c.
  apply parse_args_normal in E. now subst w0.
Qed.

Lemma run_parsed_conflict l0 w :
  lazy_objects_conflict (resolve_modes l0)
    (resolvedOptions (resolve_modes l0)) = true ->
  run_parsed host l0 w =
  (ProcessExit 1,
   add_trace w
     [ConsoleError
        "lazy objects feature is incompatible with additionalFunctions, delayInitializations and inlineExpressions options"]).
Proof.
  intros H. unfold run_parsed, bind, when. rewrite H. reflexivity.
Qed.

Lemma run_parsed_no_conflict l0 w :
  lazy_objects_conflict (resolve_modes l0)
    (resolvedOptions (resolve_modes l0)) = false ->
  run_parsed host l0 w =
  bind (try_catch_finally
          (run_try host (resolve_modes l0)
             (resolvedOptions (resolve_modes l0)))
          run_catch run_finally)
       (fun _ => return_ RTrue) w.
Proof.
  intros H. unfold run_parsed, when. rewrite H. reflexivity.
Qed.

Lemma run_try_file l o w :
  inputFilenames l <> [] ->
  run_try host l o w =
  bind (call_prepackFileSync host (inputFilenames l) o)
    (fun serialized =>
       bind (call (processSerializedCode l None serialized))
         (fun _ => ret tt)) w.
Proof.
  intros H. unfold run_try.
  destruct (inputFilenames l); [congruence | reflexivity].
Qed.

Lemma run_try_stdin l o w :
  inputFilenames l = [] ->
  run_try host l o w =
  bind (call_prepackStdin host l o) (fun _ => return_ RUndefined) w.
Proof. intros H. unfold run_try. now rewrite H. Qed.

End Dispatch.

(** ** Fatal-class failures of the engine *)

(** C5. Whenever the engine raises a [FatalError] -- thrown out of the
    file-mode entry point, or handed to the completion callback in stream
    mode -- the program asserts that the diagnostic store holds at least
    one entry.  With an empty store the run halts with the invariant
    failure "FatalError must generate at least one CompilerDiagnostic";
    with a non-empty store the assertion passes and the run goes on to the
    listing and the fatal-severity scan. *)
Theorem C5_fatal_failure_asserts_diagnostics host argv l0 msg :
  fst (parse_args host (skipn 2 argv) initial_world) = Normal l0 ->
  let l := resolve_modes l0 in
  let o := resolvedOptions l in
  lazy_objects_conflict l o = false ->
  (inputFilenames l0 <> [] ->
   outcome (prepackFileSync host (inputFilenames l0) o)
   = Raises (FatalError msg) ->
   let store :=
     collect (reported (prepackFileSync host (inputFilenames l0) o)) [] in
   (store = [] ->
    fst (main host argv) = Throw (InvariantViolation FatalError_contract))
   /\ (store <> [] ->
       fst (main host argv) =
       if has_fatal store then ProcessExit 1 else Normal RTrue))
  /\
  (inputFilenames l0 = [] ->
   completion_err (prepackStdin host o) = Some (FatalError msg) ->
   let early := collect (reported_early (prepackStdin host o)) [] in
   let store := collect (reported_late (prepackStdin host o)) early in
   has_fatal early = false ->
   (store = [] ->
    fst (main host argv) = Throw (InvariantViolation FatalError_contract))
   /\ (store <> [] ->
       exists w,
         errors w = store /\
         main host argv =
         if has_fatal store
         then (ProcessExit 1, w)
         else call (write_result l
                      (completion_result (prepackStdin host o))) w)).
Proof.
  intros Hparse l o Hconf.
  rewrite (main_after_parse host argv Hparse).
  unfold call. rewrite (run_parsed_no_conflict host l0 _ Hconf).
  fold l o. unfold bind, try_catch_finally.
  split.
  - (* file mode *)
    intros Hfiles Hout.
    remember
      (collect (reported (prepackFileSync host (inputFilenames l0) o)) [])
      as store eqn:Estore.
    rewrite run_try_file by exact Hfiles.
    unfold bind. rewrite call_prepackFileSync_spec.
    change (inputFilenames l) with (inputFilenames l0).
    rewrite Hout. rewrite run_catch_fatal.
    cbn [errors set_errors add_trace initial_world].
    rewrite <- Estore.
    split; intros Hstore.
    + rewrite Hstore. unfold finally_. rewrite run_finally_spec.
      reflexivity.
    + destruct store as [|e r]; [congruence|].
      unfold finally_. rewrite run_finally_spec.
      cbn [errors set_errors].
      destruct (has_fatal (e :: r)); reflexivity.
  - (* stream mode *)
    intros Hfiles Herr.
    remember (collect (reported_early (prepackStdin host o)) []) as early
      eqn:Eearly.
    remember (collect (reported_late (prepackStdin host o)) early) as store
      eqn:Estore.
    intros Hearly.
    rewrite run_try_stdin by exact Hfiles.
    unfold bind. rewrite call_prepackStdin_spec.
    unfold return_, finally_. rewrite run_finally_spec.
    cbn [errors initial_world]. rewrite <- Eearly, Hearly.
    cbn [event_loop add_trace pending errors trace].
    unfold completion_callback, bind. rewrite report_all_spec.
    cbn [errors set_errors trace pending]. rewrite <- Estore.
    unfold call. rewrite Herr, processSerializedCode_fatal.
    cbn [errors set_errors].
    split; intros Hstore.
    + rewrite Hstore. reflexivity.
    + destruct store as [|e r]; [congruence|].
      eexists. split; [|destruct (has_fatal (e :: r)); reflexivity].
      reflexivity.
Qed.

(** ** The lazy-objects conflict *)

(** C6. If the resolved options carry a lazy-objects runtime name and any
    of additionalFunctions, delayInitializations or inlineExpressions is
    set as well, the program prints the conflict message and exits with
    status 1; neither entry point of the engine has been called. *)
Theorem C6_lazy_objects_conflict_stops_before_engine host argv l0 :
  fst (parse_args host (skipn 2 argv) initial_world) = Normal l0 ->
  let o := resolvedOptions (resolve_modes l0) in
  JS.truthy_str (opt_lazyObjectsRuntime o) = true ->
  (opt_additionalFunctions o <> None
   \/ flag_on "delayInitializations" (opt_flags o) = true
   \/ flag_on "inlineExpressions" (opt_flags o) = true) ->
  main host argv =
  (ProcessExit 1,
   add_trace initial_world
     [ConsoleError
        "lazy objects feature is incompatible with additionalFunctions, delayInitializations and inlineExpressions options"])
  /\ engine_calls (trace (snd (main host argv))) = []
  /\ exit_status (fst (main host argv)) <> 0%Z.
Proof.
  intros Hparse o Hlazy Hany.
  assert (Hconf : lazy_objects_conflict (resolve_modes l0) o = true).
  { unfold lazy_objects_conflict.
    change (lazyObjectsRuntime (resolve_modes l0))
      with (opt_lazyObjectsRuntime o).
    rewrite Hlazy. cbn [andb].
    destruct Hany as [H | [H | H]].
    - destruct (opt_additionalFunctions o); [reflexivity | congruence].
    - rewrite H. now rewrite orb_true_r.
    - rewrite H. now rewrite orb_true_r. }
  rewrite (main_after_parse host argv Hparse).
  unfold call. rewrite (run_parsed_conflict host l0 _ Hconf).
  cbn [event_loop]. repeat split. discriminate.
Qed.

(** ** Empty output *)

Lemma write_result_empty l s w :
  code s = "" ->
  write_result l (Some s) w =
  (Return RUndefined,
   add_trace w [ConsoleError "Prepack returned empty code."]).
Proof.
  intros H. unfold write_result, bind, when. rewrite H. reflexivity.
Qed.

(** C8. When the engine's result has empty code the program prints
    "Prepack returned empty code." and writes no file at all; unless a
    fatal-severity diagnostic is in the store (which ends the run before
    the result is looked at) the run ends normally, with exit status 0.
    In file mode and in stream mode. *)
Theorem C8_empty_code_reported_nothing_written host argv l0 s :
  fst (parse_args host (skipn 2 argv) initial_world) = Normal l0 ->
  let l := resolve_modes l0 in
  let o := resolvedOptions l in
  lazy_objects_conflict l o = false ->
  code s = "" ->
  (inputFilenames l0 <> [] ->
   outcome (prepackFileSync host (inputFilenames l0) o)
   = Returns (Some s) ->
   let store :=
     collect (reported (prepackFileSync host (inputFilenames l0) o)) [] in
   written_paths (trace (snd (main host argv))) = []
   /\ (has_fatal store = false ->
       fst (main host argv) = Normal RTrue
       /\ exit_status (fst (main host argv)) = 0%Z
       /\ trace (snd (main host argv)) =
          ([CallPrepackFileSync (inputFilenames l0) o]
           ++ diagnostics_output store
           ++ [ConsoleError "Prepack returned empty code."]
           ++ diagnostics_output store)%list))
  /\
  (inputFilenames l0 = [] ->
   completion_err (prepackStdin host o) = None ->
   completion_result (prepackStdin host o) = Some s ->
   let early := collect (reported_early (prepackStdin host o)) [] in
   let store := collect (reported_late (prepackStdin host o)) early in
   written_paths (trace (snd (main host argv))) = []
   /\ (has_fatal early = false -> has_fatal store = false ->
       fst (main host argv) = Normal RUndefined
       /\ exit_status (fst (main host argv)) = 0%Z
       /\ trace (snd (main host argv)) =
          ([CallPrepackStdin o]
           ++ diagnostics_output early
           ++ diagnostics_output store
           ++ [ConsoleError "Prepack returned empty code."])%list)).
Proof.
  intros Hparse l o Hconf Hcode.
  rewrite (main_after_parse host argv Hparse).
  unfold call. rewrite (run_parsed_no_conflict host l0 _ Hconf).
  fold l o. unfold bind, try_catch_finally.
  split.
  - (* file mode *)
    intros Hfiles Hout.
    remember
      (collect (reported (prepackFileSync host (inputFilenames l0) o)) [])
      as store eqn:Estore.
    rewrite run_try_file by exact Hfiles.
    unfold bind. rewrite call_prepackFileSync_spec.
    change (inputFilenames l) with (inputFilenames l0).
    rewrite Hout. unfold call. rewrite processSerializedCode_no_error.
    world_simpl.
    rewrite <- Estore.
    destruct (has_fatal store) eqn:Hf.
    + world_simpl.
      split; [|discriminate].
      cbn [written_paths]. apply diagnostics_output_writes_nothing.
    + rewrite (@write_result_empty l s _ Hcode).
      unfold ret, finally_. rewrite run_finally_spec.
      world_simpl. rewrite Hf.
      unfold return_.
      world_simpl.
      split.
      * cbn [written_paths].
        rewrite !written_paths_app, !diagnostics_output_writes_nothing.
        reflexivity.
      * intros _. repeat split.
        rewrite <- !app_assoc. reflexivity.
  - (* stream mode *)
    intros Hfiles Herr Hres.
    remember (collect (reported_early (prepackStdin host o)) []) as early
      eqn:Eearly.
    remember (collect (reported_late (prepackStdin host o)) early) as store
      eqn:Estore.
    rewrite run_try_stdin by exact Hfiles.
    unfold bind. rewrite call_prepackStdin_spec.
    unfold return_, finally_. rewrite run_finally_spec.
    world_simpl. rewrite <- Eearly.
    destruct (has_fatal early) eqn:Hfe.
    + world_simpl.
      split; [|discriminate].
      cbn [written_paths]. apply diagnostics_output_writes_nothing.
    + world_simpl.
      unfold completion_callback, bind. rewrite report_all_spec.
      world_simpl. rewrite <- Estore.
      unfold call. rewrite Herr, Hres, processSerializedCode_no_error.
      world_simpl.
      destruct (has_fatal store) eqn:Hf.
      * world_simpl.
        split; [|discriminate].
        cbn [written_paths].
        rewrite !written_paths_app, !diagnostics_output_writes_nothing.
        reflexivity.
      * rewrite (@write_result_empty l s _ Hcode).
        world_simpl.
        split.
        -- cbn [written_paths].
           rewrite !written_paths_app, !diagnostics_output_writes_nothing.
           reflexivity.
        -- intros _ _. repeat split.
           rewrite <- !app_assoc. reflexivity.
Qed.

(** ** Computations that do not call the engine *)

Create HintDb quiet.

Lemma quiet_ret A (a : A) : quiet (ret a).
Proof. intros w; reflexivity. Qed.

Lemma quiet_return A v : quiet (@return_ A v).
Proof. intros w; reflexivity. Qed.

Lemma quiet_throw A e : quiet (@throw A e).
Proof. intros w; reflexivity. Qed.

Lemma quiet_process_exit A n : quiet (@process_exit A n).
Proof. intros w; reflexivity. Qed.

Lemma quiet_console_log s : quiet (console_log s).
Proof.
  intros w. unfold console_log, emit; simpl.
  now rewrite engine_calls_app, app_nil_r.
Qed.

Lemma quiet_console_error s : quiet (console_error s).
Proof.
  intros w. unfold console_error, emit; simpl.
  now rewrite engine_calls_app, app_nil_r.
Qed.

Lemma quiet_emit_error_stack e : quiet (emit (ConsoleErrorStack e)).
Proof.
  intros w. unfold emit; simpl. now rewrite engine_calls_app, app_nil_r.
Qed.

Lemma quiet_emit_error_value e : quiet (emit (ConsoleErrorValue e)).
Proof.
  intros w. unfold emit; simpl. now rewrite engine_calls_app, app_nil_r.
Qed.

Lemma quiet_emit_write p d : quiet (emit (WriteFileSync p d)).
Proof.
  intros w. unfold emit; simpl. now rewrite engine_calls_app, app_nil_r.
Qed.

Lemma quiet_bind A B (c : M A) (k : A -> M B) :
  quiet c -> (forall a, quiet (k a)) -> quiet (bind c k).
Proof.
  intros Hc Hk w. unfold bind. specialize (Hc w).
  destruct (c w) as [[a | v | e | n] w1]; simpl in *; try exact Hc.
  now rewrite Hk.
Qed.

Lemma quiet_when b c : quiet c -> quiet (when b c).
Proof. intros Hc. destruct b; [exact Hc | apply quiet_ret]. Qed.

Lemma quiet_invariant b s : quiet (invariant b s).
Proof. destruct b; [apply quiet_ret | apply quiet_throw]. Qed.

Lemma quiet_call c : quiet c -> quiet (call c).
Proof.
  intros Hc w. unfold call. specialize (Hc w).
  destruct (c w) as [[a | v | e | n] w1]; exact Hc.
Qed.

Lemma quiet_finally A (r : Completion A) fin : quiet fin -> quiet (finally_ r fin).
Proof.
  intros Hf w. unfold finally_. specialize (Hf w).
  destruct (fin w) as [[a | v | e | n] w1]; exact Hf.
Qed.

Lemma quiet_try_catch_finally A (body : M A) handler fin :
  quiet body -> (forall e, quiet (handler e)) -> quiet fin ->
  quiet (try_catch_finally body handler fin).
Proof.
  intros Hb Hh Hf w. unfold try_catch_finally. specialize (Hb w).
  destruct (body w) as [[a | v | e | n] w1]; simpl in Hb.
  - now rewrite (quiet_finally _ Hf).
  - now rewrite (quiet_finally _ Hf).
  - specialize (Hh e w1).
    destruct (handler e w1) as [[a | v | e' | n] w2]; simpl in Hh;
      try (rewrite (quiet_finally _ Hf)); simpl; congruence.
  - exact Hb.
Qed.

Lemma engine_calls_listing es :
  forall foundFatal, engine_calls (listing foundFatal es) = [].
Proof.
  induction es as [|[loc error] r IH]; intros ff; simpl; [reflexivity|].
  destruct (ff || is_fatal_severity (severity error))%bool; simpl; apply IH.
Qed.

Lemma engine_calls_diagnostics_output m :
  engine_calls (diagnostics_output m) = [].
Proof.
  destruct m as [|e r]; [reflexivity|].
  unfold diagnostics_output. cbn [engine_calls].
  apply engine_calls_listing.
Qed.

Lemma quiet_printDiagnostics : quiet printDiagnostics.
Proof.
  intros w. rewrite printDiagnostics_spec. world_simpl.
  now rewrite engine_calls_app, engine_calls_diagnostics_output, app_nil_r.
Qed.

Lemma quiet_store_nonempty : quiet store_nonempty.
Proof. intros w; reflexivity. Qed.

Lemma quiet_report_all ds : quiet (report_all ds).
Proof. intros w. now rewrite report_all_spec. Qed.

#[export] Hint Resolve quiet_ret quiet_return quiet_throw quiet_process_exit
  quiet_console_log quiet_console_error quiet_emit_error_stack
  quiet_emit_error_value quiet_emit_write quiet_when quiet_invariant
  quiet_call quiet_printDiagnostics quiet_store_nonempty quiet_report_all
  : quiet.

(** Splits a computation along its binds and case distinctions and closes
    the leaves from the hint database. *)
Ltac quiet_steps :=
  repeat first
    [ progress auto with quiet
    | apply quiet_bind; [|intros ?]
    | apply quiet_when
    | apply quiet_call
    | match goal with
      | |- quiet (match ?x with _ => _ end) => destruct x
      end ].

Lemma quiet_write_result l serialized : quiet (write_result l serialized).
Proof. unfold write_result. quiet_steps. Qed.

Lemma quiet_processSerializedCode l err serialized :
  quiet (processSerializedCode l err serialized).
Proof.
  unfold processSerializedCode.
  pose proof (quiet_write_result l serialized).
  quiet_steps.
Qed.

Lemma quiet_run_catch e : quiet (run_catch e).
Proof. unfold run_catch. quiet_steps. Qed.

Lemma quiet_run_finally : quiet run_finally.
Proof. unfold run_finally. quiet_steps. Qed.

Lemma quiet_completion_callback l sr : quiet (completion_callback l sr).
Proof.
  unfold completion_callback.
  pose proof (quiet_processSerializedCode l (completion_err sr)
                (completion_result sr)).
  quiet_steps.
Qed.

(** ** The engine is called at most once, with the resolved options *)

Section EngineCalls.

Variable host : Host.

Lemma calls_once_bind A B o (c : M A) (k : A -> M B) :
  calls_once o c -> (forall a, quiet (k a)) -> calls_once o (bind c k).
Proof.
  intros Hc Hk w. unfold bind. specialize (Hc w).
  destruct (c w) as [[a | v | e | n] w1]; simpl in *; try exact Hc.
  now rewrite Hk.
Qed.

Lemma calls_once_try_catch_finally A o (body : M A) handler fin :
  calls_once o body -> (forall e, quiet (handler e)) -> quiet fin ->
  calls_once o (try_catch_finally body handler fin).
Proof.
  intros Hb Hh Hf w. unfold try_catch_finally. specialize (Hb w).
  destruct (body w) as [[a | v | e | n] w1]; simpl in Hb.
  - now rewrite (quiet_finally _ Hf).
  - now rewrite (quiet_finally _ Hf).
  - specialize (Hh e w1).
    destruct (handler e w1) as [[a | v | e' | n] w2]; simpl in Hh;
      try (rewrite (quiet_finally _ Hf)); simpl; congruence.
  - exact Hb.
Qed.

Lemma calls_once_prepackFileSync files o :
  calls_once o (call_prepackFileSync host files o).
Proof.
  intros w. rewrite call_prepackFileSync_spec. world_simpl.
  now rewrite engine_calls_app.
Qed.

Lemma calls_once_prepackStdin l o :
  calls_once o (call_prepackStdin host l o).
Proof.
  intros w. rewrite call_prepackStdin_spec. world_simpl.
  now rewrite engine_calls_app.
Qed.

Lemma calls_once_run_try l o : calls_once o (run_try host l o).
Proof.
  unfold run_try.
  destruct (Nat.eqb (length (inputFilenames l)) 0).
  - apply calls_once_bind; [apply calls_once_prepackStdin|].
    intros; apply quiet_return.
  - apply calls_once_bind; [apply calls_once_prepackFileSync|].
    intros s. apply quiet_bind; [|intros; apply quiet_ret].
    apply quiet_call, quiet_processSerializedCode.
Qed.

Lemma engine_calls_run_parsed l0 w :
  engine_calls (trace (snd (run_parsed host l0 w))) =
  (engine_calls (trace w) ++
   if lazy_objects_conflict (resolve_modes l0)
        (resolvedOptions (resolve_modes l0))
   then []
   else [resolvedOptions (resolve_modes l0)])%list.
Proof.
  destruct (lazy_objects_conflict _ _) eqn:Hconf.
  - rewrite run_parsed_conflict by exact Hconf. world_simpl.
    now rewrite engine_calls_app.
  - rewrite run_parsed_no_conflict by exact Hconf.
    apply calls_once_bind; [|intros; apply quiet_return].
    apply calls_once_try_catch_finally.
    + apply calls_once_run_try.
    + apply quiet_run_catch.
    + apply quiet_run_finally.
Qed.

Lemma engine_calls_event_loop r :
  engine_calls (trace (snd (event_loop host r))) =
  engine_calls (trace (snd r)).
Proof.
  destruct r as [[v | v | e | n] w]; try reflexivity.
  unfold event_loop. destruct (pending w) as [[l o]|]; [|reflexivity].
  now rewrite quiet_completion_callback.
Qed.

(** After a successful argument loop the engine is called once with the
    resolved options, or not at all when the lazy-objects conflict
    stops the run. *)
Lemma engine_calls_main argv l0 :
  fst (parse_args host (skipn 2 argv) initial_world) = Normal l0 ->
  engine_calls (trace (snd (main host argv))) =
  if lazy_objects_conflict (resolve_modes l0)
       (resolvedOptions (resolve_modes l0))
  then []
  else [resolvedOptions (resolve_modes l0)].
Proof.
  intros Hparse. rewrite (main_after_parse host argv Hparse).
  rewrite engine_calls_event_loop.
  pose proof (engine_calls_run_parsed l0 initial_world) as H.
  unfold call.
  destruct (run_parsed host l0 initial_world) as [[a | v | e | n] w1];
    exact H.
Qed.

End EngineCalls.

(** ** The [flags] object *)

Lemma get_put_flag_same k v f : get_flag k (put_flag k v f) = Some v.
Proof.
  induction f as [|[k1 v1] r IH]; simpl.
  - now rewrite String.eqb_refl.
  - destruct (String.eqb k k1) eqn:E; simpl; rewrite E; [reflexivity | exact IH].
Qed.

Lemma get_put_flag_other k k' v f :
  k <> k' -> get_flag k (put_flag k' v f) = get_flag k f.
Proof.
  intros Hne. induction f as [|[k1 v1] r IH]; simpl.
  - apply String.eqb_neq in Hne. now rewrite Hne.
  - destruct (String.eqb k' k1) eqn:E; simpl.
    + apply String.eqb_eq in E; subst k1.
      apply String.eqb_neq in Hne. now rewrite Hne.
    + now rewrite IH.
Qed.

Lemma flag_on_put_same k b f : flag_on k (put_flag k (FBool b) f) = b.
Proof. unfold flag_on. now rewrite get_put_flag_same. Qed.

Lemma flag_on_put_other k k' v f :
  k <> k' -> flag_on k (put_flag k' v f) = flag_on k f.
Proof. intros H. unfold flag_on. now rewrite get_put_flag_other. Qed.

(** The three mode flags after lines 192-196, in terms of the flags the
    argument loop has left. *)
Lemma normalize_modes_spec f :
  flag_on "check" (normalize_modes f) = flag_on "check" f
  /\ flag_on "serialize" (normalize_modes f) =
     (negb (flag_on "check" f)
      && (flag_on "serialize" f || negb (flag_on "residual" f)))%bool
  /\ flag_on "residual" (normalize_modes f) =
     (negb (flag_on "check" f) && flag_on "residual" f)%bool.
Proof.
  unfold normalize_modes.
  set (f1 := if (negb (flag_on "serialize" f)
                 && negb (flag_on "residual" f))%bool
             then put_flag "serialize" (FBool true) f
             else f).
  assert (Hc : flag_on "check" f1 = flag_on "check" f).
  { subst f1. destruct (negb _ && negb _)%bool; [|reflexivity].
    apply flag_on_put_other. discriminate. }
  assert (Hr : flag_on "residual" f1 = flag_on "residual" f).
  { subst f1. destruct (negb _ && negb _)%bool; [|reflexivity].
    apply flag_on_put_other. discriminate. }
  assert (Hs : flag_on "serialize" f1 =
               (flag_on "serialize" f || negb (flag_on "residual" f))%bool).
  { subst f1.
    destruct (flag_on "serialize" f) eqn:Es,
             (flag_on "residual" f) eqn:Er; cbn [negb andb orb];
      rewrite ?flag_on_put_same; assumption || reflexivity. }
  rewrite Hc. destruct (flag_on "check" f) eqn:Ec; cbn [negb andb].
  - rewrite (@flag_on_put_other "check" "residual") by discriminate.
    rewrite (@flag_on_put_other "check" "serialize") by discriminate.
    rewrite (@flag_on_put_other "serialize" "residual") by discriminate.
    rewrite !flag_on_put_same. auto.
  - rewrite Hc, Hs, Hr. auto.
Qed.

(** ** Output modes *)

(** C2 (as the code has it). For the options the resolver produces:
    [check] is what the user supplied; with [check] both [serialize] and
    [residual] are false; without it at least one of the two is true, and
    both are true exactly when the user supplied both toggles -- so
    exactly one is true for every other combination.  These are the
    options of every call of the engine the run makes. *)
Theorem C2_modes_after_resolution host argv l0 :
  fst (parse_args host (skipn 2 argv) initial_world) = Normal l0 ->
  let o := resolvedOptions (resolve_modes l0) in
  let serialize := flag_on "serialize" (opt_flags o) in
  let residual := flag_on "residual" (opt_flags o) in
  let check := flag_on "check" (opt_flags o) in
  (forall o', In o' (engine_calls (trace (snd (main host argv)))) -> o' = o)
  /\ check = flag_on "check" (flags l0)
  /\ (check = true -> serialize = false /\ residual = false)
  /\ (check = false ->
      (serialize || residual)%bool = true
      /\ (serialize && residual)%bool =
         (flag_on "serialize" (flags l0)
          && flag_on "residual" (flags l0))%bool).
Proof.
  intros Hparse o serialize residual check.
  destruct (normalize_modes_spec (flags l0)) as [Hc [Hs Hr]].
  change (flag_on "check" (normalize_modes (flags l0))) with check in Hc.
  change (flag_on "serialize" (normalize_modes (flags l0)))
    with serialize in Hs.
  change (flag_on "residual" (normalize_modes (flags l0)))
    with residual in Hr.
  split; [|split; [exact Hc | split]].
  - intros o' Hin. rewrite (engine_calls_main host argv Hparse) in Hin.
    destruct (lazy_objects_conflict _ _); simpl in Hin;
      [contradiction | destruct Hin as [<- | []]; reflexivity].
  - intros Hck. rewrite Hs, Hr, <- Hc, Hck. auto.
  - intros Hck. rewrite Hs, Hr, <- Hc, Hck.
    destruct (flag_on "serialize" (flags l0)),
             (flag_on "residual" (flags l0)); auto.
Qed.

(** ** A value option with nothing after it *)

(** C10. When the loop meets a value option as the last argument, no
    usage error is reported: for each of the plain string options the
    turn completes, printing nothing, with the option's variable
    undefined; for additionalFunctions the call of [split] on the missing
    value throws a TypeError, and an error thrown by the argument loop
    leaves [run] uncaught. *)
Theorem C10_value_option_without_value host l w n :
  (forall name field,
      In (name, field) plain_value_options ->
      exists l',
        arg_loop host (S n) ["--" ++ name] l w = (Normal l', w)
        /\ field l' = None
        /\ inputFilenames l' = inputFilenames l
        /\ flags l' = flags l)
  /\ arg_loop host (S n) ["--additionalFunctions"] l w =
     (Throw (TypeError "Cannot read property 'split' of undefined"), w)
  /\ (forall argv e w',
         parse_args host (skipn 2 argv) initial_world = (Throw e, w') ->
         main host argv = (Throw e, w')).
Proof.
  split; [|split].
  - intros name field Hin. simpl in Hin.
    repeat (destruct Hin as [Hin | Hin];
            [inversion Hin; subst; destruct n; eexists;
             (split; [reflexivity | split; [reflexivity | split; reflexivity]])
            |]).
    contradiction.
  - reflexivity.
  - intros argv e w' H. unfold main, run, call, run_body, bind.
    rewrite H. reflexivity.
Qed.

(** ** Numeric options *)

Section Doubles.

Import JS.
Local Open Scope Z_scope.

Lemma round_to_53_bits_exact n :
  0 <= n < 2 ^ 53 -> round_to_53_bits n = n.
Proof.
  intros [H0 H]. unfold round_to_53_bits.
  assert (Hl : Z.log2 n < 53).
  { destruct (Z.eq_dec n 0) as [->|Hn]; [reflexivity|].
    apply Z.log2_lt_pow2; lia. }
  destruct (Z.leb_spec (Z.log2 n - 52) 0); [reflexivity | lia].
Qed.

(** Below 2^53 every integer is a double. *)
Lemma to_double_exact z : Z.abs z < 2 ^ 53 -> to_double z = JSInt z.
Proof.
  intros H. unfold to_double.
  rewrite round_to_53_bits_exact by (split; [apply Z.abs_nonneg | exact H]).
  assert (Hp : 2 ^ 53 < 2 ^ 1024) by (apply Z.pow_lt_mono_r; lia).
  destruct (Z.leb_spec (2 ^ 1024) (Z.abs z)); [lia|].
  f_equal. destruct z; reflexivity.
Qed.

Lemma times_1000_exact a :
  Z.abs (a * 1000) < 2 ^ 53 ->
  times (JSInt a) (JSInt 1000) = JSInt (a * 1000).
Proof.
  intros H. unfold times. cbn [is_zero is_negative].
  change (1000 =? 0) with false. change (1000 <? 0) with false.
  rewrite orb_false_r, xorb_false_r.
  destruct (Z.eqb_spec a 0) as [->|Hn].
  - reflexivity.
  - apply to_double_exact. exact H.
Qed.

(** A value of at most 53 significant bits is left alone. *)
Lemma round_to_53_bits_scaled q e :
  0 < q < 2 ^ 53 -> 0 <= e ->
  round_to_53_bits (q * 2 ^ e) = q * 2 ^ e.
Proof.
  intros [Hq0 Hq] He. unfold round_to_53_bits.
  rewrite Z.log2_mul_pow2 by lia.
  assert (Hl : Z.log2 q < 53) by (apply Z.log2_lt_pow2; lia).
  assert (Hl0 : 0 <= Z.log2 q) by apply Z.log2_nonneg.
  destruct (Z.leb_spec (e + Z.log2 q - 52) 0) as [|Hk]; [reflexivity|].
  set (k := e + Z.log2 q - 52) in *.
  assert (Hsplit : q * 2 ^ e = (q * 2 ^ (e - k)) * 2 ^ k).
  { rewrite <- Z.mul_assoc, <- Z.pow_add_r by lia. do 2 f_equal. lia. }
  assert (Hshift : Z.shiftr (q * 2 ^ e) k = q * 2 ^ (e - k)).
  { rewrite Z.shiftr_div_pow2 by lia. rewrite Hsplit.
    apply Z.div_mul. apply Z.pow_nonzero; lia. }
  assert (Hback : Z.shiftl (q * 2 ^ (e - k)) k = q * 2 ^ e).
  { rewrite Z.shiftl_mul_pow2 by lia. symmetry. exact Hsplit. }
  rewrite Hshift. cbv zeta. rewrite Hback, Z.sub_diag.
  assert (Hhalf : 0 < Z.shiftl 1 (k - 1)).
  { rewrite Z.shiftl_mul_pow2 by lia. apply Z.mul_pos_pos; [lia|].
    apply Z.pow_pos_nonneg; lia. }
  destruct (Z.ltb_spec 0 (Z.shiftl 1 (k - 1))); [exact Hback | lia].
Qed.

(** The rounded value has at most 53 significant bits. *)
Lemma round_to_53_bits_shape n :
  0 <= n ->
  round_to_53_bits n = n
  \/ exists q e, 0 < q <= 2 ^ 53 /\ 0 <= e
                 /\ round_to_53_bits n = q * 2 ^ e.
Proof.
  intros Hn. unfold round_to_53_bits.
  destruct (Z.leb_spec (Z.log2 n - 52) 0) as [|He]; [now left|].
  right. set (e := Z.log2 n - 52) in *.
  assert (Hpos : 0 < n).
  { destruct (Z.eq_dec n 0) as [->|]; [|lia]. discriminate He. }
  destruct (Z.log2_spec n Hpos) as [Hlo Hhi].
  assert (E : Z.log2 n = 52 + e) by lia.
  rewrite E in Hlo. replace (Z.succ (Z.log2 n)) with (53 + e) in Hhi by lia.
  rewrite Z.pow_add_r in Hlo, Hhi by lia.
  assert (Hpe : 0 < 2 ^ e) by (apply Z.pow_pos_nonneg; lia).
  assert (Hq : 2 ^ 52 <= Z.shiftr n e < 2 ^ 53).
  { rewrite Z.shiftr_div_pow2 by lia. split.
    - apply Z.div_le_lower_bound; lia.
    - apply Z.div_lt_upper_bound; lia. }
  assert (H52 : 0 < 2 ^ 52) by (apply Z.pow_pos_nonneg; lia).
  match goal with
  | |- exists q e0, _ /\ _ /\ Z.shiftl ?x e = _ =>
      exists x, e; split; [|split; [lia | apply Z.shiftl_mul_pow2; lia]]
  end.
  destruct (_ <? _); [lia|]. destruct (_ <? _); [lia|].
  destruct (Z.even _); lia.
Qed.

Lemma round_to_53_bits_idempotent n :
  0 <= n -> round_to_53_bits (round_to_53_bits n) = round_to_53_bits n.
Proof.
  intros Hn.
  destruct (round_to_53_bits_shape Hn) as [E | [q [e [Hq [He E]]]]].
  - now rewrite E.
  - rewrite E. destruct (Z.eq_dec q (2 ^ 53)) as [->|Hne].
    + replace (2 ^ 53 * 2 ^ e) with (2 ^ 52 * 2 ^ (e + 1)).
      * apply round_to_53_bits_scaled; [|lia].
        split; [apply Z.pow_pos_nonneg; lia | apply Z.pow_lt_mono_r; lia].
      * rewrite <- !Z.pow_add_r by lia. f_equal. lia.
    + apply round_to_53_bits_scaled; lia.
Qed.

Lemma round_to_53_bits_nonneg n : 0 <= n -> 0 <= round_to_53_bits n.
Proof.
  intros Hn.
  destruct (round_to_53_bits_shape Hn) as [E | [q [e [Hq [He E]]]]];
    rewrite E; [exact Hn|].
  apply Z.mul_nonneg_nonneg; [lia | apply Z.pow_nonneg; lia].
Qed.

(** What [to_double] builds is a double: rounding it again changes
    nothing. *)
Lemma to_double_is_double z : is_double (to_double z).
Proof.
  unfold to_double.
  pose proof (round_to_53_bits_nonneg (Z.abs_nonneg z)) as Hm.
  pose proof (round_to_53_bits_idempotent (Z.abs_nonneg z)) as Hi.
  set (m := round_to_53_bits (Z.abs z)) in *.
  destruct (Z.leb_spec (2 ^ 1024) m) as [|Hlt]; [exact I|].
  cbn [is_double]. unfold to_double.
  assert (Ha : Z.abs (Z.sgn z * m) = m \/ Z.sgn z * m = 0).
  { destruct z; cbn [Z.sgn]; lia. }
  destruct Ha as [Ha | Ha].
  - rewrite Ha, Hi.
    destruct (Z.leb_spec (2 ^ 1024) m); [lia|].
    f_equal. destruct z; cbn [Z.sgn]; lia.
  - rewrite Ha. reflexivity.
Qed.

Lemma times_is_double x y : is_double (times x y).
Proof.
  destruct x as [| | |a], y as [| | |b]; unfold times;
    cbn [is_zero is_negative orb];
    repeat match goal with
           | |- context [if ?c then _ else _] => destruct c
           end;
    try exact I; try reflexivity; apply to_double_is_double.
Qed.

Lemma parseInt10_is_double s : is_double (parseInt10 s).
Proof.
  unfold parseInt10.
  destruct (span_digits _) as [ds rest].
  destruct ds as [|c r]; [exact I|].
  destruct (_ =? 0).
  - destruct (match drop_spaces _ with [] => _ | _ => _ end);
      [exact I | reflexivity].
  - apply to_double_is_double.
Qed.

Lemma digit_val_nonneg c : is_digit c = true -> 0 <= digit_val c.
Proof.
  unfold is_digit, digit_val. intros H.
  apply andb_true_iff in H. destruct H as [H _].
  apply Nat.leb_le in H. lia.
Qed.

Lemma digits_value_nonneg ds :
  forall acc, 0 <= acc -> forallb is_digit ds = true ->
              0 <= digits_value acc ds.
Proof.
  induction ds as [|c r IH]; intros acc Hacc H; cbn [digits_value].
  - exact Hacc.
  - cbn [forallb] in H. apply andb_true_iff in H. destruct H as [Hc Hr].
    apply IH; [|exact Hr]. pose proof (digit_val_nonneg _ Hc). lia.
Qed.

End Doubles.

Section DigitStrings.

Import JS.

Lemma digit_not_space c : is_digit c = true -> is_space c = false.
Proof.
unfold is_digit, is_space. intros H.
apply andb_true_iff in H. destruct H as [H1 H2].
apply Nat.leb_le in H1. apply Nat.leb_le in H2.
repeat rewrite orb_false_iff. repeat split; apply Nat.eqb_neq; lia.
Qed.

Lemma digit_not_sign c :
is_digit c = true ->
(Ascii.eqb c "+" || Ascii.eqb c "-")%bool = false.
Proof.
intros H. apply orb_false_iff.
split; destruct (Ascii.eqb c _) eqn:E; try reflexivity;
  apply Ascii.eqb_eq in E; subst c; discriminate H.
Qed.



Lemma span_digits_all ds :
forallb is_digit ds = true -> span_digits ds = (ds, []).
Proof.
induction ds as [|c r IH]; simpl; [reflexivity|].
intros H. apply andb_true_iff in H. destruct H as [Hc Hr].
now rewrite Hc, IH.
Qed.



Lemma unsigned_decimal_digits ds :
ds <> [] -> forallb is_digit ds = true -> unsigned_decimal ds = true.
Proof.
intros Hne H. unfold unsigned_decimal.
destruct (list_eq_dec ascii_dec ds _); [reflexivity|].
rewrite (span_digits_all _ H). now destruct ds.
Qed.


End DigitStrings.

(** The turn of the argument loop for a numeric option. *)
Lemma numeric_option_turn host tok rest l w :
  loop_body host "--maxStackDepth" (tok :: rest) l w =
  (if JS.isNaN (Some tok)
   then (ProcessExit 1,
         add_trace w [ConsoleError "Stack depth value must be a number"])
   else (Normal (rest, set_maxStackDepth l (Some (JS.parseInt10 tok))), w))
  /\ loop_body host "--timeout" (tok :: rest) l w =
     (if JS.isNaN (Some tok)
      then (ProcessExit 1,
            add_trace w [ConsoleError "Timeout must be a number"])
      else (Normal
              (rest,
               set_timeout l
                 (Some (JS.times (JS.parseInt10 tok) (JS.JSInt 1000)))),
            w)).
Proof.
  split; unfold loop_body, option_case; simpl; unfold bind, when;
    destruct (JS.string_is_numeric tok); reflexivity.
Qed.


(** ** Two diagnostics at one location *)

(** C7. Whatever sequence of diagnostics the engine reports, if two of
    them are reported at the same location object and none after the
    second is, the store holds exactly one entry for that location and it
    carries the second diagnostic; one call of [printDiagnostics] then
    prints the lines of the other locations and, between them, exactly
    one entry for that location. *)
Theorem C7_later_diagnostic_wins ds1 d1 ds2 d2 ds3 loc :
  reported_at loc d1 = true ->
  reported_at loc d2 = true ->
  existsb (reported_at loc) ds3 = false ->
  let w :=
    snd (report_all (ds1 ++ d1 :: ds2 ++ d2 :: ds3)%list initial_world) in
  exists before k after,
    errors w = (before ++ (k, d2) :: after)%list
    /\ loc_ref k = loc_ref loc
    /\ entries_at loc before = []
    /\ entries_at loc after = []
    /\ entries_at loc (errors w) = [(k, d2)]
    /\ Map_get loc (errors w) = Some d2
    /\ printDiagnostics w =
       (Normal (has_fatal (errors w)),
        add_trace w
          (ConsoleError "Errors found while prepacking"
           :: listing false before
           ++ listing (has_fatal before) [(k, d2)]
           ++ listing
                (has_fatal before || is_fatal_severity (severity d2))
                after)%list).
Proof.
  intros _ H2 H3 w. subst w.
  rewrite report_all_spec. world_simpl.
  replace (ds1 ++ d1 :: ds2 ++ d2 :: ds3)%list
    with ((ds1 ++ d1 :: ds2) ++ [d2] ++ ds3)%list
    by (rewrite <- app_assoc; reflexivity).
  rewrite (collect_app (ds1 ++ d1 :: ds2)), (collect_app [d2]).
  set (m := collect (ds1 ++ d1 :: ds2)%list []).
  assert (Hm : (length (entries_at loc m) <= 1)%nat)
    by (apply collect_entries_bound; simpl; lia).
  unfold reported_at in H2.
  destruct (location d2) as [k2|] eqn:E2; [|discriminate].
  apply Nat.eqb_eq in H2.
  destruct (Map_set_entries_same k2 d2 loc m H2 Hm) as [k [Hk Href]].
  assert (Hstore : entries_at loc (collect ds3 (collect [d2] m)) = [(k, d2)]).
  { rewrite collect_entries_unreported by exact H3.
    simpl. rewrite E2. exact Hk. }
  destruct (entries_at_single loc _ Hstore) as [before [after [Hsplit [Hb Ha]]]].
  exists before, k, after.
  split; [exact Hsplit|]. split; [exact Href|].
  split; [exact Hb|]. split; [exact Ha|]. split; [exact Hstore|].
  split; [rewrite Map_get_entries, Hstore; reflexivity|].
  rewrite printDiagnostics_spec. world_simpl. rewrite Hsplit.
  f_equal. f_equal.
  assert (Hout : diagnostics_output (before ++ (k, d2) :: after)%list =
                 ConsoleError "Errors found while prepacking"
                 :: listing false (before ++ (k, d2) :: after)%list)
    by (destruct before; reflexivity).
  rewrite Hout, listing_app. cbn [orb].
  change ((k, d2) :: after) with ([(k, d2)] ++ after)%list.
  rewrite (listing_app [(k, d2)]).
  cbn [has_fatal existsb snd]. rewrite orb_false_r. reflexivity.
Qed.

(** ** A diagnostic without a location *)

(** C9. A diagnostic whose location is absent is dropped by the callback:
    the callback leaves the store (and everything else) as it was and
    answers "Recover"; the store built from a sequence of reports does not
    depend on such diagnostics; and a whole run behaves exactly as if the
    engine had never reported them -- same output, same listing, same
    exit. *)
Theorem C9_unlocated_diagnostic_dropped host argv d w :
  location d = None ->
  errorHandler d w = (Normal Recover, w)
  /\ (forall before after m,
         collect (before ++ d :: after)%list m =
         collect (before ++ after)%list m)
  /\ main host argv = main (located_only host) argv.
Proof.
  intros Hloc. split; [|split].
  - unfold errorHandler. now rewrite Hloc.
  - intros before after m. rewrite !collect_app. simpl. now rewrite Hloc.
  - symmetry. apply main_located_only.
Qed.

(** ** Runs on sample command lines *)

Example maxStackDepth_12 :
  List.map opt_maxStackDepth
    (engine_calls
       (trace (snd (main succeeding_host
                      ["node"; "prepack.js"; "--maxStackDepth"; "12";
                       "in.js"]))))
  = [Some (JS.JSInt 12)].
Proof. vm_compute. reflexivity. Qed.

Example timeout_5 :
  List.map opt_timeout
    (engine_calls
       (trace (snd (main succeeding_host
                      ["node"; "prepack.js"; "--timeout"; "5"; "in.js"]))))
  = [Some (JS.JSInt 5000)].
Proof. vm_compute. reflexivity. Qed.

Example maxStackDepth_abc :
  main succeeding_host ["node"; "prepack.js"; "--maxStackDepth"; "abc"]
  = (ProcessExit 1,
     add_trace initial_world
       [ConsoleError "Stack depth value must be a number"]).
Proof. vm_compute. reflexivity. Qed.

Example default_mode_is_serialize :
  List.map (fun o => (flag_on "serialize" (opt_flags o),
                      flag_on "residual" (opt_flags o)))
    (engine_calls (trace (snd (main succeeding_host argv_file))))
  = [(true, false)].
Proof. vm_compute. reflexivity. Qed.

Example check_overrides_modes :
  List.map (fun o => (flag_on "serialize" (opt_flags o),
                      flag_on "residual" (opt_flags o),
                      flag_on "check" (opt_flags o)))
    (engine_calls
       (trace (snd (main succeeding_host
                      ["node"; "prepack.js"; "--check"; "--serialize";
                       "--residual"; "in.js"]))))
  = [(false, false, true)].
Proof. vm_compute. reflexivity. Qed.

Example unknown_option :
  main succeeding_host ["node"; "prepack.js"; "--frobnicate"]
  = (ProcessExit 1,
     add_trace initial_world [ConsoleError "Unknown option: frobnicate"]).
Proof. vm_compute. reflexivity. Qed.

Example inherited_property_is_accepted :
  fst (main succeeding_host ["node"; "prepack.js"; "--toString"; "in.js"])
  = Normal RTrue.
Proof. vm_compute. reflexivity. Qed.

Example empty_runtime_name_is_no_conflict :
  fst (main succeeding_host
         ["node"; "prepack.js"; "--lazyObjectsRuntime"; "";
          "--inlineExpressions"; "in.js"])
  = Normal RTrue.
Proof. vm_compute. reflexivity. Qed.

(** The sibling path of the success path: on a fatal-class failure the
    [catch] block prints nothing and the listing comes once, from the
    [finally] block. *)
Example fatal_failure_lists_once :
  listings
    (trace (snd (main (quiet_host [sample_warning]
                         (Raises (FatalError "unrecoverable")))
                   argv_file)))
  = 1.
Proof. vm_compute. reflexivity. Qed.

Example stream_success_lists_once :
  listings (trace (snd (main warning_host argv_stdin))) = 1.
Proof. vm_compute. reflexivity. Qed.

Example unlocated_fatal_diagnostic_is_invisible :
  main (quiet_host [unlocated_fatal] (Returns (Some sample_result))) argv_file
  = main succeeding_host argv_file
  /\ fst (main succeeding_host argv_file) = Normal RTrue.
Proof. vm_compute. split; reflexivity. Qed.

(** ** Where the code departs from the specification *)

(** C1. In file mode, when the engine succeeds and has reported a
    non-fatal diagnostic, the listing is printed twice: once by
    [processSerializedCode] and once more by the [finally] block. *)
Theorem C1_file_mode_success_lists_twice :
  fst (main warning_host argv_file) = Normal RTrue
  /\ listings (trace (snd (main warning_host argv_file))) = 2
  /\ trace (snd (main warning_host argv_file)) =
     (CallPrepackFileSync ["in.js"]
        (resolvedOptions (resolve_modes (parsed warning_host argv_file)))
      :: diagnostics_output [(sample_location, sample_warning)]
      ++ [ConsoleLog "var x = 1;"]
      ++ diagnostics_output [(sample_location, sample_warning)])%list.
Proof. vm_compute. repeat split. Qed.

(** C2, as the specification states it, fails when the user supplies both
    toggles without check: both modes are on in the options the engine
    receives. *)
Lemma C2_both_toggles_counterexample :
  List.map exactly_one_mode_unless_check
    (engine_calls (trace (snd (main succeeding_host argv_both_modes))))
  = [false]
  /\ List.map (fun o => (flag_on "serialize" (opt_flags o),
                         flag_on "residual" (opt_flags o),
                         flag_on "check" (opt_flags o)))
       (engine_calls (trace (snd (main succeeding_host argv_both_modes))))
     = [(true, true, false)].
Proof. vm_compute. split; reflexivity. Qed.

(** C3. With a statistics file requested and no statistics in the result,
    the early [return] also skips the source map and the heap graph that
    were asked for; without the statistics option both are written. *)
Theorem C3_missing_statistics_skips_later_files :
  statistics sample_result = None
  /\ written_paths (trace (snd (main succeeding_host argv_all_outputs)))
     = ["out.js"]
  /\ written_paths
       (trace (snd (main succeeding_host argv_outputs_without_stats)))
     = ["out.js"; "out.map"; "heap.dot"].
Proof. vm_compute. repeat split. Qed.


(** ** The theorems at sample inputs *)

Lemma C2_modes_after_resolution_witness :
  fst (parse_args succeeding_host (skipn 2 argv_both_modes) initial_world)
  = Normal (parsed succeeding_host argv_both_modes)
  /\ flag_on "check"
       (opt_flags
          (resolvedOptions
             (resolve_modes (parsed succeeding_host argv_both_modes))))
     = flag_on "check" (flags (parsed succeeding_host argv_both_modes)).
Proof.
  split; [vm_compute; reflexivity|].
  apply (proj1 (proj2 (@C2_modes_after_resolution succeeding_host
                         argv_both_modes
                         (parsed succeeding_host argv_both_modes)
                         eq_refl))).
Defined.


Lemma C5_fatal_failure_asserts_diagnostics_witness :
  fst (main fatal_without_diagnostic_host argv_file)
  = Throw (InvariantViolation FatalError_contract)
  /\ fst (main fatal_without_diagnostic_host argv_stdin)
     = Throw (InvariantViolation FatalError_contract).
Proof.
  split.
  - apply (proj1 (@C5_fatal_failure_asserts_diagnostics
                    fatal_without_diagnostic_host argv_file
                    (parsed fatal_without_diagnostic_host argv_file)
                    "unrecoverable" eq_refl eq_refl)).
    + discriminate.
    + reflexivity.
    + reflexivity.
  - apply (proj2 (@C5_fatal_failure_asserts_diagnostics
                    fatal_without_diagnostic_host argv_stdin
                    (parsed fatal_without_diagnostic_host argv_stdin)
                    "unrecoverable" eq_refl eq_refl)).
    + reflexivity.
    + reflexivity.
    + reflexivity.
    + reflexivity.
Defined.

Lemma C6_lazy_objects_conflict_witness :
  engine_calls (trace (snd (main succeeding_host argv_lazy_conflict))) = []
  /\ exit_status (fst (main succeeding_host argv_lazy_conflict)) <> 0%Z.
Proof.
  apply (@C6_lazy_objects_conflict_stops_before_engine succeeding_host
           argv_lazy_conflict (parsed succeeding_host argv_lazy_conflict)).
  - vm_compute. reflexivity.
  - reflexivity.
  - left. discriminate.
Defined.

Lemma C7_later_diagnostic_wins_witness :
  exists k,
    entries_at sample_location
      (errors (snd (report_all [sample_warning; sample_error] initial_world)))
    = [(k, sample_error)].
Proof.
  destruct (@C7_later_diagnostic_wins [] sample_warning [] sample_error []
              sample_location eq_refl eq_refl eq_refl)
    as [before [k [after [_ [_ [_ [_ [H _]]]]]]]].
  exists k. exact H.
Defined.

Lemma C8_empty_code_witness :
  written_paths (trace (snd (main empty_code_host argv_file))) = []
  /\ exit_status (fst (main empty_code_host argv_file)) = 0%Z
  /\ written_paths (trace (snd (main empty_code_host argv_stdin))) = []
  /\ exit_status (fst (main empty_code_host argv_stdin)) = 0%Z.
Proof.
  destruct (@C8_empty_code_reported_nothing_written empty_code_host
              argv_file (parsed empty_code_host argv_file) empty_result
              eq_refl eq_refl eq_refl) as [Hfile _].
  destruct (@C8_empty_code_reported_nothing_written empty_code_host
              argv_stdin (parsed empty_code_host argv_stdin) empty_result
              eq_refl eq_refl eq_refl) as [_ Hstdin].
  destruct Hfile as [Hw Hok]; [discriminate | reflexivity |].
  destruct Hstdin as [Hw' Hok']; [reflexivity | reflexivity | reflexivity |].
  split; [exact Hw|]. split; [apply Hok; reflexivity|].
  split; [exact Hw'|]. apply Hok'; reflexivity.
Defined.

Lemma C9_unlocated_diagnostic_dropped_witness :
  errorHandler unlocated_fatal initial_world = (Normal Recover, initial_world).
Proof.
  apply (proj1 (@C9_unlocated_diagnostic_dropped succeeding_host argv_file
                  unlocated_fatal initial_world eq_refl)).
Defined.

Lemma C10_value_option_without_value_witness :
  exists l',
    arg_loop succeeding_host 1 ["--" ++ "out"] initial_locals initial_world
    = (Normal l', initial_world)
    /\ outputFilename l' = None
    /\ inputFilenames l' = inputFilenames initial_locals
    /\ flags l' = flags initial_locals.
Proof.
  apply (proj1 (C10_value_option_without_value succeeding_host
                  initial_locals initial_world 0) "out" outputFilename).
  simpl. left. reflexivity.
Defined.

(** * Further properties of the code *)

(** ** The argument loop *)

Section LoopShape.

Variable host : Host.

(** Closes a goal [loop_stop_shape] whose computation has been run. *)
Ltac shape_done :=
  first [ reflexivity
        | split; [reflexivity | first [reflexivity | eexists; reflexivity]] ].

Lemma loop_stop_shape_option_case arg args l w :
  loop_stop_shape w (option_case host arg args l w).
Proof.
  unfold option_case, loop_stop_shape.
  repeat match goal with
         | |- context [if String.eqb ?a ?b then _ else _] =>
             destruct (String.eqb a b)
         end;
    try (destruct args as [|v rest]; simpl; shape_done).
  - destruct args as [|v rest]; simpl; [shape_done|].
    unfold bind, when.
    destruct (negb (existsb (String.eqb v) (CompatibilityValues host)));
      simpl; shape_done.
  - destruct args as [|v rest]; simpl; [shape_done|].
    unfold bind, when. destruct (negb (JS.string_is_numeric v)); simpl;
      shape_done.
  - destruct args as [|v rest]; simpl; [shape_done|].
    unfold bind, when. destruct (negb (JS.string_is_numeric v)); simpl;
      shape_done.
  - destruct (in_flags arg (flags l)); simpl; shape_done.
Qed.

Lemma loop_stop_shape_loop_body arg args l w :
  loop_stop_shape w (loop_body host arg args l w).
Proof.
  unfold loop_body. destruct (negb (JS.startsWith "--" arg)).
  - reflexivity.
  - apply loop_stop_shape_option_case.
Qed.

Lemma loop_stop_shape_arg_loop fuel :
  forall args l w, loop_stop_shape w (arg_loop host fuel args l w).
Proof.
  induction fuel as [|f IH]; intros args l w.
  - destruct args; reflexivity.
  - destruct args as [|a rest]; [reflexivity|].
    simpl. unfold bind.
    pose proof (loop_stop_shape_loop_body a rest l w) as Hb.
    destruct (loop_body host a rest l w) as [[r | v | e | n] w1];
      unfold loop_stop_shape in *; simpl in *; try exact Hb.
    subst w1. apply IH.
Qed.

(** Positional arguments are pushed in order and nothing else happens. *)
Lemma arg_loop_positional files :
  forall rest l w,
    forallb positional files = true ->
    arg_loop host (length (files ++ rest)) (files ++ rest)%list l w =
    arg_loop host (length rest) rest (push_all l files) w.
Proof.
  induction files as [|a r IH]; intros rest l w H; [reflexivity|].
  simpl in H. apply andb_true_iff in H. destruct H as [Ha Hr].
  change ((a :: r) ++ rest)%list with (a :: (r ++ rest))%list.
  rewrite arg_loop_unfold. unfold bind, loop_body.
  unfold positional in Ha. rewrite Ha. unfold ret. cbn [fst snd].
  now rewrite IH.
Qed.

Lemma inputFilenames_push_all files :
  forall l,
    inputFilenames (push_all l files) = (inputFilenames l ++ files)%list
    /\ flags (push_all l files) = flags l
    /\ outputFilename (push_all l files) = outputFilename l
    /\ lazyObjectsRuntime (push_all l files) = lazyObjectsRuntime l
    /\ additionalFunctions (push_all l files) = additionalFunctions l.
Proof.
  induction files as [|a r IH]; intros l; simpl.
  - now rewrite app_nil_r.
  - destruct (IH (push_inputFilename l a)) as [H1 [H2 [H3 [H4 H5]]]].
    rewrite H1, H2, H3, H4, H5. simpl. now rewrite <- app_assoc.
Qed.

End LoopShape.

(** X1. A command line without option tokens: every token becomes an
    input file name, in the original order; no other variable changes
    and nothing is printed. *)
Theorem X1_positional_arguments host files w :
  forallb positional files = true ->
  parse_args host files w = (Normal (push_all initial_locals files), w)
  /\ inputFilenames (push_all initial_locals files) = files
  /\ flags (push_all initial_locals files) = initial_flags.
Proof.
  intros H. split.
  - unfold parse_args.
    rewrite <- (app_nil_r files) at 1 2.
    rewrite arg_loop_positional by exact H. reflexivity.
  - destruct (inputFilenames_push_all files initial_locals) as [H1 [H2 _]].
    split; [exact H1 | exact H2].
Qed.

Lemma X1_positional_arguments_witness :
  forallb positional ["a.js"; "lib/b.js"] = true
  /\ inputFilenames (push_all initial_locals ["a.js"; "lib/b.js"])
     = ["a.js"; "lib/b.js"].
Proof.
  split; [reflexivity|].
  apply (proj1 (proj2 (@X1_positional_arguments succeeding_host
                         ["a.js"; "lib/b.js"] initial_world eq_refl))).
Defined.

(** Conversion of the way the loop ended into the way [run] ends. *)
Lemma main_parse_stopped host argv c w :
  parse_args host (skipn 2 argv) initial_world = (c, w) ->
  (forall l0, c <> Normal l0) ->
  main host argv =
  (match c with
   | Normal _ => Normal RUndefined
   | Return v => Normal v
   | Throw e => Throw e
   | ProcessExit n => ProcessExit n
   end, w)
  /\ pending w = None.
Proof.
  intros Hp Hn.
  pose proof (loop_stop_shape_arg_loop host (length (skipn 2 argv))
                (skipn 2 argv) initial_locals initial_world) as Hs.
  unfold parse_args in Hp. rewrite Hp in Hs.
  unfold main, run, call, run_body, bind, parse_args. rewrite Hp.
  unfold loop_stop_shape in Hs. simpl in Hs.
  destruct c as [l0 | v | e | n].
  - exfalso. now apply (Hn l0).
  - destruct Hs as [_ [s ->]]. simpl. auto.
  - destruct Hs as [_ ->]. simpl. auto.
  - destruct Hs as [_ [s ->]]. simpl. auto.
Qed.

(** X2. However the argument loop ends, it ends in one of four ways:
    silently, having printed nothing; by returning [undefined] after one
    line on standard output (help, version); by the TypeError of the
    missing additionalFunctions value, nothing printed; or by
    [process.exit(1)] after exactly one line on standard error.  When it
    does not complete, the engine is never called and no file is
    written. *)
Theorem X2_argument_loop_stops host argv :
  loop_stop_shape initial_world
    (parse_args host (skipn 2 argv) initial_world)
  /\ ((forall l0,
          fst (parse_args host (skipn 2 argv) initial_world) <> Normal l0) ->
      engine_calls (trace (snd (main host argv))) = []
      /\ written_paths (trace (snd (main host argv))) = []).
Proof.
  split; [apply loop_stop_shape_arg_loop|].
  intros Hn.
  pose proof (loop_stop_shape_arg_loop host (length (skipn 2 argv))
                (skipn 2 argv) initial_locals initial_world) as Hs.
  destruct (parse_args host (skipn 2 argv) initial_world) as [c w] eqn:Hp.
  simpl in Hn.
  destruct (main_parse_stopped host argv Hp Hn) as [-> _].
  unfold parse_args in Hp. rewrite Hp in Hs.
  unfold loop_stop_shape in Hs. simpl in Hs. cbn [snd].
  destruct c as [l0 | v | e | n].
  - exfalso. now apply (Hn l0).
  - destruct Hs as [_ [s ->]]. auto.
  - destruct Hs as [_ ->]. auto.
  - destruct Hs as [_ [s ->]]. auto.
Qed.

Lemma X2_argument_loop_stops_witness :
  engine_calls
    (trace (snd (main succeeding_host
                   ["node"; "prepack.js"; "in.js"; "--compatibility";
                    "netscape"])))
  = [].
Proof.
  apply (proj2 (X2_argument_loop_stops succeeding_host
                  ["node"; "prepack.js"; "in.js"; "--compatibility";
                   "netscape"])).
  intros l0. vm_compute. discriminate.
Defined.

(** ** Option names *)

Lemma flag_on_assign_other k name f :
  k <> name -> flag_on k (assign_flag name f) = flag_on k f.
Proof.
  intros H. unfold assign_flag.
  destruct (String.eqb name "__proto__"); [reflexivity|].
  now apply flag_on_put_other.
Qed.

Lemma flag_on_assign_same name f :
  name <> "__proto__" -> flag_on name (assign_flag name f) = true.
Proof.
  intros H. unfold assign_flag. apply String.eqb_neq in H. rewrite H.
  apply flag_on_put_same.
Qed.

(** A token [--name] is handed to the [switch] as [name]. *)
Lemma loop_body_option host name args l w :
  loop_body host ("--" ++ name) args l w = option_case host name args l w.
Proof.
  unfold loop_body.
  assert (Hs : JS.startsWith "--" ("--" ++ name) = true)
    by (unfold JS.startsWith; simpl; now destruct name).
  rewrite Hs. reflexivity.
Qed.

Lemma option_case_default host name args l w :
  ~ In name switch_labels ->
  option_case host name args l w =
  if in_flags name (flags l)
  then (Normal (args, set_flags l (assign_flag name (flags l))), w)
  else (ProcessExit 1,
        add_trace w [ConsoleError ("Unknown option: " ++ name)]).
Proof.
  intros H. unfold option_case.
  repeat match goal with
         | |- context [if String.eqb name ?b then _ else _] =>
             let E := fresh "E" in
             destruct (String.eqb name b) eqn:E;
             [ apply String.eqb_eq in E; exfalso; apply H; rewrite E;
               simpl; tauto
             | clear E ]
         end.
  destruct (in_flags name (flags l)); reflexivity.
Qed.

(** X3. An option token [--name] whose name is none of the fifteen
    [switch] labels is a toggle exactly when [name in flags] holds, i.e.
    when it is a key of the flags object or a property every object
    inherits (toString, constructor, ...): then the turn is silent, the
    flag [name] becomes true ([__proto__] changes nothing) and every other
    flag keeps its value; otherwise the run ends with status 1 after the
    line "Unknown option: name". *)
Theorem X3_toggle_or_unknown_option host name args l w :
  ~ In name switch_labels ->
  loop_body host ("--" ++ name) args l w =
  (if in_flags name (flags l)
   then (Normal (args, set_flags l (assign_flag name (flags l))), w)
   else (ProcessExit 1,
         add_trace w [ConsoleError ("Unknown option: " ++ name)]))
  /\ (in_flags name (flags l) = true <->
      In name (flag_keys (flags l)) \/ In name Object_prototype_properties)
  /\ (forall k, k <> name ->
        flag_on k (assign_flag name (flags l)) = flag_on k (flags l))
  /\ (name <> "__proto__" ->
      flag_on name (assign_flag name (flags l)) = true).
Proof.
  intros H. split; [|split; [|split]].
  - rewrite loop_body_option. now apply option_case_default.
  - unfold in_flags.
    assert (Hk : forall f, (exists v, get_flag name f = Some v)
                           <-> In name (flag_keys f)).
    { induction f as [|[k v] r IH]; simpl.
      - split; [intros [v Hv]; discriminate | intros []].
      - destruct (String.eqb name k) eqn:E.
        + apply String.eqb_eq in E. subst k. split; eauto.
        + apply String.eqb_neq in E. rewrite IH.
          split; [auto | intros [Hc | Hr]; [congruence | exact Hr]]. }
    destruct (get_flag name (flags l)) as [v|] eqn:Eg.
    + split; [intros _; left; apply Hk; eauto | reflexivity].
    + rewrite existsb_exists. split.
      * intros [x [Hx Ex]]. apply String.eqb_eq in Ex. subst x. now right.
      * intros [Hc | Hp].
        -- apply Hk in Hc. destruct Hc as [v Hv]. congruence.
        -- exists name. split; [exact Hp | apply String.eqb_refl].
  - intros k Hk. now apply flag_on_assign_other.
  - apply flag_on_assign_same.
Qed.

Lemma X3_toggle_or_unknown_option_witness :
  loop_body succeeding_host ("--" ++ "toString") [] initial_locals
    initial_world
  = (Normal ([], set_flags initial_locals
                   (assign_flag "toString" initial_flags)),
     initial_world)
  /\ loop_body succeeding_host ("--" ++ "speculate") [] initial_locals
       initial_world
     = (ProcessExit 1,
        add_trace initial_world [ConsoleError "Unknown option: speculate"]).
Proof.
  split.
  - apply (proj1 (@X3_toggle_or_unknown_option succeeding_host "toString"
                    [] initial_locals initial_world
                    ltac:(simpl; intuition discriminate))).
  - apply (proj1 (@X3_toggle_or_unknown_option succeeding_host "speculate"
                    [] initial_locals initial_world
                    ltac:(simpl; intuition discriminate))).
Defined.

(** ** Terminal options and options without a value *)

Lemma arg_loop_help host n rest l w :
  arg_loop host (S n) ("--help" :: rest) l w =
  (Return RUndefined,
   add_trace w [ConsoleLog (help_text host (flags l))]).
Proof. reflexivity. Qed.

Lemma arg_loop_version host n rest l w :
  arg_loop host (S n) ("--version" :: rest) l w =
  (Return RUndefined, add_trace w [ConsoleLog (version host)]).
Proof. reflexivity. Qed.

Lemma main_returned host argv w :
  parse_args host (skipn 2 argv) initial_world = (Return RUndefined, w) ->
  main host argv = (Normal RUndefined, w).
Proof.
  intros H.
  apply (main_parse_stopped host argv H). intros l0. discriminate.
Qed.

(** X6. [--help] and [--version] end the argument loop on the spot: after
    any number of file names, whatever follows the option -- valid or not
    -- is never looked at; the usage text (resp. the version) is the only
    output, [run] returns [undefined], the engine is not called. *)
Theorem X6_help_and_version_are_terminal host a b files rest :
  forallb positional files = true ->
  main host (a :: b :: files ++ "--help" :: rest) =
  (Normal RUndefined,
   add_trace initial_world [ConsoleLog (help_text host initial_flags)])
  /\ main host (a :: b :: files ++ "--version" :: rest) =
     (Normal RUndefined,
      add_trace initial_world [ConsoleLog (version host)]).
Proof.
  intros H. split; apply main_returned; cbn [skipn]; unfold parse_args;
    rewrite arg_loop_positional by exact H.
  - cbn [length]. rewrite arg_loop_help.
    destruct (inputFilenames_push_all files initial_locals) as [_ [-> _]].
    reflexivity.
  - cbn [length]. now rewrite arg_loop_version.
Qed.

Lemma X6_help_and_version_are_terminal_witness :
  fst (main succeeding_host
         ("node" :: "prepack.js"
          :: ["in.js"] ++ "--help" :: ["--frobnicate"; "--timeout"]))
  = Normal RUndefined.
Proof.
  rewrite (proj1 (@X6_help_and_version_are_terminal succeeding_host
                    "node" "prepack.js" ["in.js"]
                    ["--frobnicate"; "--timeout"] eq_refl)).
  reflexivity.
Defined.

Lemma arg_loop_last_validated host n l w :
  arg_loop host (S n) ["--compatibility"] l w =
  (ProcessExit 1,
   add_trace w [ConsoleError "Unsupported compatibility: undefined"])
  /\ arg_loop host (S n) ["--maxStackDepth"] l w =
     (ProcessExit 1,
      add_trace w [ConsoleError "Stack depth value must be a number"])
  /\ arg_loop host (S n) ["--timeout"] l w =
     (ProcessExit 1, add_trace w [ConsoleError "Timeout must be a number"]).
Proof. split; [|split]; reflexivity. Qed.

Lemma main_exited host argv n w :
  parse_args host (skipn 2 argv) initial_world = (ProcessExit n, w) ->
  main host argv = (ProcessExit n, w).
Proof.
  intros H.
  apply (main_parse_stopped host argv H). intros l0. discriminate.
Qed.

(** X7. A validated option that comes last on the command line, after
    any number of file names, is not reported as lacking a value; the
    missing value fails the option's own check: compatibility prints
    "Unsupported compatibility: undefined", the two numeric options print
    their not-a-number message; that line is the whole output and the run
    ends with status 1.  A value option that is followed by a token takes
    it verbatim, even when the token looks like an option. *)
Theorem X7_missing_value_of_validated_option host a b files :
  forallb positional files = true ->
  main host (a :: b :: files ++ ["--compatibility"]) =
  (ProcessExit 1,
   add_trace initial_world
     [ConsoleError "Unsupported compatibility: undefined"])
  /\ main host (a :: b :: files ++ ["--maxStackDepth"]) =
     (ProcessExit 1,
      add_trace initial_world
        [ConsoleError "Stack depth value must be a number"])
  /\ main host (a :: b :: files ++ ["--timeout"]) =
     (ProcessExit 1,
      add_trace initial_world [ConsoleError "Timeout must be a number"])
  /\ (forall token rest l w,
         loop_body host "--out" (token :: rest) l w =
         (Normal (rest, set_outputFilename l (Some token)), w)).
Proof.
  intros H.
  split; [|split; [|split]];
    try (apply main_exited; cbn [skipn]; unfold parse_args;
         rewrite arg_loop_positional by exact H; cbn [length];
         apply arg_loop_last_validated).
  reflexivity.
Qed.

Lemma X7_missing_value_of_validated_option_witness :
  exit_status
    (fst (main succeeding_host
            ("node" :: "prepack.js" :: ["in.js"] ++ ["--timeout"])))
  = 1%Z.
Proof.
  rewrite (proj1 (proj2 (proj2
             (@X7_missing_value_of_validated_option succeeding_host
                "node" "prepack.js" ["in.js"] eq_refl)))).
  reflexivity.
Defined.

(** ** What the argument loop can do to the variables *)

Section LoopInvariants.

Variable host : Host.

(** A completed turn leaves [flags] alone or switches one flag on, and
    leaves [compatibility] alone or sets it to a supported value. *)
Lemma option_case_effect arg args l w r w' :
  option_case host arg args l w = (Normal r, w') ->
  (flags (snd r) = flags l
   \/ exists name, flags (snd r) = assign_flag name (flags l))
  /\ (compatibility (snd r) = compatibility l
      \/ JS.includes (CompatibilityValues host) (compatibility (snd r))
         = true).
Proof.
  unfold option_case.
  repeat match goal with
         | |- context [if String.eqb ?a ?b then _ else _] =>
             destruct (String.eqb a b)
         end;
    try (destruct args as [|v rest]; simpl;
         unfold ret; intros H; inversion H; subst; simpl;
         (split; left; reflexivity)).
  - destruct args as [|v rest]; simpl;
      unfold bind, when, ret, console_error, emit, process_exit; simpl;
      [discriminate|].
    destruct (existsb (String.eqb v) (CompatibilityValues host)) eqn:E;
      simpl; intros H; inversion H; subst; simpl.
    split; [left; reflexivity | right; exact E].
  - destruct args as [|v rest]; simpl;
      unfold bind, when, ret, console_error, emit, process_exit; simpl;
      [discriminate|].
    destruct (JS.string_is_numeric v); simpl;
      intros H; inversion H; subst; simpl. split; left; reflexivity.
  - destruct args as [|v rest]; simpl;
      unfold bind, when, ret, console_error, emit, process_exit; simpl;
      [discriminate|].
    destruct (JS.string_is_numeric v); simpl;
      intros H; inversion H; subst; simpl. split; left; reflexivity.
  - destruct (in_flags arg (flags l)).
    + unfold ret. intros H; inversion H; subst; simpl.
      split; [right; eexists; reflexivity | left; reflexivity].
    + unfold bind, console_error, emit, process_exit; simpl. discriminate.
Qed.

Lemma loop_body_effect arg args l w r w' :
  loop_body host arg args l w = (Normal r, w') ->
  (flags (snd r) = flags l
   \/ exists name, flags (snd r) = assign_flag name (flags l))
  /\ (compatibility (snd r) = compatibility l
      \/ JS.includes (CompatibilityValues host) (compatibility (snd r))
         = true).
Proof.
  unfold loop_body. destruct (negb (JS.startsWith "--" arg)).
  - unfold ret. intros H; inversion H; subst; simpl.
    split; left; reflexivity.
  - apply option_case_effect.
Qed.

(** A property of the variables that every completed turn keeps is kept
    by the whole loop. *)
Lemma arg_loop_invariant (P : Locals -> Prop) :
  (forall arg args l w r w',
      P l -> loop_body host arg args l w = (Normal r, w') -> P (snd r)) ->
  forall fuel args l w l' w',
    P l -> arg_loop host fuel args l w = (Normal l', w') -> P l'.
Proof.
  intros Hstep fuel.
  induction fuel as [|f IH]; intros args l w l' w' Hl H.
  - destruct args; simpl in H; unfold ret in H; inversion H; now subst.
  - destruct args as [|a rest]; simpl in H.
    + unfold ret in H; inversion H; now subst.
    + unfold bind in H.
      destruct (loop_body host a rest l w) as [[r | v | e | n] w1] eqn:E;
        try discriminate.
      eapply IH; [|exact H]. eapply Hstep; eassumption.
Qed.

Lemma flag_on_assign_mono k name f :
  flag_on k f = true -> flag_on k (assign_flag name f) = true.
Proof.
  intros H. unfold assign_flag.
  destruct (String.eqb name "__proto__"); [exact H|].
  destruct (String.eqb k name) eqn:E.
  - apply String.eqb_eq in E. subst. apply flag_on_put_same.
  - apply String.eqb_neq in E. now rewrite flag_on_put_other.
Qed.

Lemma arg_loop_flags_mono k fuel args l w l' w' :
  flag_on k (flags l) = true ->
  arg_loop host fuel args l w = (Normal l', w') ->
  flag_on k (flags l') = true.
Proof.
  apply (arg_loop_invariant (fun l => flag_on k (flags l) = true)).
  intros arg args0 l1 w1 r w1' Hl Hb.
  destruct (loop_body_effect _ _ _ _ Hb) as [[-> | [name ->]] _];
    [exact Hl | now apply flag_on_assign_mono].
Qed.

Lemma arg_loop_compatibility fuel args l w l' w' :
  (compatibility l = None
   \/ JS.includes (CompatibilityValues host) (compatibility l) = true) ->
  arg_loop host fuel args l w = (Normal l', w') ->
  compatibility l' = None
  \/ JS.includes (CompatibilityValues host) (compatibility l') = true.
Proof.
  apply (arg_loop_invariant
           (fun l => compatibility l = None
                     \/ JS.includes (CompatibilityValues host)
                          (compatibility l) = true)).
  intros arg args0 l1 w1 r w1' Hl Hb.
  destruct (loop_body_effect _ _ _ _ Hb) as [_ [-> | Hin]];
    [exact Hl | now right].
Qed.

(** When the loop does not complete, the engine is not called and no
    file is written. *)
Lemma main_parse_stopped_quiet argv :
  (forall l0,
      fst (parse_args host (skipn 2 argv) initial_world) <> Normal l0) ->
  engine_calls (trace (snd (main host argv))) = []
  /\ written_paths (trace (snd (main host argv))) = [].
Proof.
  intros Hn.
  pose proof (loop_stop_shape_arg_loop host (length (skipn 2 argv))
                (skipn 2 argv) initial_locals initial_world) as Hs.
  destruct (parse_args host (skipn 2 argv) initial_world) as [c w] eqn:Hp.
  simpl in Hn.
  destruct (main_parse_stopped host argv Hp Hn) as [-> _].
  unfold parse_args in Hp. rewrite Hp in Hs.
  unfold loop_stop_shape in Hs. simpl in Hs. cbn [snd].
  destruct c as [l0 | v | e | n].
  - exfalso. now apply (Hn l0).
  - destruct Hs as [_ [s ->]]. auto.
  - destruct Hs as [_ ->]. auto.
  - destruct Hs as [_ [s ->]]. auto.
Qed.

(** Every call of the engine carries the options resolved from the
    variables a completed argument loop has left. *)
Lemma engine_calls_main_cases argv o :
  In o (engine_calls (trace (snd (main host argv)))) ->
  exists l0,
    fst (parse_args host (skipn 2 argv) initial_world) = Normal l0
    /\ o = resolvedOptions (resolve_modes l0).
Proof.
  intros Hin.
  destruct (fst (parse_args host (skipn 2 argv) initial_world))
    as [l0 | v | e | n] eqn:Hp.
  - exists l0. split; [reflexivity|].
    rewrite (engine_calls_main host argv Hp) in Hin.
    destruct (lazy_objects_conflict _ _); simpl in Hin;
      [contradiction | destruct Hin as [<- | []]; reflexivity].
  - assert (Hn : forall l0,
               fst (parse_args host (skipn 2 argv) initial_world)
               <> Normal l0) by (intros l0; rewrite Hp; discriminate).
    rewrite (proj1 (main_parse_stopped_quiet argv Hn)) in Hin.
    contradiction.
  - assert (Hn : forall l0,
               fst (parse_args host (skipn 2 argv) initial_world)
               <> Normal l0) by (intros l0; rewrite Hp; discriminate).
    rewrite (proj1 (main_parse_stopped_quiet argv Hn)) in Hin.
    contradiction.
  - assert (Hn : forall l0,
               fst (parse_args host (skipn 2 argv) initial_world)
               <> Normal l0) by (intros l0; rewrite Hp; discriminate).
    rewrite (proj1 (main_parse_stopped_quiet argv Hn)) in Hin.
    contradiction.
Qed.

Lemma normalize_modes_other k f :
  k <> "serialize" -> k <> "residual" ->
  flag_on k (normalize_modes f) = flag_on k f.
Proof.
  intros Hs Hr. unfold normalize_modes.
  set (f1 := if (negb (flag_on "serialize" f)
                 && negb (flag_on "residual" f))%bool
             then put_flag "serialize" (FBool true) f
             else f).
  assert (H1 : flag_on k f1 = flag_on k f).
  { subst f1. destruct (negb _ && negb _)%bool; [|reflexivity].
    now apply flag_on_put_other. }
  destruct (flag_on "check" f1); [|exact H1].
  now rewrite !flag_on_put_other.
Qed.

End LoopInvariants.

(** X4. Whatever the command line, the compatibility option of a call of
    the engine is either undefined or one of the values of
    [CompatibilityValues]: a value outside the list ends the run in the
    argument loop. *)
Theorem X4_engine_gets_supported_compatibility host argv o :
  In o (engine_calls (trace (snd (main host argv)))) ->
  opt_compatibility o = None
  \/ exists v, opt_compatibility o = Some v
               /\ In v (CompatibilityValues host).
Proof.
  intros Hin.
  destruct (engine_calls_main_cases host argv o Hin) as [l0 [Hp ->]].
  destruct (parse_args host (skipn 2 argv) initial_world) as [c w] eqn:E.
  simpl in Hp. subst c.
  unfold parse_args in E.
  destruct (@arg_loop_compatibility host _ _ initial_locals _ _ _
              (or_introl eq_refl) E) as [H | H].
  - left. exact H.
  - right.
    change (opt_compatibility (resolvedOptions (resolve_modes l0)))
      with (compatibility l0).
    destruct (compatibility l0) as [v|]; [|discriminate].
    exists v. split; [reflexivity|].
    simpl in H. apply existsb_exists in H. destruct H as [x [Hx Ex]].
    apply String.eqb_eq in Ex. now subst x.
Qed.

Lemma X4_engine_gets_supported_compatibility_witness :
  exists v,
    opt_compatibility
      (resolvedOptions
         (resolve_modes
            (parsed succeeding_host
               ["node"; "prepack.js"; "--compatibility"; "node-cli";
                "in.js"])))
    = Some v
    /\ In v (CompatibilityValues succeeding_host).
Proof.
  destruct (@X4_engine_gets_supported_compatibility succeeding_host
              ["node"; "prepack.js"; "--compatibility"; "node-cli"; "in.js"]
              (resolvedOptions
                 (resolve_modes
                    (parsed succeeding_host
                       ["node"; "prepack.js"; "--compatibility";
                        "node-cli"; "in.js"]))))
    as [H | H].
  - vm_compute. left. reflexivity.
  - vm_compute in H. discriminate H.
  - exact H.
Defined.

(** X5. Toggles only switch on: a flag that is true stays true through
    the rest of the argument loop, so no command line can switch off
    [accelerateUnsupportedRequires], which starts out true; the engine
    always receives it as true. *)
Theorem X5_flags_only_switch_on host :
  (forall k fuel args l w l' w',
      flag_on k (flags l) = true ->
      arg_loop host fuel args l w = (Normal l', w') ->
      flag_on k (flags l') = true)
  /\ (forall argv o,
         In o (engine_calls (trace (snd (main host argv)))) ->
         flag_on "accelerateUnsupportedRequires" (opt_flags o) = true).
Proof.
  split.
  - intros k fuel args l w l' w'. apply arg_loop_flags_mono.
  - intros argv o Hin.
    destruct (engine_calls_main_cases host argv o Hin) as [l0 [Hp ->]].
    destruct (parse_args host (skipn 2 argv) initial_world) as [c w] eqn:E.
    simpl in Hp. subst c.
    cbn [opt_flags resolvedOptions resolve_modes flags set_flags].
    rewrite normalize_modes_other by discriminate.
    unfold parse_args in E.
    apply (@arg_loop_flags_mono host "accelerateUnsupportedRequires"
             _ _ initial_locals _ _ _ eq_refl E).
Qed.

Lemma X5_flags_only_switch_on_witness :
  flag_on "accelerateUnsupportedRequires"
    (opt_flags
       (resolvedOptions
          (resolve_modes (parsed succeeding_host argv_both_modes))))
  = true.
Proof.
  apply (proj2 (X5_flags_only_switch_on succeeding_host) argv_both_modes).
  vm_compute. left. reflexivity.
Defined.

(** ** What a run can emit *)

Section Emissions.

Variable paths : list string.

Let P : Event -> Prop := console_or_write paths.

Lemma emits_only_silent A (c : M A) :
  (forall w, trace (snd (c w)) = trace w /\ pending (snd (c w)) = pending w)
  -> emits_only P c.
Proof.
  intros H w. exists []. destruct (H w) as [Ht Hp].
  rewrite Ht, app_nil_r. auto.
Qed.

Lemma emits_only_ret A (a : A) : emits_only P (ret a).
Proof. apply emits_only_silent. intros w; split; reflexivity. Qed.

Lemma emits_only_return A v : emits_only P (@return_ A v).
Proof. apply emits_only_silent. intros w; split; reflexivity. Qed.

Lemma emits_only_throw A e : emits_only P (@throw A e).
Proof. apply emits_only_silent. intros w; split; reflexivity. Qed.

Lemma emits_only_process_exit A n : emits_only P (@process_exit A n).
Proof. apply emits_only_silent. intros w; split; reflexivity. Qed.

Lemma emits_only_store_nonempty : emits_only P store_nonempty.
Proof. apply emits_only_silent. intros w; split; reflexivity. Qed.

Lemma emits_only_report_all ds : emits_only P (report_all ds).
Proof.
  apply emits_only_silent. intros w. rewrite report_all_spec.
  split; reflexivity.
Qed.

Lemma emits_only_emit e : P e -> emits_only P (emit e).
Proof. intros He w. exists [e]. simpl. auto. Qed.

Lemma emits_only_console_log s : emits_only P (console_log s).
Proof. apply emits_only_emit. exact I. Qed.

Lemma emits_only_console_error s : emits_only P (console_error s).
Proof. apply emits_only_emit. exact I. Qed.

Lemma emits_only_error_stack e : emits_only P (emit (ConsoleErrorStack e)).
Proof. apply emits_only_emit. exact I. Qed.

Lemma emits_only_error_value e : emits_only P (emit (ConsoleErrorValue e)).
Proof. apply emits_only_emit. exact I. Qed.

Lemma emits_only_bind A B (c : M A) (k : A -> M B) :
  emits_only P c -> (forall a, emits_only P (k a)) ->
  emits_only P (bind c k).
Proof.
  intros Hc Hk w. unfold bind. destruct (Hc w) as [e1 [H1 [F1 Q1]]].
  destruct (c w) as [[a | v | e | n] w1]; simpl in *;
    try solve [exists e1; auto].
  destruct (Hk a w1) as [e2 [H2 [F2 Q2]]].
  exists (e1 ++ e2)%list. rewrite H2, H1, app_assoc, Q2, Q1.
  split; [reflexivity | split; [now apply Forall_app | reflexivity]].
Qed.

Lemma emits_only_when b c : emits_only P c -> emits_only P (when b c).
Proof. intros Hc. destruct b; [exact Hc | apply emits_only_ret]. Qed.

Lemma emits_only_invariant b s : emits_only P (invariant b s).
Proof. destruct b; [apply emits_only_ret | apply emits_only_throw]. Qed.

Lemma emits_only_call c : emits_only P c -> emits_only P (call c).
Proof.
  intros Hc w. unfold call. destruct (Hc w) as [e1 H1].
  destruct (c w) as [[a | v | e | n] w1]; exists e1; exact H1.
Qed.

Lemma emits_only_finally A (r : Completion A) fin :
  emits_only P fin -> emits_only P (finally_ r fin).
Proof.
  intros Hf w. unfold finally_. destruct (Hf w) as [e1 H1].
  destruct (fin w) as [[a | v | e | n] w1]; exists e1; exact H1.
Qed.

Lemma emits_only_listing es :
  forall foundFatal, Forall P (listing foundFatal es).
Proof.
  induction es as [|[loc error] r IH]; intros ff; simpl; [constructor|].
  constructor; [exact I|].
  apply Forall_app. split; [|apply IH].
  destruct (ff || is_fatal_severity (severity error))%bool;
    repeat constructor.
Qed.

Lemma emits_only_diagnostics_output m : Forall P (diagnostics_output m).
Proof.
  unfold diagnostics_output. destruct m as [|e r]; [constructor|].
  constructor; [exact I | apply emits_only_listing].
Qed.

Lemma emits_only_printDiagnostics : emits_only P printDiagnostics.
Proof.
  intros w. rewrite printDiagnostics_spec.
  exists (diagnostics_output (errors w)). world_simpl.
  split; [reflexivity | split; [|reflexivity]].
  apply emits_only_diagnostics_output.
Qed.

Lemma emits_only_run_finally : emits_only P run_finally.
Proof.
  unfold run_finally. apply emits_only_bind.
  - apply emits_only_printDiagnostics.
  - intros ff. apply emits_only_when, emits_only_process_exit.
Qed.

Lemma emits_only_run_catch e : emits_only P (run_catch e).
Proof.
  unfold run_catch. destruct (instanceof_FatalError e).
  - apply emits_only_bind; [apply emits_only_store_nonempty|].
    intros b. apply emits_only_invariant.
  - apply emits_only_bind; [apply emits_only_printDiagnostics|].
    intros _. apply emits_only_bind; [apply emits_only_error_stack|].
    intros _. apply emits_only_process_exit.
Qed.

Lemma emits_first_bind A B e (c : M A) (k : A -> M B) :
  emits_first e P c -> (forall a, emits_only P (k a)) ->
  emits_first e P (bind c k).
Proof.
  intros Hc Hk w. unfold bind. destruct (Hc w) as [e1 [H1 [F1 Q1]]].
  destruct (c w) as [[a | v | e' | n] w1]; simpl in *;
    try solve [exists e1; auto].
  destruct (Hk a w1) as [e2 [H2 [F2 Q2]]].
  exists (e1 ++ e2)%list. rewrite H2, H1, Q2, Q1, <- app_assoc.
  split; [reflexivity | split; [now apply Forall_app | reflexivity]].
Qed.

Lemma emits_first_finally A e (r : Completion A) fin w1 w evs :
  emits_only P fin ->
  trace w1 = (trace w ++ e :: evs)%list -> Forall P evs ->
  pending w1 = pending w ->
  exists evs',
    trace (snd (finally_ r fin w1)) = (trace w ++ e :: evs')%list
    /\ Forall P evs'
    /\ pending (snd (finally_ r fin w1)) = pending w.
Proof.
  intros Hf H1 F1 Q1.
  destruct (emits_only_finally r Hf w1) as [e2 [H2 [F2 Q2]]].
  exists (evs ++ e2)%list. rewrite H2, H1, Q2, Q1, <- app_assoc.
  split; [reflexivity | split; [now apply Forall_app | reflexivity]].
Qed.

Lemma emits_first_try_catch_finally A e (body : M A) handler fin :
  emits_first e P body -> (forall err, emits_only P (handler err)) ->
  emits_only P fin ->
  emits_first e P (try_catch_finally body handler fin).
Proof.
  intros Hb Hh Hf w. unfold try_catch_finally.
  destruct (Hb w) as [e1 [H1 [F1 Q1]]].
  destruct (body w) as [[a | v | err | n] w1]; simpl in H1, Q1.
  - now apply emits_first_finally with (evs := e1).
  - now apply emits_first_finally with (evs := e1).
  - destruct (Hh err w1) as [e2 [H2 [F2 Q2]]].
    assert (H12 : trace (snd (handler err w1))
                  = (trace w ++ e :: (e1 ++ e2))%list)
      by (rewrite H2, H1, <- app_assoc; reflexivity).
    assert (F12 : Forall P (e1 ++ e2)%list) by now apply Forall_app.
    assert (Q12 : pending (snd (handler err w1)) = pending w)
      by congruence.
    destruct (handler err w1) as [[a | v | err' | n] w2]; simpl in *;
      try (now apply emits_first_finally with (evs := (e1 ++ e2)%list)).
    exists (e1 ++ e2)%list. auto.
  - exists e1. auto.
Qed.

End Emissions.

Lemma requested_output l p :
  outputFilename l = Some p -> JS.truthy_str (Some p) = true ->
  In p (requested_paths l).
Proof.
  intros E T. unfold requested_paths. cbn [flat_map].
  rewrite E, T. simpl. now left.
Qed.

Lemma requested_stats l p :
  statsFileName l = Some p -> JS.truthy_str (Some p) = true ->
  In p (requested_paths l).
Proof.
  intros E T. unfold requested_paths. cbn [flat_map].
  rewrite E, T. apply in_or_app. right. simpl. now left.
Qed.

Lemma requested_source_map l p :
  outputSourceMap l = Some p -> JS.truthy_str (Some p) = true ->
  In p (requested_paths l).
Proof.
  intros E T. unfold requested_paths. cbn [flat_map].
  rewrite E, T. apply in_or_app. right. apply in_or_app. right.
  simpl. now left.
Qed.

Lemma requested_heap_graph l p :
  heapGraphFilePath l = Some p -> JS.truthy_str (Some p) = true ->
  In p (requested_paths l).
Proof.
  intros E T. unfold requested_paths. cbn [flat_map].
  rewrite E, T. apply in_or_app. right. apply in_or_app. right.
  apply in_or_app. right. simpl. now left.
Qed.

Lemma emits_only_write_result l serialized :
  emits_only (console_or_write (requested_paths l))
    (write_result l serialized).
Proof.
  unfold write_result. destruct serialized as [s|]; [|apply emits_only_ret].
  apply emits_only_bind.
  { apply emits_only_when, emits_only_bind;
      [apply emits_only_console_error | intros; apply emits_only_return]. }
  intros _. apply emits_only_bind.
  { destruct (outputFilename l) as [out|] eqn:E;
      [|apply emits_only_console_log].
    destruct (JS.truthy_str (Some out)) eqn:T;
      [|apply emits_only_console_log].
    apply emits_only_bind; [apply emits_only_console_log|].
    intros _. apply emits_only_emit. now apply requested_output. }
  intros _. apply emits_only_bind.
  { destruct (statsFileName l) as [sp|] eqn:E; [|apply emits_only_ret].
    destruct (JS.truthy_str (Some sp)) eqn:T; [|apply emits_only_ret].
    cbn [when].
    destruct (statistics s); [|apply emits_only_return].
    destruct (timingStats s); [|apply emits_only_return].
    apply emits_only_emit. now apply requested_stats. }
  intros _. apply emits_only_bind.
  { destruct (outputSourceMap l) as [mp|] eqn:E; [|apply emits_only_ret].
    destruct (JS.truthy_str (Some mp)) eqn:T; [|apply emits_only_ret].
    cbn [when]. apply emits_only_emit. now apply requested_source_map. }
  intros _.
  destruct (heapGraphFilePath l) as [gp|] eqn:E; [|apply emits_only_ret].
  destruct (JS.truthy_str (Some gp)) eqn:T; [|apply emits_only_ret].
  cbn [when]. apply emits_only_bind; [apply emits_only_invariant|].
  intros _. apply emits_only_emit. now apply requested_heap_graph.
Qed.

Lemma emits_only_processSerializedCode l err serialized :
  emits_only (console_or_write (requested_paths l))
    (processSerializedCode l err serialized).
Proof.
  unfold processSerializedCode. apply emits_only_bind.
  { destruct err as [e|]; [|apply emits_only_ret].
    apply emits_only_bind.
    - apply emits_only_when, emits_only_bind;
        [apply emits_only_store_nonempty|].
      intros b. apply emits_only_invariant.
    - intros _. apply emits_only_when, emits_only_bind;
        [apply emits_only_printDiagnostics|].
      intros _. apply emits_only_bind; [apply emits_only_error_value|].
      intros _. apply emits_only_process_exit. }
  intros _. apply emits_only_bind; [apply emits_only_printDiagnostics|].
  intros ff. apply emits_only_bind;
    [apply emits_only_when, emits_only_process_exit|].
  intros _. apply emits_only_write_result.
Qed.

Lemma emits_only_completion_callback l sr :
  emits_only (console_or_write (requested_paths l))
    (completion_callback l sr).
Proof.
  unfold completion_callback. apply emits_only_bind.
  - apply emits_only_report_all.
  - intros _. apply emits_only_call, emits_only_processSerializedCode.
Qed.

Section TraceShape.

Variable host : Host.

Lemma emits_first_prepackFileSync paths files o :
  emits_first (CallPrepackFileSync files o) (console_or_write paths)
    (call_prepackFileSync host files o).
Proof.
  intros w. rewrite call_prepackFileSync_spec. exists []. world_simpl.
  auto.
Qed.

(** After a completed argument loop and without the lazy-objects
    conflict, a run emits the call of the engine first and then only
    console output and writes to requested paths. *)
Lemma main_trace_shape argv l0 :
  fst (parse_args host (skipn 2 argv) initial_world) = Normal l0 ->
  lazy_objects_conflict (resolve_modes l0)
    (resolvedOptions (resolve_modes l0)) = false ->
  exists evs,
    trace (snd (main host argv)) = engine_call (resolve_modes l0) :: evs
    /\ Forall (console_or_write (requested_paths l0)) evs.
Proof.
  intros Hparse Hconf.
  rewrite (main_after_parse host argv Hparse).
  set (l := resolve_modes l0). set (o := resolvedOptions l).
  change (requested_paths l0) with (requested_paths l).
  destruct (inputFilenames l) as [|f fs] eqn:Hfiles.
  - (* stream mode *)
    unfold call. rewrite (run_parsed_no_conflict host l0 _ Hconf).
    fold l o. unfold bind, try_catch_finally.
    rewrite run_try_stdin by exact Hfiles.
    unfold bind. rewrite call_prepackStdin_spec.
    unfold return_, finally_. rewrite run_finally_spec. world_simpl.
    unfold engine_call. rewrite Hfiles. fold o.
    set (early := collect (reported_early (prepackStdin host o)) []).
    destruct (has_fatal early).
    + world_simpl. eexists. split; [reflexivity|].
      apply emits_only_diagnostics_output.
    + world_simpl.
      destruct (emits_only_completion_callback l (prepackStdin host o)
                  {| errors := early;
                     trace := CallPrepackStdin o
                              :: diagnostics_output early;
                     pending := None |}) as [evs [Ht [Hf _]]].
      cbn [trace] in Ht. rewrite Ht.
      exists (diagnostics_output early ++ evs)%list.
      split; [reflexivity|].
      apply Forall_app. split; [|exact Hf].
      apply emits_only_diagnostics_output.
  - (* file mode *)
    assert (Hshape :
      emits_first (engine_call l) (console_or_write (requested_paths l))
        (run_parsed host l0)).
    { intros w. rewrite (run_parsed_no_conflict host l0 _ Hconf).
      fold l o. revert w.
      apply emits_first_bind; [|intros; apply emits_only_return].
      apply emits_first_try_catch_finally;
        [|apply emits_only_run_catch | apply emits_only_run_finally].
      intros w. rewrite run_try_file by (rewrite Hfiles; discriminate).
      revert w. apply emits_first_bind.
      - unfold engine_call. rewrite Hfiles. fold o. rewrite <- Hfiles.
        apply emits_first_prepackFileSync.
      - intros s. apply emits_only_bind; [|intros; apply emits_only_ret].
        apply emits_only_call, emits_only_processSerializedCode. }
    destruct (Hshape initial_world) as [evs [Ht [Hf Hp]]].
    exists evs. split; [|exact Hf].
    unfold call.
    destruct (run_parsed host l0 initial_world) as [[a | v | e | n] w1];
      cbn [snd trace pending initial_world app] in *;
      unfold event_loop; rewrite ?Hp; exact Ht.
Qed.

(** With the conflict, the message is the whole output. *)
Lemma main_trace_conflict argv l0 :
  fst (parse_args host (skipn 2 argv) initial_world) = Normal l0 ->
  lazy_objects_conflict (resolve_modes l0)
    (resolvedOptions (resolve_modes l0)) = true ->
  written_paths (trace (snd (main host argv))) = [].
Proof.
  intros Hparse Hconf.
  rewrite (main_after_parse host argv Hparse).
  unfold call. rewrite (run_parsed_conflict host l0 _ Hconf).
  reflexivity.
Qed.

End TraceShape.

(** ** The files a result is written to *)


(** Splits the variables and the result into the cases the writer
    distinguishes, then runs it. *)
Ltac writer_cases l s :=
  destruct l as [files out compat seed mapin mapout stats depth tmo funs
                 lazy graph dbgin dbgout fl];
  destruct s as [c m st tm hg];
  cbn [outputFilename statsFileName outputSourceMap heapGraphFilePath
       code map statistics timingStats heapGraph];
  destruct out as [[|? ?]|]; destruct stats as [[|? ?]|];
  destruct mapout as [[|? ?]|]; destruct graph as [[|? ?]|];
  destruct st; destruct tm; destruct hg as [[|? ?]|].

Lemma write_result_prefix l serialized w :
  exists written rest,
    written_paths (trace (snd (write_result l serialized w))) =
    (written_paths (trace w) ++ written)%list
    /\ requested_paths l = (written ++ rest)%list.
Proof.
  destruct serialized as [s|].
  - unfold write_result.
    destruct (String.eqb (code s) "") eqn:Ec.
    + exists [], (requested_paths l).
      unfold bind, when, console_error, emit, return_.
      cbn [snd trace fst]. rewrite written_paths_app.
      split; reflexivity.
    + unfold requested_paths, bind, when, ret, console_log, console_error, emit, return_, invariant, throw.
      writer_cases l s; simpl; rewrite ?written_paths_app;
        rewrite <- ?app_assoc; simpl;
        eexists; eexists; (split; [reflexivity | reflexivity]).
  - exists [], (requested_paths l). simpl. now rewrite app_nil_r.
Qed.



Lemma console_or_write_no_call paths evs :
  Forall (console_or_write paths) evs -> engine_calls evs = [].
Proof.
  induction 1 as [|e r He _ IH]; [reflexivity|].
  destruct e; simpl in *; try exact IH; contradiction.
Qed.

Lemma console_or_write_paths paths evs :
  Forall (console_or_write paths) evs ->
  forall p, In p (written_paths evs) -> In p paths.
Proof.
  induction 1 as [|e r He _ IH]; intros p Hin; [contradiction|].
  destruct e; simpl in *; try (now apply IH).
  destruct Hin as [<- | Hin]; [exact He | now apply IH].
Qed.

(** ** The engine call and the files, for every command line *)

(** X8. No command line makes the program call the engine twice.  When
    the argument loop completes and there is no lazy-objects conflict the
    call of the engine is the very first thing the run emits: the stream
    entry point when no file name was given, otherwise the file entry
    point with the file names in command-line order; nothing after it is
    a call of the engine. *)
Theorem X8_engine_called_once_and_first host argv :
  (length (engine_calls (trace (snd (main host argv)))) <= 1)%nat
  /\ (forall l0,
         fst (parse_args host (skipn 2 argv) initial_world) = Normal l0 ->
         lazy_objects_conflict (resolve_modes l0)
           (resolvedOptions (resolve_modes l0)) = false ->
         exists evs,
           trace (snd (main host argv)) =
           match inputFilenames l0 with
           | [] => CallPrepackStdin (resolvedOptions (resolve_modes l0))
           | files =>
               CallPrepackFileSync files
                 (resolvedOptions (resolve_modes l0))
           end :: evs
           /\ engine_calls evs = []).
Proof.
  split.
  - destruct (fst (parse_args host (skipn 2 argv) initial_world))
      as [l0 | v | e | n] eqn:Hp.
    + rewrite (engine_calls_main host argv Hp).
      destruct (lazy_objects_conflict _ _); simpl; lia.
    + rewrite (proj1 (main_parse_stopped_quiet host argv
                 ltac:(intros l0; rewrite Hp; discriminate))).
      simpl; lia.
    + rewrite (proj1 (main_parse_stopped_quiet host argv
                 ltac:(intros l0; rewrite Hp; discriminate))).
      simpl; lia.
    + rewrite (proj1 (main_parse_stopped_quiet host argv
                 ltac:(intros l0; rewrite Hp; discriminate))).
      simpl; lia.
  - intros l0 Hp Hconf.
    destruct (main_trace_shape host argv Hp Hconf) as [evs [Ht Hf]].
    exists evs. split; [exact Ht|].
    now apply console_or_write_no_call with (paths := requested_paths l0).
Qed.

Lemma X8_engine_called_once_and_first_witness :
  exists evs,
    trace (snd (main warning_host ["node"; "prepack.js"; "a.js"; "b.js"])) =
    CallPrepackFileSync ["a.js"; "b.js"]
      (resolvedOptions
         (resolve_modes
            (parsed warning_host ["node"; "prepack.js"; "a.js"; "b.js"])))
    :: evs
    /\ engine_calls evs = [].
Proof.
  apply (proj2 (X8_engine_called_once_and_first warning_host
                  ["node"; "prepack.js"; "a.js"; "b.js"])
           (parsed warning_host ["node"; "prepack.js"; "a.js"; "b.js"])).
  - vm_compute. reflexivity.
  - reflexivity.
Defined.

(** X9. Whatever the command line and whatever the engine does, every
    file the program writes is one the user named with out, statsFile,
    srcmapOut or heapGraphFilePath (a non-empty name); with none of them
    given no file is written at all. *)
Theorem X9_writes_only_requested_paths host argv p :
  In p (written_paths (trace (snd (main host argv)))) ->
  exists l0,
    fst (parse_args host (skipn 2 argv) initial_world) = Normal l0
    /\ In p (requested_paths l0).
Proof.
  intros Hin.
  destruct (fst (parse_args host (skipn 2 argv) initial_world))
    as [l0 | v | e | n] eqn:Hp.
  - exists l0. split; [reflexivity|].
    destruct (lazy_objects_conflict (resolve_modes l0)
                (resolvedOptions (resolve_modes l0))) eqn:Hconf.
    + rewrite (main_trace_conflict host argv Hp Hconf) in Hin.
      contradiction.
    + destruct (main_trace_shape host argv Hp Hconf) as [evs [Ht Hf]].
      rewrite Ht in Hin.
      assert (Hin' : In p (written_paths evs))
        by (unfold engine_call in Hin;
            destruct (inputFilenames (resolve_modes l0)); exact Hin).
      exact (console_or_write_paths Hf p Hin').
  - rewrite (proj2 (main_parse_stopped_quiet host argv
               ltac:(intros l0; rewrite Hp; discriminate))) in Hin.
    contradiction.
  - rewrite (proj2 (main_parse_stopped_quiet host argv
               ltac:(intros l0; rewrite Hp; discriminate))) in Hin.
    contradiction.
  - rewrite (proj2 (main_parse_stopped_quiet host argv
               ltac:(intros l0; rewrite Hp; discriminate))) in Hin.
    contradiction.
Qed.

Lemma X9_writes_only_requested_paths_witness :
  exists l0,
    fst (parse_args succeeding_host (skipn 2 argv_outputs_without_stats)
           initial_world) = Normal l0
    /\ In "out.map" (requested_paths l0).
Proof.
  apply (@X9_writes_only_requested_paths succeeding_host
           argv_outputs_without_stats "out.map").
  vm_compute. right. left. reflexivity.
Defined.

(** X10. The writer goes through the requested files in a fixed order
    -- output, statistics, source map, heap graph -- and stops at the
    first one it cannot produce: the files written for a result are
    always an initial segment of the requested ones. *)
Theorem X10_written_files_form_a_prefix l serialized w :
  exists written rest,
    written_paths (trace (snd (write_result l serialized w))) =
    (written_paths (trace w) ++ written)%list
    /\ requested_paths l = (written ++ rest)%list
    /\ errors (snd (write_result l serialized w)) = errors w.
Proof.
  destruct (write_result_prefix l serialized w) as [wr [rest [H1 H2]]].
  exists wr, rest. split; [exact H1 | split; [exact H2|]].
  destruct serialized as [s|]; [|reflexivity].
  unfold write_result, bind, when, ret, console_log, console_error,
    emit, return_, invariant, throw.
  destruct (String.eqb (code s) ""); [reflexivity|].
  writer_cases l s; reflexivity.
Qed.

(** ** Results with code *)







(** ** Failures and fatal diagnostics *)

Lemma has_fatal_nonempty m : has_fatal m = true -> m <> [].
Proof. intros H E. subst m. discriminate H. Qed.

(** X13. A fatal-severity diagnostic in the store always ends the run
    with status 1, whatever the engine does otherwise -- whether it
    returns a result, raises a FatalError or raises anything else.  In
    stream mode this holds for the diagnostics stored when
    [prepackStdin] returns and for those stored when the completion
    callback runs. *)
Theorem X13_fatal_diagnostic_forces_exit_1 host argv l0 :
  fst (parse_args host (skipn 2 argv) initial_world) = Normal l0 ->
  let l := resolve_modes l0 in
  let o := resolvedOptions l in
  lazy_objects_conflict l o = false ->
  (inputFilenames l0 <> [] ->
   has_fatal
     (collect (reported (prepackFileSync host (inputFilenames l0) o)) [])
   = true ->
   fst (main host argv) = ProcessExit 1)
  /\
  (inputFilenames l0 = [] ->
   has_fatal (collect (reported_early (prepackStdin host o)) []) = true
   \/ has_fatal
        (collect (reported_late (prepackStdin host o))
           (collect (reported_early (prepackStdin host o)) []))
      = true ->
   fst (main host argv) = ProcessExit 1).
Proof.
  intros Hparse l o Hconf.
  rewrite (main_after_parse host argv Hparse).
  unfold call. rewrite (run_parsed_no_conflict host l0 _ Hconf).
  fold l o. unfold bind, try_catch_finally.
  split.
  - intros Hfiles Hfatal.
    rewrite run_try_file by exact Hfiles.
    unfold bind. rewrite call_prepackFileSync_spec.
    change (inputFilenames l) with (inputFilenames l0).
    destruct (outcome (prepackFileSync host (inputFilenames l0) o))
      as [s | e].
    + unfold call. rewrite processSerializedCode_no_error.
      world_simpl. rewrite Hfatal. reflexivity.
    + destruct e as [msg | msg | msg | descr];
        try (rewrite run_catch_other by reflexivity; reflexivity).
      rewrite run_catch_fatal. world_simpl.
      pose proof (has_fatal_nonempty Hfatal) as Hne.
      destruct (collect _ _) as [|d r] eqn:Es; [congruence|].
      unfold finally_. rewrite run_finally_spec. world_simpl.
      rewrite Hfatal. reflexivity.
  - intros Hfiles Hfatal.
    rewrite run_try_stdin by exact Hfiles.
    unfold bind. rewrite call_prepackStdin_spec.
    unfold return_, finally_. rewrite run_finally_spec.
    world_simpl.
    destruct (has_fatal (collect (reported_early (prepackStdin host o)) []))
      eqn:Hearly; [reflexivity|].
    destruct Hfatal as [Hfatal | Hfatal]; [discriminate|].
    world_simpl.
    unfold completion_callback, bind. rewrite report_all_spec.
    world_simpl. unfold call.
    destruct (completion_err (prepackStdin host o)) as [e|].
    + destruct e as [msg | msg | msg | descr];
        try (rewrite processSerializedCode_other by reflexivity;
             reflexivity).
      rewrite processSerializedCode_fatal. world_simpl.
      pose proof (has_fatal_nonempty Hfatal) as Hne.
      destruct (collect (reported_late _) _) as [|d r] eqn:Es;
        [congruence|].
      rewrite Hfatal. reflexivity.
    + rewrite processSerializedCode_no_error. world_simpl.
      rewrite Hfatal. reflexivity.
Qed.

Lemma X13_fatal_diagnostic_forces_exit_1_witness :
  fst (main (quiet_host [sample_warning; sample_fatal]
               (Returns (Some sample_result))) argv_file)
  = ProcessExit 1
  /\ fst (main (quiet_host [sample_warning; sample_fatal]
                  (Returns (Some sample_result))) argv_stdin)
     = ProcessExit 1.
Proof.
  split.
  - apply (proj1 (@X13_fatal_diagnostic_forces_exit_1
                    (quiet_host [sample_warning; sample_fatal]
                       (Returns (Some sample_result)))
                    argv_file
                    (parsed (quiet_host [sample_warning; sample_fatal]
                               (Returns (Some sample_result))) argv_file)
                    eq_refl eq_refl)).
    + discriminate.
    + reflexivity.
  - apply (proj2 (@X13_fatal_diagnostic_forces_exit_1
                    (quiet_host [sample_warning; sample_fatal]
                       (Returns (Some sample_result)))
                    argv_stdin
                    (parsed (quiet_host [sample_warning; sample_fatal]
                               (Returns (Some sample_result))) argv_stdin)
                    eq_refl eq_refl)).
    + reflexivity.
    + right. reflexivity.
Defined.



(** ** The store as a map *)

Lemma store_refs_Map_set k v m :
  store_refs (Map_set k v m) = remember_ref (store_refs m) (loc_ref k).
Proof.
  unfold remember_ref.
  induction m as [|[k1 v1] r IH]; simpl; [reflexivity|].
  destruct (Nat.eqb (loc_ref k) (loc_ref k1)); simpl; [reflexivity|].
  rewrite IH. now destruct (existsb (Nat.eqb (loc_ref k)) (store_refs r)).
Qed.

Lemma NoDup_remember_ref acc r :
  NoDup acc -> NoDup (remember_ref acc r).
Proof.
  intros H. unfold remember_ref.
  destruct (existsb (Nat.eqb r) acc) eqn:E; [exact H|].
  apply NoDup_app; [exact H | repeat constructor; intros [] |].
  intros x Hx [Hr | []]. subst x.
  assert (existsb (Nat.eqb r) acc = true)
    by (apply existsb_exists; exists r; split;
        [exact Hx | apply Nat.eqb_refl]).
  congruence.
Qed.

Lemma store_refs_collect ds :
  forall m,
    store_refs (collect ds m) =
    fold_left remember_ref (located_refs ds) (store_refs m).
Proof.
  induction ds as [|d r IH]; intros m; simpl; [reflexivity|].
  rewrite IH. destruct (location d) as [k|]; simpl; [|reflexivity].
  now rewrite store_refs_Map_set.
Qed.

Lemma NoDup_fold_remember refs :
  forall acc, NoDup acc -> NoDup (fold_left remember_ref refs acc).
Proof.
  induction refs as [|r rs IH]; intros acc H; simpl; [exact H|].
  apply IH. now apply NoDup_remember_ref.
Qed.

(** X15. The keys of the diagnostic store are the distinct location
    objects that were reported, in the order of their first report: a
    later report at a location already present does not move its entry.
    No location appears twice, so one run of the listing shows each
    location once. *)
Theorem X15_store_keys_in_order_of_first_report ds w :
  store_refs (errors (snd (report_all ds w))) =
  fold_left remember_ref (located_refs ds) (store_refs (errors w))
  /\ (NoDup (store_refs (errors w)) ->
      NoDup (store_refs (errors (snd (report_all ds w)))))
  /\ NoDup (store_refs (errors (snd (report_all ds initial_world)))).
Proof.
  rewrite !report_all_spec. cbn [snd errors set_errors initial_world].
  rewrite !store_refs_collect.
  split; [reflexivity | split].
  - apply NoDup_fold_remember.
  - apply NoDup_fold_remember. constructor.
Qed.

Lemma X15_store_keys_witness :
  store_refs
    (errors (snd (report_all [sample_fatal; sample_warning; sample_error;
                              sample_fatal] initial_world)))
  = [2; 1].
Proof.
  rewrite (proj1 (X15_store_keys_in_order_of_first_report
                    [sample_fatal; sample_warning; sample_error;
                     sample_fatal] initial_world)).
  reflexivity.
Defined.

Lemma Map_get_set_same k v m : Map_get k (Map_set k v m) = Some v.
Proof.
  induction m as [|[k1 v1] r IH]; simpl.
  - now rewrite Nat.eqb_refl.
  - destruct (Nat.eqb (loc_ref k) (loc_ref k1)) eqn:E; simpl; rewrite E;
      [reflexivity | exact IH].
Qed.

Lemma Map_get_set_other k k' v m :
  loc_ref k' <> loc_ref k -> Map_get k' (Map_set k v m) = Map_get k' m.
Proof.
  intros Hne. induction m as [|[k1 v1] r IH]; simpl.
  - apply Nat.eqb_neq in Hne. now rewrite Hne.
  - destruct (Nat.eqb (loc_ref k) (loc_ref k1)) eqn:E; simpl.
    + apply Nat.eqb_eq in E.
      assert (E1 : Nat.eqb (loc_ref k') (loc_ref k1) = false)
        by (apply Nat.eqb_neq; congruence).
      now rewrite E1.
    + now rewrite IH.
Qed.

Lemma length_Map_set k v m :
  length (Map_set k v m) =
  (length m + match Map_get k m with Some _ => 0 | None => 1 end)%nat.
Proof.
  induction m as [|[k1 v1] r IH]; simpl; [reflexivity|].
  destruct (Nat.eqb (loc_ref k) (loc_ref k1)); simpl; [lia|].
  rewrite IH. lia.
Qed.

(** X16. Reporting a diagnostic with a location and then looking the
    location up gives that diagnostic back; the entries of all other
    locations are untouched; the store grows by one entry when the
    location is new and keeps its size otherwise; the callback prints
    nothing and answers "Recover". *)
Theorem X16_report_then_lookup d loc w :
  location d = Some loc ->
  fst (errorHandler d w) = Normal Recover
  /\ Map_get loc (errors (snd (errorHandler d w))) = Some d
  /\ (forall loc',
         loc_ref loc' <> loc_ref loc ->
         Map_get loc' (errors (snd (errorHandler d w)))
         = Map_get loc' (errors w))
  /\ length (errors (snd (errorHandler d w))) =
     (length (errors w)
      + match Map_get loc (errors w) with Some _ => 0 | None => 1 end)%nat
  /\ trace (snd (errorHandler d w)) = trace w.
Proof.
  intros Hloc. unfold errorHandler. rewrite Hloc. cbn [fst snd errors trace].
  split; [reflexivity | split; [apply Map_get_set_same | split; [|split]]].
  - intros loc' Hne. now apply Map_get_set_other.
  - apply length_Map_set.
  - reflexivity.
Qed.

Lemma X16_report_then_lookup_witness :
  Map_get sample_location
    (errors (snd (errorHandler sample_error
                    (snd (errorHandler sample_warning initial_world)))))
  = Some sample_error.
Proof.
  apply (proj1 (proj2 (@X16_report_then_lookup sample_error sample_location
                         (snd (errorHandler sample_warning initial_world))
                         eq_refl))).
Defined.

(** ** The listing *)

Lemma listing_without_fatal m :
  has_fatal m = false ->
  listing false m =
  List.map (fun e => ConsoleError (diagnostic_line (fst e) (snd e))) m.
Proof.
  induction m as [|[k d] r IH]; simpl; [reflexivity|].
  intros H. apply orb_false_elim in H. destruct H as [Hd Hr].
  simpl in Hd. rewrite Hd. simpl. now rewrite IH.
Qed.

Lemma has_fatal_In m :
  has_fatal m = true <->
  exists k d, In (k, d) m /\ severity d = FatalErrorSeverity.
Proof.
  unfold has_fatal. rewrite existsb_exists. split.
  - intros [[k d] [Hin Hs]]. exists k, d. split; [exact Hin|].
    simpl in Hs. now destruct (severity d).
  - intros [k [d [Hin Hs]]]. exists (k, d). split; [exact Hin|].
    simpl. now rewrite Hs.
Qed.

(** X17. [printDiagnostics] only reads the store.  It answers true
    exactly when some stored diagnostic has the severity "FatalError".
    With an empty store it prints nothing at all, not even the heading;
    with a store without fatal diagnostics it prints the heading and then
    exactly one line per entry, in the order of the store. *)
Theorem X17_printDiagnostics_reads_and_reports w :
  errors (snd (printDiagnostics w)) = errors w
  /\ (fst (printDiagnostics w) = Normal true <->
      exists k d,
        In (k, d) (errors w) /\ severity d = FatalErrorSeverity)
  /\ (errors w = [] -> printDiagnostics w = (Normal false, w))
  /\ (errors w <> [] -> has_fatal (errors w) = false ->
      printDiagnostics w =
      (Normal false,
       add_trace w
         (ConsoleError "Errors found while prepacking"
          :: List.map
               (fun e => ConsoleError (diagnostic_line (fst e) (snd e)))
               (errors w)))).
Proof.
  rewrite printDiagnostics_spec. cbn [fst snd errors add_trace].
  split; [reflexivity | split; [|split]].
  - rewrite <- has_fatal_In.
    split; [intros H; now inversion H | intros ->; reflexivity].
  - intros E. rewrite E. simpl. now rewrite add_trace_nil.
  - intros Hne Hf. rewrite Hf. unfold diagnostics_output.
    destruct (errors w) as [|e r] eqn:E; [congruence|].
    now rewrite listing_without_fatal.
Qed.

Lemma X17_printDiagnostics_witness :
  printDiagnostics initial_world = (Normal false, initial_world).
Proof.
  apply (proj1 (proj2 (proj2
           (X17_printDiagnostics_reads_and_reports initial_world)))).
  reflexivity.
Defined.

Lemma length_listing m :
  forall foundFatal,
    length (listing foundFatal m) =
    (length m
     + length (if foundFatal then m else from_first_fatal m))%nat.
Proof.
  induction m as [|[k d] r IH]; intros ff; simpl.
  - now destruct ff.
  - rewrite length_app, IH.
    destruct ff; simpl; [lia|].
    destruct (is_fatal_severity (severity d)); simpl; lia.
Qed.

(** X18. From the first fatal diagnostic of the store on, the listing
    prints the call stack of every entry, whatever the entry's own
    severity: the line of such an entry is directly followed by its call
    stack (an empty line when it has none).  So a non-empty store yields
    one heading, one line per entry and one call-stack line per entry
    from the first fatal one on. *)
Theorem X18_call_stacks_after_first_fatal w before k d after :
  errors w = (before ++ (k, d) :: after)%list ->
  has_fatal before = true ->
  (exists pre post,
      trace (snd (printDiagnostics w)) =
      (trace w ++ pre
       ++ [ConsoleError (diagnostic_line k d);
           ConsoleError (JS.or_empty (callStack d))]
       ++ post)%list)
  /\ length (trace (snd (printDiagnostics w))) =
     (length (trace w) + 1 + length (errors w)
      + length (from_first_fatal (errors w)))%nat.
Proof.
  intros E Hf. rewrite printDiagnostics_spec. cbn [snd trace add_trace].
  assert (Hout : diagnostics_output (errors w) =
                 ConsoleError "Errors found while prepacking"
                 :: listing false (errors w))
    by (rewrite E; destruct before; reflexivity).
  rewrite Hout. split.
  - rewrite E, listing_app. cbn [orb]. rewrite Hf.
    exists (ConsoleError "Errors found while prepacking"
            :: listing false before),
           (listing true after).
    simpl. reflexivity.
  - rewrite length_app. cbn [length]. rewrite length_listing. lia.
Qed.

Lemma X18_call_stacks_witness :
  length
    (trace (snd (printDiagnostics
                   (snd (report_all [sample_fatal; sample_warning]
                           initial_world)))))
  = 5.
Proof.
  rewrite (proj2 (@X18_call_stacks_after_first_fatal
                    (snd (report_all [sample_fatal; sample_warning]
                            initial_world))
                    [(match location sample_fatal with
                      | Some k => k
                      | None => sample_location
                      end, sample_fatal)]
                    sample_location sample_warning [] eq_refl eq_refl)).
  reflexivity.
Defined.

(** ** The list of additional functions *)

Lemma split_on_nonempty sep s : JS.split_on sep s <> [].
Proof.
  destruct s as [|c r]; simpl; [discriminate|].
  destruct (Ascii.eqb c sep); [discriminate|].
  destruct (JS.split_on sep r); discriminate.
Qed.

Lemma join_split_on s : JS.join "," (JS.split_on "," s) = s.
Proof.
  unfold JS.join. induction s as [|c r IH]; [reflexivity|].
  pose proof (split_on_nonempty "," r) as Hne.
  simpl. destruct (JS.split_on "," r) as [|p ps]; [congruence|].
  destruct (Ascii.eqb c ",") eqn:E.
  - apply Ascii.eqb_eq in E. subst c.
    change (String.concat "," ("" :: p :: ps))
      with ("" ++ "," ++ String.concat "," (p :: ps)).
    rewrite IH. reflexivity.
  - destruct ps as [|q qs]; simpl in *; now rewrite <- IH.
Qed.

Lemma split_on_pieces s :
  forall piece,
    In piece (JS.split_on "," s) ->
    ~ In ","%char (list_ascii_of_string piece).
Proof.
  induction s as [|c r IH]; intros piece Hin.
  - simpl in Hin. destruct Hin as [<- | []]. intros [].
  - simpl in Hin. destruct (Ascii.eqb c ",") eqn:E.
    + destruct Hin as [<- | Hin]; [intros [] | now apply IH].
    + pose proof (split_on_nonempty "," r) as Hne.
      destruct (JS.split_on "," r) as [|p ps] eqn:Es; [congruence|].
      destruct Hin as [<- | Hin].
      * simpl. intros [Hc | Hp].
        -- subst c. discriminate E.
        -- apply (IH p); [now left | exact Hp].
      * apply IH. now right.
Qed.

(** X19. The value of additionalFunctions is cut at its commas and at
    nothing else: the list always has at least one name, no name contains
    a comma, and joining the names with commas gives the value back (so
    empty names are kept: an empty value yields the one-element list of
    the empty name).  The option overwrites an earlier one and prints
    nothing. *)
Theorem X19_additional_functions_round_trip host line rest l w :
  loop_body host "--additionalFunctions" (line :: rest) l w =
  (Normal (rest, set_additionalFunctions l (Some (JS.split_on "," line))),
   w)
  /\ JS.join "," (JS.split_on "," line) = line
  /\ JS.split_on "," line <> []
  /\ (forall name,
         In name (JS.split_on "," line) ->
         ~ In ","%char (list_ascii_of_string name)).
Proof.
  split; [reflexivity | split; [apply join_split_on | split]].
  - apply split_on_nonempty.
  - apply split_on_pieces.
Qed.

(** ** The conflict test and the modes *)

(** X20. Lines 192-196 change no flag but serialize and residual, so the
    lazy-objects conflict does not depend on the mode toggles: it is
    decided by the runtime name, additionalFunctions and the two flags as
    the argument loop left them, and check mode does not bypass it. *)
Theorem X20_conflict_ignores_modes (l0 : Locals) :
  lazy_objects_conflict (resolve_modes l0)
    (resolvedOptions (resolve_modes l0)) =
  (JS.truthy_str (lazyObjectsRuntime l0)
   && (match additionalFunctions l0 with Some _ => true | None => false end
       || flag_on "delayInitializations" (flags l0)
       || flag_on "inlineExpressions" (flags l0)))%bool
  /\ (forall k,
         k <> "serialize" -> k <> "residual" ->
         flag_on k (opt_flags (resolvedOptions (resolve_modes l0)))
         = flag_on k (flags l0)).
Proof.
  split.
  - unfold lazy_objects_conflict.
    cbn [resolve_modes resolvedOptions opt_additionalFunctions opt_flags
         lazyObjectsRuntime additionalFunctions flags set_flags].
    now rewrite !normalize_modes_other by discriminate.
  - intros k Hs Hr.
    cbn [resolve_modes resolvedOptions opt_flags flags set_flags].
    now apply normalize_modes_other.
Qed.

Lemma X20_conflict_ignores_modes_witness :
  flag_on "inlineExpressions"
    (opt_flags
       (resolvedOptions
          (resolve_modes
             (parsed succeeding_host
                ["node"; "prepack.js"; "--check"; "--inlineExpressions"]))))
  = true.
Proof.
  rewrite (proj2 (X20_conflict_ignores_modes
                    (parsed succeeding_host
                       ["node"; "prepack.js"; "--check";
                        "--inlineExpressions"]))
             "inlineExpressions"
             ltac:(discriminate) ltac:(discriminate)).
  reflexivity.
Defined.

(** ** Numeric tokens that are not plain digit strings *)

Section NumericTokens.

Import JS.

Lemma drop_spaces_head l :
  match l with c :: _ => is_space c = false | [] => True end ->
  drop_spaces l = l.
Proof. destruct l as [|c r]; simpl; [reflexivity | now intros ->]. Qed.

Lemma span_digits_app ip rest :
  forallb is_digit ip = true ->
  match rest with c :: _ => is_digit c = false | [] => True end ->
  span_digits (ip ++ rest)%list = (ip, rest).
Proof.
  intros Hip Hrest. induction ip as [|c r IH]; cbn [app span_digits].
  - destruct rest as [|c r]; [reflexivity|].
    cbn [span_digits]. now rewrite Hrest.
  - cbn [forallb] in Hip. apply andb_true_iff in Hip.
    destruct Hip as [Hc Hr]. now rewrite Hc, IH.
Qed.

Lemma trim_ends l :
  match l with c :: _ => is_space c = false | [] => True end ->
  match rev l with c :: _ => is_space c = false | [] => True end ->
  trim l = l.
Proof.
  intros H1 H2. unfold trim.
  rewrite (drop_spaces_head l H1), (drop_spaces_head (rev l) H2).
  apply rev_involutive.
Qed.

Lemma rev_head_digits fp rest c :
  forallb is_digit fp = true -> is_space c = false ->
  match (rev fp ++ c :: rest)%list with
  | c' :: _ => is_space c' = false
  | [] => True
  end.
Proof.
  intros Hfp Hc.
  destruct (rev fp) as [|d r] eqn:E; simpl; [exact Hc|].
  apply digit_not_space.
  assert (Hin : In d fp) by (apply in_rev; rewrite E; now left).
  exact (proj1 (forallb_forall is_digit fp) Hfp d Hin).
Qed.

(** A digit string, a dot and a digit string. *)
Lemma fraction_token ip fp :
  ip <> [] -> forallb is_digit ip = true -> forallb is_digit fp = true ->
  isNaN (Some (string_of_list_ascii (ip ++ "."%char :: fp)%list)) = false
  /\ parseInt10 (string_of_list_ascii (ip ++ "."%char :: fp)%list)
     = to_double (digits_value 0 ip).
Proof.
  intros Hne Hip Hfp.
  assert (Hhead : exists c r, ip = c :: r /\ is_digit c = true).
  { destruct ip as [|c r]; [congruence|]. exists c, r.
    simpl in Hip. apply andb_true_iff in Hip. now destruct Hip. }
  destruct Hhead as [c [r [Eip Hc]]].
  assert (Hspan : span_digits (ip ++ "."%char :: fp)%list
                  = (ip, "."%char :: fp))
    by (apply span_digits_app; [exact Hip | reflexivity]).
  assert (H1 : match (ip ++ "."%char :: fp)%list with
               | c' :: _ => is_space c' = false
               | [] => True
               end)
    by (rewrite Eip; simpl; now apply digit_not_space).
  assert (Hsign : strip_sign (ip ++ "."%char :: fp)%list
                  = (ip ++ "."%char :: fp)%list)
    by (rewrite Eip; simpl; now rewrite (digit_not_sign _ Hc)).
  split.
  - unfold isNaN, string_is_numeric.
    rewrite list_ascii_of_string_of_list_ascii.
    rewrite trim_ends.
    + assert (Hu : unsigned_decimal (ip ++ "."%char :: fp)%list = true).
      { unfold unsigned_decimal.
        destruct (list_eq_dec ascii_dec _ _); [reflexivity|].
        rewrite Hspan. cbn [Ascii.eqb Bool.eqb].
        rewrite (span_digits_all _ Hfp).
        rewrite Eip. reflexivity. }
      rewrite Hsign, Hu.
      now destruct (ip ++ "."%char :: fp)%list.
    + exact H1.
    + rewrite rev_app_distr. cbn [rev].
      rewrite <- app_assoc. cbn [app].
      exact (@rev_head_digits fp (rev ip) "."%char Hfp eq_refl).
  - unfold parseInt10.
    rewrite list_ascii_of_string_of_list_ascii.
    rewrite (drop_spaces_head _ H1), Hsign, Hspan.
    rewrite Eip. cbn [app]. cbv zeta.
    destruct (Ascii.eqb c "-") eqn:Em.
    + apply Ascii.eqb_eq in Em. subst c. discriminate Hc.
    + destruct (Z.eqb_spec (digits_value 0 (c :: r)) 0) as [->|_];
        reflexivity.
Qed.

(** A minus sign and a digit string. *)
Lemma negative_token ip :
  ip <> [] -> forallb is_digit ip = true ->
  isNaN (Some (string_of_list_ascii ("-"%char :: ip))) = false
  /\ parseInt10 (string_of_list_ascii ("-"%char :: ip))
     = (if (digits_value 0 ip =? 0)%Z then NegZero
        else to_double (- digits_value 0 ip)).
Proof.
  intros Hne Hip.
  split.
  - unfold isNaN, string_is_numeric.
    rewrite list_ascii_of_string_of_list_ascii.
    rewrite trim_ends.
    + cbn [strip_sign Ascii.eqb Bool.eqb orb].
      now rewrite (unsigned_decimal_digits Hne Hip).
    + reflexivity.
    + cbn [rev].
      exact (@rev_head_digits ip [] "-"%char Hip eq_refl).
  - unfold parseInt10.
    rewrite list_ascii_of_string_of_list_ascii.
    rewrite (drop_spaces_head ("-"%char :: ip)) by reflexivity.
    cbn [strip_sign Ascii.eqb Bool.eqb orb].
    rewrite (span_digits_all _ Hip).
    destruct ip; [congruence | reflexivity].
Qed.

End NumericTokens.

(** X21. The numeric options accept more than integers.  A token of
    digits, a dot and digits passes the [isNaN] guard and [parseInt]
    keeps the digits before the dot only: when 1000 times their integer
    is below 2^53 the timeout is that product, so a timeout of "0.5"
    seconds becomes 0 milliseconds.  A minus sign followed by digits
    passes too: when their integer is below 2^53 the stack depth is its
    negative, and -0 when the digits are all zero. *)
Theorem X21_fractions_are_truncated_negatives_accepted host ip fp rest l w :
  ip <> [] ->
  forallb JS.is_digit ip = true -> forallb JS.is_digit fp = true ->
  ((JS.digits_value 0 ip * 1000 < 2 ^ 53)%Z ->
   loop_body host "--timeout"
     (string_of_list_ascii (ip ++ "."%char :: fp)%list :: rest) l w =
   (Normal (rest,
            set_timeout l (Some (JS.JSInt (JS.digits_value 0 ip * 1000)))),
    w))
  /\ ((JS.digits_value 0 ip < 2 ^ 53)%Z ->
      loop_body host "--maxStackDepth"
        (string_of_list_ascii ("-"%char :: ip) :: rest) l w =
      (Normal (rest,
               set_maxStackDepth l
                 (Some (if (JS.digits_value 0 ip =? 0)%Z then JS.NegZero
                        else JS.JSInt (- JS.digits_value 0 ip)))),
       w)).
Proof.
  intros Hne Hip Hfp.
  destruct (@fraction_token ip fp Hne Hip Hfp) as [Hn Hv].
  destruct (@negative_token ip Hne Hip) as [Hn' Hv'].
  destruct (numeric_option_turn host
              (string_of_list_ascii (ip ++ "."%char :: fp)%list)
              rest l w) as [_ Ht].
  destruct (numeric_option_turn host (string_of_list_ascii ("-"%char :: ip))
              rest l w) as [Hd _].
  pose proof (@digits_value_nonneg ip 0%Z (Z.le_refl 0) Hip) as Hpos.
  split; intros Hlt.
  - rewrite Ht, Hn, Hv, to_double_exact by lia.
    rewrite times_1000_exact by lia. reflexivity.
  - rewrite Hd, Hn', Hv'.
    destruct (Z.eqb_spec (JS.digits_value 0 ip) 0); [reflexivity|].
    rewrite to_double_exact by lia. reflexivity.
Qed.

Lemma X19_additional_functions_witness :
  ~ In ","%char (list_ascii_of_string "g").
Proof.
  apply (proj2 (proj2 (proj2
           (X19_additional_functions_round_trip succeeding_host "f,g" []
              initial_locals initial_world))) "g").
  simpl. right. left. reflexivity.
Defined.

Lemma X21_fractions_witness :
  loop_body succeeding_host "--timeout" ["0.5"] initial_locals initial_world
  = (Normal ([], set_timeout initial_locals (Some (JS.JSInt 0))),
     initial_world)
  /\ loop_body succeeding_host "--maxStackDepth" ["-0"] initial_locals
       initial_world
     = (Normal ([], set_maxStackDepth initial_locals (Some JS.NegZero)),
        initial_world).
Proof.
  split.
  - apply (proj1 (@X21_fractions_are_truncated_negatives_accepted
                    succeeding_host ["0"%char] ["5"%char] [] initial_locals
                    initial_world ltac:(discriminate) eq_refl eq_refl)).
    reflexivity.
  - apply (proj2 (@X21_fractions_are_truncated_negatives_accepted
                    succeeding_host ["0"%char] [] [] initial_locals
                    initial_world ltac:(discriminate) eq_refl eq_refl)).
    reflexivity.
Defined.

(** ** The options the engine receives *)

(** X22. In every call of the engine the heap-graph format is
    "DotLanguage", source maps are requested exactly when a non-empty
    output source-map file was named, and the other named options are
    passed on as the argument loop left them. *)
Theorem X22_resolved_options host argv o :
  In o (engine_calls (trace (snd (main host argv)))) ->
  opt_heapGraphFormat o = "DotLanguage"
  /\ exists l0,
       fst (parse_args host (skipn 2 argv) initial_world) = Normal l0
       /\ (opt_sourceMaps o = true <->
           exists p, outputSourceMap l0 = Some p /\ p <> "")
       /\ opt_inputSourceMapFilename o = inputSourceMap l0
       /\ opt_mathRandomSeed o = mathRandomSeed l0
       /\ opt_additionalFunctions o = additionalFunctions l0
       /\ opt_lazyObjectsRuntime o = lazyObjectsRuntime l0
       /\ opt_maxStackDepth o = maxStackDepth l0
       /\ opt_timeout o = timeout l0.
Proof.
  intros Hin.
  destruct (engine_calls_main_cases host argv o Hin) as [l0 [Hp ->]].
  split; [reflexivity|]. exists l0. split; [exact Hp|].
  split; [|repeat split].
  cbn [opt_sourceMaps resolvedOptions resolve_modes outputSourceMap
       set_flags].
  destruct (outputSourceMap l0) as [[|c r]|]; simpl.
  - split; [discriminate | intros [p [H Hne]]; inversion H; congruence].
  - split; [intros _; eexists; split; [reflexivity | discriminate]
           | reflexivity].
  - split; [discriminate | intros [p [H _]]; discriminate].
Qed.

Lemma X22_resolved_options_witness :
  opt_heapGraphFormat
    (resolvedOptions (resolve_modes (parsed succeeding_host argv_file)))
  = "DotLanguage".
Proof.
  apply (@X22_resolved_options succeeding_host argv_file
           (resolvedOptions
              (resolve_modes (parsed succeeding_host argv_file)))).
  vm_compute. left. reflexivity.
Defined.
